(** * SimpleShell (LinuxShell_Assignment2.cpp): job table, pipeline launcher,
      job-control builtins and SIGCHLD reconciler.

    The shell is embedded as a state-and-outcome monad over a [Machine]
    record: the shell's globals ([jobs], [next_job_id], [shell_pgid]),
    [errno], the chronological [trace] of library and system calls made so
    far, and the [script] of answers the operating system will give to the
    following calls.

    - Every system call takes the next [Answer] of the script: its return
      value, what it writes through its out-parameters, and what it does to
      [errno].  When the script is exhausted the call fails with -1.
    - A procedure ends in an [Outcome]: it returns, the process calls [exit],
      a C++ exception propagates, or [execvp] replaces the process image.
    - [fork] is followed in the process in which it returns: on an answer
      other than 0 the model goes on as the shell, on the answer 0 it goes
      on as the child ([launch_child]), on the memory the shell had.
    - The two loops that end on an answer of the system ([wait_loop],
      [reap_loop]) take one more unit of fuel than the script has answers;
      they are shown never to run out of it.
    - An [int] that the source reads without having initialised it holds
      [uninit].
    - The job vector is a list; a [Job*] into it is a position.
    - [next_job_id] is an [int]: incrementing it at [INT_MAX] wraps around.
    - The SIGCHLD handler is a procedure of its own, taken between the
      operations of the shell. *)

From Stdlib Require Import ZArith List String Ascii Bool Lia DecimalString DecimalPos.
Import ListNotations.
Open Scope string_scope.
Open Scope list_scope.
Open Scope Z_scope.

(** ** Platform constants (Linux: <fcntl.h>, <sys/wait.h>, <unistd.h>) *)

Module Sys.

Definition O_RDONLY : Z := 0.
Definition O_WRONLY : Z := 1.
Definition O_CREAT  : Z := 64.     (* 0100 *)
Definition O_TRUNC  : Z := 512.    (* 01000 *)
Definition O_APPEND : Z := 1024.   (* 02000 *)

Definition WNOHANG    : Z := 1.
Definition WUNTRACED  : Z := 2.
Definition WCONTINUED : Z := 8.

Definition STDIN_FILENO  : Z := 0.
Definition STDOUT_FILENO : Z := 1.

(** Decoding of a wait status, as in glibc's <bits/waitstatus.h>. *)
Definition WTERMSIG (s : Z) : Z := Z.land s 127.
Definition WIFEXITED (s : Z) : bool := WTERMSIG s =? 0.
Definition WIFSTOPPED (s : Z) : bool := Z.land s 255 =? 127.
(* ((signed char) ((s & 0x7f) + 1) >> 1) > 0 *)
Definition WIFSIGNALED (s : Z) : bool :=
  let t := WTERMSIG s + 1 in
  let c := if 128 <=? t then t - 256 else t in
  0 <? Z.shiftr c 1.
Definition WIFCONTINUED (s : Z) : bool := s =? 65535.

End Sys.

Inductive Signal : Type := SIGINT | SIGTSTP | SIGCHLD | SIGCONT.

Inductive Disposition : Type :=
| SIG_DFL
| Handler (name : string).

(** ** Job data structures *)

Record Job : Type := mkJob {
  id : Z;
  pgid : Z;              (* process group id *)
  cmdline : string;
  is_background : bool;
  status : Z             (* 0 running, 1 stopped, 2 done *)
}.

Record Command : Type := mkCommand {
  argv : list string;
  infile : string;
  outfile : string;
  append : bool
}.

(** [Command()] : the default-constructed command. *)
Definition Command0 : Command := mkCommand [] EmptyString EmptyString false.

Definition set_status (v : Z) (j : Job) : Job :=
  mkJob (id j) (pgid j) (cmdline j) (is_background j) v.

Definition set_is_background (b : bool) (j : Job) : Job :=
  mkJob (id j) (pgid j) (cmdline j) b (status j).

(** Write through a [Job*] obtained from one of the [find_*] functions: the
    pointer is the position of the job in the vector. *)
Fixpoint update_at (k : nat) (f : Job -> Job) (js : list Job) {struct js}
  : list Job :=
  match js with
  | [] => []
  | j :: js' =>
      match k with
      | O => f j :: js'
      | S k' => j :: update_at k' f js'
      end
  end.

(** ** Job management on the vector itself *)

Definition mark_done (p : Z) (js : list Job) : list Job :=
  map (fun j => if pgid j =? p then set_status 2 j else j) js.

Definition mark_stopped (p : Z) (js : list Job) : list Job :=
  map (fun j => if pgid j =? p then set_status 1 j else j) js.

Definition remove_completed (js : list Job) : list Job :=
  filter (fun j => negb (status j =? 2)) js.

Fixpoint find_index (f : Job -> bool) (js : list Job) : option nat :=
  match js with
  | [] => None
  | j :: js' =>
      if f j then Some O
      else match find_index f js' with
           | Some k => Some (S k)
           | None => None
           end
  end.

Definition find_job_by_id (i : Z) (js : list Job) : option nat :=
  find_index (fun j => id j =? i) js.

Definition find_job_by_pgid (p : Z) (js : list Job) : option nat :=
  find_index (fun j => pgid j =? p) js.

Definition find_last_job (js : list Job) : option nat :=
  match js with
  | [] => None
  | _ :: _ => Some (pred (List.length js))
  end.

(** ** Utility functions *)

Definition chr (n : nat) : ascii := ascii_of_nat n.

(** [isspace] in the C locale. *)
Definition isspace (c : ascii) : bool :=
  let n := nat_of_ascii c in
  ((n =? 32) || ((9 <=? n) && (n <=? 13)))%nat.

(** Membership in the set [" \t\n\r"] used by [trim]. *)
Definition is_trim_char (c : ascii) : bool :=
  let n := nat_of_ascii c in
  ((n =? 32) || (n =? 9) || (n =? 10) || (n =? 13))%nat.

(** Membership in [string("|<>&")]. *)
Definition is_special (c : ascii) : bool :=
  let n := nat_of_ascii c in
  ((n =? 124) || (n =? 60) || (n =? 62) || (n =? 38))%nat.

Definition is_quote (c : ascii) : bool :=
  let n := nat_of_ascii c in
  ((n =? 34) || (n =? 39))%nat.

Fixpoint drop_trim (s : list ascii) : list ascii :=
  match s with
  | [] => []
  | c :: s' => if is_trim_char c then drop_trim s' else s
  end.

Definition trim (s : string) : string :=
  let l := list_ascii_of_string s in
  string_of_list_ascii (rev (drop_trim (rev (drop_trim l)))).

(** Inner loop of the quote branch of [split_tokens]: append to [cur] up to
    the closing quote, which is skipped when present. *)
Fixpoint scan_quoted (q : ascii) (s cur : list ascii) : list ascii * list ascii :=
  match s with
  | [] => (cur, [])
  | c :: s' =>
      if Ascii.eqb c q then (cur, s') else scan_quoted q s' (cur ++ [c])
  end.

(** Inner loop of the normal-token branch. *)
Fixpoint scan_word (s cur : list ascii) : list ascii * list ascii :=
  match s with
  | [] => (cur, [])
  | c :: s' =>
      if negb (isspace c) && negb (is_special c)
      then scan_word s' (cur ++ [c])
      else (cur, s)
  end.

Definition nonempty {A : Type} (l : list A) : bool :=
  match l with [] => false | _ :: _ => true end.

Definition push_if_nonempty (cur : list ascii) (toks : list string) : list string :=
  if nonempty cur then toks ++ [string_of_list_ascii cur] else toks.

(** The outer [for] loop of [split_tokens]; [s] is [line] from index [i] on.
    Every iteration consumes at least one character, so [fuel] equal to the
    length of the line is enough. *)
Fixpoint split_loop (fuel : nat) (s cur : list ascii) (toks : list string)
  : list string :=
  match fuel with
  | O => toks
  | S fuel' =>
      match s with
      | [] => toks
      | c :: s' =>
          if isspace c then split_loop fuel' s' cur toks
          else if is_special c then
            let toks1 := push_if_nonempty cur toks in
            if Ascii.eqb c ">" then
              match s' with
              | c2 :: s'' =>
                  if Ascii.eqb c2 ">"
                  then split_loop fuel' s'' [] (toks1 ++ [">>"])
                  else split_loop fuel' s' [] (toks1 ++ [">"])
              | [] => split_loop fuel' s' [] (toks1 ++ [">"])
              end
            else split_loop fuel' s' [] (toks1 ++ [String c EmptyString])
          else if is_quote c then
            let '(cur1, rest) := scan_quoted c s' cur in
            split_loop fuel' rest [] (toks ++ [string_of_list_ascii cur1])
          else
            let '(cur1, rest) := scan_word s cur in
            split_loop fuel' rest [] (push_if_nonempty cur1 toks)
      end
  end.

Definition split_tokens (line : string) : list string :=
  let l := list_ascii_of_string line in
  split_loop (List.length l) l [] [].

Definition str_nonempty (s : string) : bool :=
  negb (String.eqb s EmptyString).

Definition with_infile (f : string) (c : Command) : Command :=
  mkCommand (argv c) f (outfile c) (append c).
Definition with_outfile (f : string) (c : Command) : Command :=
  mkCommand (argv c) (infile c) f (append c).
Definition with_append (c : Command) : Command :=
  mkCommand (argv c) (infile c) (outfile c) true.
Definition with_arg (a : string) (c : Command) : Command :=
  mkCommand (argv c ++ [a]) (infile c) (outfile c) (append c).

(** The loop of [parse_pipeline]; a redirection token followed by a further
    token consumes both ([toks[++i]]). *)
Fixpoint parse_loop (toks : list string) (cur : Command)
    (pipeline : list Command) (background : bool)
  : list Command * Command * bool :=
  match toks with
  | [] => (pipeline, cur, background)
  | tk :: rest =>
      if String.eqb tk "|" then
        parse_loop rest Command0
          (if nonempty (argv cur) then pipeline ++ [cur] else pipeline)
          background
      else if String.eqb tk "<" then
        match rest with
        | f :: rest' => parse_loop rest' (with_infile f cur) pipeline background
        | [] => (pipeline, cur, background)
        end
      else if String.eqb tk ">" || String.eqb tk ">>" then
        let cur1 := if String.eqb tk ">>" then with_append cur else cur in
        match rest with
        | f :: rest' => parse_loop rest' (with_outfile f cur1) pipeline background
        | [] => (pipeline, cur1, background)
        end
      else if String.eqb tk "&" then
        parse_loop rest cur pipeline true
      else
        parse_loop rest (with_arg tk cur) pipeline background
  end.

Definition parse_pipeline (toks : list string) : list Command * bool :=
  let '(pipeline, cur, background) := parse_loop toks Command0 [] false in
  (if nonempty (argv cur) || str_nonempty (infile cur) || str_nonempty (outfile cur)
   then pipeline ++ [cur] else pipeline,
   background).

Definition is_builtin (argv : list string) : bool :=
  match argv with
  | [] => false
  | cmd :: _ =>
      String.eqb cmd "cd" || String.eqb cmd "exit" || String.eqb cmd "jobs"
      || String.eqb cmd "fg" || String.eqb cmd "bg"
  end.

(** ** [std::stoi] (base 10), as [fg] and [bg] use it

    Leading white space is skipped, an optional sign is read, then the
    longest run of decimal digits.  No digit: [std::invalid_argument]; a value
    that does not fit an [int]: [std::out_of_range].  Anything after the
    digits is ignored. *)

Inductive Exn : Type :=
| invalid_argument (what : string)
| out_of_range (what : string).

Definition digit_val (c : ascii) : option Z :=
  let n := nat_of_ascii c in
  if ((48 <=? n) && (n <=? 57))%nat then Some (Z.of_nat n - 48) else None.

Fixpoint stoi_digits (s : list ascii) (acc : option Z) : option Z :=
  match s with
  | [] => acc
  | c :: s' =>
      match digit_val c with
      | Some d => stoi_digits s' (Some (10 * match acc with Some a => a | None => 0 end + d))
      | None => acc
      end
  end.

Fixpoint drop_space (s : list ascii) : list ascii :=
  match s with
  | [] => []
  | c :: s' => if isspace c then drop_space s' else s
  end.

Definition INT_MAX : Z := 2147483647.
Definition INT_MIN : Z := -2147483648.

(** The value an [int] holds after an arithmetic result [z]: past [INT_MAX]
    it wraps around to [INT_MIN] (what the build does where the language
    leaves the overflow undefined). *)
Definition int_of (z : Z) : Z := (z - INT_MIN) mod 4294967296 + INT_MIN.

Definition stoi (str : string) : Exn + Z :=
  let s := drop_space (list_ascii_of_string str) in
  let '(neg, s1) :=
    match s with
    | c :: s' =>
        if Ascii.eqb c "-" then (true, s')
        else if Ascii.eqb c "+" then (false, s')
        else (false, s)
    | [] => (false, s)
    end in
  match stoi_digits s1 None with
  | None => inl (invalid_argument "stoi")
  | Some v =>
      let v' := if neg then - v else v in
      if (INT_MIN <=? v') && (v' <=? INT_MAX) then inr v'
      else inl (out_of_range "stoi")
  end.

(** [operator<<] on an [int]. *)
Definition show (z : Z) : string := NilZero.string_of_int (Z.to_int z).

Definition tab : string := String (chr 9) EmptyString.
Definition nl : string := String (chr 10) EmptyString.

(** ** The machine *)

(** What the operating system answers to one call: the return value, the
    values written through out-parameters (wait status, pipe descriptors),
    the string written to a buffer or returned ([getcwd], [getenv]), and the
    new value of [errno] if the call changes it. *)
Record Answer : Type := mkAnswer {
  a_ret : Z;
  a_out : list Z;
  a_str : string;
  a_errno : option Z
}.

(** The answer once the script is exhausted: the call fails. *)
Definition no_answer : Answer := mkAnswer (-1) [] EmptyString None.

Definition out0 (a : Answer) : Z := nth 0 (a_out a) 0.
Definition out1 (a : Answer) : Z := nth 1 (a_out a) 0.

Inductive Event : Type :=
| EvPipe
| EvFork
| EvGetpid
| EvGetpgid (pid : Z)
| EvSetpgid (pid pgid : Z)
| EvTcgetattr (fd : Z)
| EvTcsetpgrp (fd pgrp : Z)
| EvSigaction (sig : Signal) (d : Disposition)
| EvSignal (sig : Signal) (d : Disposition)
| EvDup2 (oldfd newfd : Z)
| EvOpen (path : string) (flags : Z) (mode : option Z)
| EvClose (fd : Z)
| EvExecvp (file : string) (args : list string)
| EvWaitpid (pid options : Z)
| EvKill (pid : Z) (sig : Signal)
| EvChdir (path : option string)
| EvGetenv (name : string)
| EvGetcwd
| EvOut (s : string)       (* written to cout *)
| EvErr (s : string)       (* written to cerr *)
| EvPerror (s : string).

Record Machine : Type := mkMachine {
  jobs : list Job;
  next_job_id : Z;
  shell_pgid : Z;
  errno : Z;
  uninit : Z;        (* what an uninitialised [int] local happens to hold *)
  script : list Answer;
  trace : list Event
}.

Inductive Outcome (A : Type) : Type :=
| Ret (a : A)                    (* the function returned *)
| Exit (code : Z)                (* the process called exit(code) *)
| Throw (e : Exn)                (* an exception is propagating *)
| Exec (file : string) (args : list string)   (* execvp replaced the image *)
| OutOfFuel.
Arguments Ret {A} a.
Arguments Exit {A} code.
Arguments Throw {A} e.
Arguments Exec {A} file args.
Arguments OutOfFuel {A}.

Definition Proc (A : Type) : Type := Machine -> Outcome A * Machine.

Definition ret {A : Type} (a : A) : Proc A := fun m => (Ret a, m).

Definition bind {A B : Type} (p : Proc A) (k : A -> Proc B) : Proc B :=
  fun m =>
    match p m with
    | (Ret a, m1) => k a m1
    | (Exit c, m1) => (Exit c, m1)
    | (Throw e, m1) => (Throw e, m1)
    | (Exec f a, m1) => (Exec f a, m1)
    | (OutOfFuel, m1) => (OutOfFuel, m1)
    end.

Notation "x <- p ;; k" := (bind p (fun x => k))
  (at level 61, p at next level, right associativity).
Notation "p ;; k" := (bind p (fun _ => k))
  (at level 61, right associativity).

Definition exit {A : Type} (code : Z) : Proc A := fun m => (Exit code, m).
Definition throw {A : Type} (e : Exn) : Proc A := fun m => (Throw e, m).
Definition out_of_fuel {A : Type} : Proc A := fun m => (OutOfFuel, m).

Definition gets {A : Type} (f : Machine -> A) : Proc A := fun m => (Ret (f m), m).

(** The machine after a write to the job vector, to a global, or after a
    call. *)
Definition with_jobs (f : list Job -> list Job) (m : Machine) : Machine :=
  mkMachine (f (jobs m)) (next_job_id m) (shell_pgid m)
            (errno m) (uninit m) (script m) (trace m).

Definition with_next_job_id (v : Z) (m : Machine) : Machine :=
  mkMachine (jobs m) v (shell_pgid m) (errno m) (uninit m) (script m) (trace m).

Definition with_shell_pgid (v : Z) (m : Machine) : Machine :=
  mkMachine (jobs m) (next_job_id m) v (errno m) (uninit m) (script m) (trace m).

Definition with_errno (v : Z) (m : Machine) : Machine :=
  mkMachine (jobs m) (next_job_id m) (shell_pgid m) v (uninit m) (script m) (trace m).

Definition emitted (e : Event) (m : Machine) : Machine :=
  mkMachine (jobs m) (next_job_id m) (shell_pgid m)
            (errno m) (uninit m) (script m) (trace m ++ [e]).

Definition next_answer (m : Machine) : Answer := hd no_answer (script m).

Definition called (e : Event) (m : Machine) : Machine :=
  mkMachine (jobs m) (next_job_id m) (shell_pgid m)
            (match a_errno (next_answer m) with Some v => v | None => errno m end)
            (uninit m) (tl (script m)) (trace m ++ [e]).

Definition modify_jobs (f : list Job -> list Job) : Proc unit :=
  fun m => (Ret tt, with_jobs f m).

Definition set_next_job_id (v : Z) : Proc unit :=
  fun m => (Ret tt, with_next_job_id v m).

Definition set_shell_pgid (v : Z) : Proc unit :=
  fun m => (Ret tt, with_shell_pgid v m).

Definition set_errno (v : Z) : Proc unit :=
  fun m => (Ret tt, with_errno v m).

(** A library call that only produces output. *)
Definition emit (e : Event) : Proc unit :=
  fun m => (Ret tt, emitted e m).

(** A system call: it is recorded, takes the next answer of the script and
    may change [errno]. *)
Definition syscall (e : Event) : Proc Answer :=
  fun m => (Ret (next_answer m), called e m).

Definition when (b : bool) (p : Proc unit) : Proc unit :=
  if b then p else ret tt.

(** ** Job management on the machine *)

(** [j.id = next_job_id++] on the [int] counter. *)
Definition add_job (pgid : Z) (cmdline : string) (bg : bool) : Proc Z :=
  i <- gets next_job_id ;;
  set_next_job_id (int_of (i + 1)) ;;
  modify_jobs (fun js => js ++ [mkJob i pgid cmdline bg 0]) ;;
  ret i.

Definition mark_job_as_done (pgid : Z) : Proc unit := modify_jobs (mark_done pgid).
Definition mark_job_as_stopped (pgid : Z) : Proc unit := modify_jobs (mark_stopped pgid).
Definition remove_completed_jobs : Proc unit := modify_jobs remove_completed.

(** ** Built-in commands *)

Definition state_name (st : Z) : string :=
  if st =? 0 then "Running" else if st =? 1 then "Stopped" else "Done".

Definition jobs_line (j : Job) : string :=
  ("[" ++ show (id j) ++ "] " ++ state_name (status j) ++ tab ++ cmdline j
   ++ " (pgid=" ++ show (pgid j) ++ ")" ++ nl)%string.

Fixpoint print_jobs (js : list Job) : Proc unit :=
  match js with
  | [] => ret tt
  | j :: js' => emit (EvOut (jobs_line j)) ;; print_jobs js'
  end.

(** The job id given to [fg] or [bg]: [-1] without an argument, and otherwise
    [stoi] of the argument after one leading [%] is dropped. *)
Definition job_id_of_args (args : list string) : Exn + Z :=
  match args with
  | [] => inr (-1)
  | s :: _ =>
      stoi match s with
           | String c r => if Ascii.eqb c "%" then r else s
           | EmptyString => s
           end
  end.

Definition job_arg (args : list string) : Proc Z :=
  match job_id_of_args args with
  | inr v => ret v
  | inl e => throw e
  end.

(** [id==-1 ? find_last_job() : find_job_by_id(id)] *)
Definition resolve_job (i : Z) (js : list Job) : option nat :=
  if i =? -1 then find_last_job js else find_job_by_id i js.

Definition job0 : Job := mkJob 0 0 EmptyString false 0.

Definition job_at (k : nat) : Proc Job :=
  gets (fun m => nth k (jobs m) job0).

Definition builtin_cd (args : list string) : Proc Z :=
  path <- match args with
          | a :: _ => ret (Some a)
          | [] => h <- syscall (EvGetenv "HOME") ;;
                  ret (if a_ret h =? 0 then None else Some (a_str h))
          end ;;
  r <- syscall (EvChdir path) ;;
  when (negb (a_ret r =? 0)) (emit (EvPerror "cd")) ;;
  ret 0.

Definition builtin_jobs : Proc Z :=
  js <- gets jobs ;;
  print_jobs js ;;
  remove_completed_jobs ;;
  ret 0.

Definition builtin_fg (args : list string) : Proc Z :=
  i <- job_arg args ;;
  js <- gets jobs ;;
  match resolve_job i js with
  | None => emit (EvErr ("fg: no such job" ++ nl)) ;; ret (-1)
  | Some k =>
      (* bring to foreground *)
      modify_jobs (update_at k (set_is_background false)) ;;
      j <- job_at k ;;
      r <- syscall (EvKill (- pgid j) SIGCONT) ;;
      when (a_ret r <? 0) (emit (EvPerror "kill(SIGCONT)")) ;;
      (* give terminal to job *)
      syscall (EvTcsetpgrp Sys.STDIN_FILENO (pgid j)) ;;
      (* wait for it *)
      u <- gets uninit ;;
      w <- syscall (EvWaitpid (- pgid j) Sys.WUNTRACED) ;;
      let st := if 0 <? a_ret w then out0 w else u in
      (* restore terminal control to shell *)
      sp <- gets shell_pgid ;;
      syscall (EvTcsetpgrp Sys.STDIN_FILENO sp) ;;
      modify_jobs (update_at k (set_status (if Sys.WIFSTOPPED st then 1 else 2))) ;;
      remove_completed_jobs ;;
      ret 0
  end.

Definition builtin_bg (args : list string) : Proc Z :=
  i <- job_arg args ;;
  js <- gets jobs ;;
  match resolve_job i js with
  | None => emit (EvErr ("bg: no such job" ++ nl)) ;; ret (-1)
  | Some k =>
      modify_jobs (update_at k (set_is_background true)) ;;
      j <- job_at k ;;
      r <- syscall (EvKill (- pgid j) SIGCONT) ;;
      when (a_ret r <? 0) (emit (EvPerror "kill(SIGCONT)")) ;;
      modify_jobs (update_at k (set_status 0)) ;;
      emit (EvOut ("[" ++ show (id j) ++ "] " ++ cmdline j ++ " &" ++ nl)) ;;
      ret 0
  end.

Definition run_builtin (av : list string) : Proc Z :=
  match av with
  | [] => ret 0
  | cmd :: args =>
      if String.eqb cmd "cd" then builtin_cd args
      else if String.eqb cmd "exit" then exit 0
      else if String.eqb cmd "jobs" then builtin_jobs
      else if String.eqb cmd "fg" then builtin_fg args
      else if String.eqb cmd "bg" then builtin_bg args
      else ret 0
  end.

(** ** Execution *)

(** [for (i=0;i+1<n;++i) pipe(pipefds.data()+2*i)]: [k] pipes are still to
    be made, [fds] holds the descriptors of those made so far.  [None] when
    a [pipe] failed and [launch_pipeline] returns. *)
Fixpoint make_pipes (k : nat) (fds : list Z) : Proc (option (list Z)) :=
  match k with
  | O => ret (Some fds)
  | S k' =>
      a <- syscall EvPipe ;;
      if a_ret a <? 0 then emit (EvPerror "pipe") ;; ret None
      else make_pipes k' (fds ++ [out0 a; out1 a])
  end.

(** [for (int fd: pipefds) if (fd!=-1) close(fd);] *)
Fixpoint close_all (fds : list Z) : Proc unit :=
  match fds with
  | [] => ret tt
  | fd :: fds' =>
      when (negb (fd =? -1)) (syscall (EvClose fd) ;; ret tt) ;;
      close_all fds'
  end.

Definition open_flags (c : Command) : Z :=
  Z.lor (Z.lor Sys.O_WRONLY Sys.O_CREAT)
        (if append c then Sys.O_APPEND else Sys.O_TRUNC).

(** The child's side of [fork] for stage [i] of [n], in the order of the
    source: process group, terminal and signals, then the pipe ends ... *)
Definition child_setup (background : bool) (pgid in_fd out_fd : Z) : Proc unit :=
  pgid1 <- (if pgid =? 0 then a <- syscall EvGetpid ;; ret (a_ret a) else ret pgid) ;;
  syscall (EvSetpgid 0 pgid1) ;;
  when (negb background) (syscall (EvTcsetpgrp Sys.STDIN_FILENO pgid1) ;; ret tt) ;;
  syscall (EvSignal SIGINT SIG_DFL) ;;
  syscall (EvSignal SIGTSTP SIG_DFL) ;;
  syscall (EvSignal SIGCHLD SIG_DFL) ;;
  when (negb (in_fd =? -1)) (syscall (EvDup2 in_fd Sys.STDIN_FILENO) ;; ret tt) ;;
  when (negb (out_fd =? -1)) (syscall (EvDup2 out_fd Sys.STDOUT_FILENO) ;; ret tt).

(** ... the redirections (only for endpoints) ... *)
Definition redirect_input (c : Command) (i : nat) : Proc unit :=
  if (i =? 0)%nat && str_nonempty (infile c) then
    fd <- syscall (EvOpen (infile c) Sys.O_RDONLY None) ;;
    if a_ret fd <? 0 then emit (EvPerror "open infile") ;; exit 1
    else syscall (EvDup2 (a_ret fd) Sys.STDIN_FILENO) ;; ret tt
  else ret tt.

Definition redirect_output (c : Command) (i n : nat) : Proc unit :=
  if (i =? n - 1)%nat && str_nonempty (outfile c) then
    fd <- syscall (EvOpen (outfile c) (open_flags c) (Some 420 (* 0644 *))) ;;
    if a_ret fd <? 0 then emit (EvPerror "open outfile") ;; exit 1
    else syscall (EvDup2 (a_ret fd) Sys.STDOUT_FILENO) ;; ret tt
  else ret tt.

(** ... and, once the pipe descriptors are closed, the program itself. *)
Definition child_exec {A : Type} (c : Command) : Proc A :=
  match argv c with
  | [] => exit 0
  | file :: _ =>
      if is_builtin (argv c) then
        run_builtin (argv c) ;; exit 0
      else
        r <- syscall (EvExecvp file (argv c)) ;;
        if a_ret r =? -1 then emit (EvPerror "execvp") ;; exit 1
        else fun m => (Exec file (argv c), m)
  end.

(** The child ends in [exit] or in a successful [execvp], and never
    returns. *)
Definition launch_child {A : Type} (c : Command) (i n : nat) (pipefds : list Z)
    (background : bool) (pgid in_fd out_fd : Z) : Proc A :=
  child_setup background pgid in_fd out_fd ;;
  redirect_input c i ;;
  redirect_output c i n ;;
  close_all pipefds ;;
  child_exec c.

(** The [for] loop over the stages; [rest] are the stages from [i] on.
    [None] when [fork] failed and [launch_pipeline] returns. *)
Fixpoint spawn (rest : list Command) (i n : nat) (pipefds : list Z)
    (background : bool) (pgid : Z) (pids : list Z) : Proc (option Z) :=
  match rest with
  | [] => ret (Some pgid)
  | c :: rest' =>
      let in_fd := if (0 <? i)%nat then nth ((i - 1) * 2) pipefds 0 else -1 in
      let out_fd := if (i + 1 <? n)%nat then nth (i * 2 + 1) pipefds 0 else -1 in
      f <- syscall EvFork ;;
      let pid := a_ret f in
      if pid <? 0 then emit (EvPerror "fork") ;; ret None
      else if pid =? 0 then
        launch_child c i n pipefds background pgid in_fd out_fd
      else
        let pgid1 := if pgid =? 0 then pid else pgid in
        syscall (EvSetpgid pid pgid1) ;;
        spawn rest' (S i) n pipefds background pgid1 (pids ++ [pid])
  end.

(** [do { w = waitpid(-pgid, &status, WUNTRACED); } while (...)]. A failed
    [waitpid] leaves [status] as it was. *)
Fixpoint wait_loop (fuel : nat) (pgid st : Z) : Proc Z :=
  match fuel with
  | O => out_of_fuel
  | S fuel' =>
      a <- syscall (EvWaitpid (- pgid) Sys.WUNTRACED) ;;
      let w := a_ret a in
      let st1 := if 0 <? w then out0 a else st in
      if (0 <? w) && negb (Sys.WIFSTOPPED st1) && negb (Sys.WIFEXITED st1)
         && negb (Sys.WIFSIGNALED st1)
      then wait_loop fuel' pgid st1
      else ret st1
  end.

(** Fuel for a loop that takes at least one answer per iteration and stops
    on a failing call. *)
Definition loop_fuel : Proc nat :=
  gets (fun m => S (List.length (script m))).

Definition launch_pipeline (pipeline : list Command) (background : bool)
    (cmdline : string) : Proc unit :=
  let n := List.length pipeline in
  fds <- make_pipes (n - 1)%nat [] ;;
  match fds with
  | None => ret tt
  | Some pipefds =>
      r <- spawn pipeline 0 n pipefds background 0 [] ;;
      match r with
      | None => ret tt
      | Some pgid =>
          close_all pipefds ;;
          jid <- add_job pgid cmdline background ;;
          if negb background then
            syscall (EvTcsetpgrp Sys.STDIN_FILENO pgid) ;;
            u <- gets uninit ;;
            fuel <- loop_fuel ;;
            st <- wait_loop fuel pgid u ;;
            sp <- gets shell_pgid ;;
            syscall (EvTcsetpgrp Sys.STDIN_FILENO sp) ;;
            if Sys.WIFSTOPPED st then
              mark_job_as_stopped pgid ;;
              emit (EvErr (nl ++ "[" ++ show jid ++ "] Stopped" ++ tab ++ cmdline ++ nl))
            else
              mark_job_as_done pgid ;;
              remove_completed_jobs
          else
            emit (EvOut ("[" ++ show jid ++ "] " ++ show pgid ++ nl))
      end
  end.

(** ** Signal handlers *)

(** What the handler does to the job table for one reaped child whose
    process group is [pgid]. *)
Definition reconcile (pgid st : Z) (js : list Job) : list Job :=
  if Sys.WIFEXITED st || Sys.WIFSIGNALED st then mark_done pgid js
  else if Sys.WIFSTOPPED st then mark_stopped pgid js
  else if Sys.WIFCONTINUED st then
    match find_job_by_pgid pgid js with
    | Some k => update_at k (set_status 0) js
    | None => js
    end
  else js.

Definition reap_options : Z :=
  Z.lor (Z.lor Sys.WNOHANG Sys.WUNTRACED) Sys.WCONTINUED.

Fixpoint reap_loop (fuel : nat) : Proc unit :=
  match fuel with
  | O => out_of_fuel
  | S fuel' =>
      a <- syscall (EvWaitpid (-1) reap_options) ;;
      let pid := a_ret a in
      if pid <=? 0 then ret tt
      else
        g <- syscall (EvGetpgid pid) ;;
        let pgid := a_ret g in
        when (0 <? pgid) (modify_jobs (reconcile pgid (out0 a))) ;;
        reap_loop fuel'
  end.

Definition sigchld_handler (sig : Signal) : Proc unit :=
  saved_errno <- gets errno ;;
  fuel <- loop_fuel ;;
  reap_loop fuel ;;
  set_errno saved_errno.

(** ** The prompt loop *)

(** The body of the [while] loop of [main] once [getline] has read [line]. *)
Definition shell_step (line0 : string) : Proc unit :=
  let line := trim line0 in
  if String.eqb line EmptyString then ret tt
  else
    let toks := split_tokens line in
    let '(pipeline, bg) := parse_pipeline toks in
    match pipeline with
    | [] => ret tt
    | c :: others =>
        if (List.length pipeline =? 1)%nat && is_builtin (argv c)
           && negb (str_nonempty (infile c)) && negb (str_nonempty (outfile c))
        then run_builtin (argv c) ;; remove_completed_jobs
        else launch_pipeline pipeline bg line ;; remove_completed_jobs
    end.

Definition prompt : Proc unit :=
  cwd <- syscall EvGetcwd ;;
  emit (EvOut ("simple-shell:" ++ a_str cwd ++ "$ ")).

(** The [while] loop over the lines [getline] delivers; it ends at end of
    input. *)
Fixpoint shell_loop (input : list string) : Proc Z :=
  prompt ;;
  match input with
  | [] => emit (EvOut (nl ++ "Exiting shell." ++ nl)) ;; ret 0
  | line :: rest => shell_step line ;; shell_loop rest
  end.

Definition main (input : list string) : Proc Z :=
  p <- syscall EvGetpid ;;
  set_shell_pgid (a_ret p) ;;
  r <- syscall (EvSetpgid (a_ret p) (a_ret p)) ;;
  when (a_ret r <? 0) (emit (EvPerror "setpgid")) ;;
  syscall (EvTcgetattr Sys.STDIN_FILENO) ;;
  syscall (EvTcsetpgrp Sys.STDIN_FILENO (a_ret p)) ;;
  syscall (EvSigaction SIGCHLD (Handler "sigchld_handler")) ;;
  syscall (EvSignal SIGINT (Handler "sigint_handler")) ;;
  syscall (EvSignal SIGTSTP (Handler "sigtstp_handler")) ;;
  shell_loop input.

(** * Vocabulary of the statements *)

(** ** Runs of a procedure *)


(** A procedure that always returns to its caller. *)
Definition returns {A : Type} (p : Proc A) : Prop :=
  forall m, exists a m', p m = (Ret a, m').

(** A procedure whose runs are never cut short by the fuel of the model. *)
Definition finishes {A : Type} (p : Proc A) : Prop :=
  forall m, fst (p m) <> OutOfFuel.

(** [always R p]: whatever the answers and however the run ends, the machine
    it leaves is related by [R] to the one it started from. *)
Definition always {A : Type} (R : Machine -> Machine -> Prop) (p : Proc A) : Prop :=
  forall m, R m (snd (p m)).

(** The calls added to the trace between [m] and [m'] all satisfy [P]. *)
Definition adds_only (P : Event -> Prop) (m m' : Machine) : Prop :=
  exists evs, trace m' = trace m ++ evs /\ Forall P evs.

Definition emits_only (P : Event -> Prop) {A : Type} (p : Proc A) : Prop :=
  always (adds_only P) p.

(** What a run leaves untouched and what it adds: the job vector is changed
    by [jf], the other globals than [errno] are as before, [evs] are the
    calls made, and no answer was put back on the script. *)
Record Frame (jf : list Job -> list Job) (evs : list Event) (m m' : Machine) : Prop :=
  mkFrame {
    fr_jobs : jobs m' = jf (jobs m);
    fr_next_job_id : next_job_id m' = next_job_id m;
    fr_shell_pgid : shell_pgid m' = shell_pgid m;
    fr_uninit : uninit m' = uninit m;
    fr_trace : trace m' = trace m ++ evs;
    fr_script : (List.length (script m') <= List.length (script m))%nat
  }.

Definition same {A : Type} (x : A) : A := x.

(** ** Kinds of calls *)

Definition is_open (e : Event) : bool :=
  match e with EvOpen _ _ _ => true | _ => false end.

Definition is_execvp (e : Event) : bool :=
  match e with EvExecvp _ _ => true | _ => false end.

Definition is_wait (e : Event) : bool :=
  match e with EvWaitpid _ _ => true | _ => false end.

Definition is_tcsetpgrp (e : Event) : bool :=
  match e with EvTcsetpgrp _ _ => true | _ => false end.

Definition is_pipe_event (e : Event) : Prop :=
  e = EvPipe \/ e = EvPerror "pipe".

Definition is_close_event (e : Event) : Prop := exists fd, e = EvClose fd.


(** A [setpgid] among the calls puts the process into group [pg]. *)
Definition joins (pg : Z) (e : Event) : Prop :=
  forall pid g, e = EvSetpgid pid g -> g = pg.


(** A call made before the terminal is handed over: neither a wait nor a
    change of the terminal's foreground group. *)
Definition before_handoff (e : Event) : Prop :=
  is_wait e = false /\ is_tcsetpgrp e = false.

(** The calls a builtin can make. *)
Definition builtin_event (e : Event) : Prop :=
  is_open e = false /\ is_execvp e = false /\ e <> EvFork /\ e <> EvPipe.

(** The calls of the child other than [open] and [execvp]. *)
Definition plain_event (e : Event) : Prop :=
  is_open e = false /\ is_execvp e = false.

(** ** The job table *)

Definition pgids (js : list Job) : list Z := map pgid js.

(** At most one job per process group that is not yet Done. *)
Definition one_job_per_live_pgid (js : list Job) : Prop :=
  NoDup (pgids (remove_completed js)).

(** A run keeps the process-group ids of the table pairwise distinct. *)
Definition distinct_pgids (m m' : Machine) : Prop :=
  NoDup (pgids (jobs m)) -> NoDup (pgids (jobs m')).

Definition keeps_distinct {A : Type} (p : Proc A) : Prop := always distinct_pgids p.






(** The job argument of [fg]/[bg] does not resolve: the id is not [-1] and
    no job has it, or the table is empty and the id is absent or [-1]. *)
Definition unresolved (args : list string) (js : list Job) : Prop :=
  exists i, job_id_of_args args = inr i
            /\ ((i = -1 /\ js = [])
                \/ (i <> -1 /\ forall j, In j js -> id j <> i)).

(** ** What [launch_pipeline], [fg] and [bg] leave behind *)

(** What the foreground branch of [launch_pipeline] does to the table with
    the final wait status [st] ... *)
Definition settle (pg st : Z) (js : list Job) : list Job :=
  if Sys.WIFSTOPPED st then mark_stopped pg js
  else remove_completed (mark_done pg js).

(** ... and what it reports. *)
Definition stopped_report (jid st : Z) (cmdline : string) : list Event :=
  if Sys.WIFSTOPPED st
  then [EvErr (nl ++ "[" ++ show jid ++ "] Stopped" ++ tab ++ cmdline ++ nl)]
  else [].

(** [fg] on the job at position [k]: the machine on which it calls
    [waitpid] ... *)
Definition fg_machine_waited (k : nat) (m : Machine) : Machine :=
  let pg := pgid (nth k (jobs m) job0) in
  let m0 := with_jobs (update_at k (set_is_background false)) m in
  let m1 := called (EvKill (- pg) SIGCONT) m0 in
  let m2 := if a_ret (next_answer m) <? 0
            then emitted (EvPerror "kill(SIGCONT)") m1 else m1 in
  called (EvTcsetpgrp Sys.STDIN_FILENO pg) m2.

(** ... the wait status it then holds ... *)
Definition fg_status (k : nat) (m : Machine) : Z :=
  let w := next_answer (fg_machine_waited k m) in
  if 0 <? a_ret w then out0 w else uninit m.

(** ... and the machine it leaves. *)
Definition fg_machine (k : nat) (m : Machine) : Machine :=
  let pg := pgid (nth k (jobs m) job0) in
  let m4 := called (EvWaitpid (- pg) Sys.WUNTRACED) (fg_machine_waited k m) in
  let m5 := called (EvTcsetpgrp Sys.STDIN_FILENO (shell_pgid m)) m4 in
  with_jobs remove_completed
    (with_jobs
       (update_at k (set_status (if Sys.WIFSTOPPED (fg_status k m) then 1 else 2)))
       m5).

(** The machine [bg] leaves when its job resolves to position [k]. *)
Definition bg_machine (k : nat) (m : Machine) : Machine :=
  let j := nth k (jobs m) job0 in
  let m0 := with_jobs (update_at k (set_is_background true)) m in
  let m1 := called (EvKill (- pgid j) SIGCONT) m0 in
  let m2 := if a_ret (next_answer m) <? 0
            then emitted (EvPerror "kill(SIGCONT)") m1 else m1 in
  emitted (EvOut ("[" ++ show (id j) ++ "] " ++ cmdline j ++ " &" ++ nl))
    (with_jobs (update_at k (set_status 0)) m2).

(** ** The child of a stage *)

(** Stage [i] redirects its input: it is the first stage and has an input
    file. *)
Definition has_input (c : Command) (i : nat) : bool :=
  (i =? 0)%nat && str_nonempty (infile c).

(** Stage [i] of [n] redirects its output: it is the last stage and has an
    output file. *)
Definition has_output (c : Command) (i n : nat) : bool :=
  (i =? n - 1)%nat && str_nonempty (outfile c).

Definition open_input (c : Command) : Event := EvOpen (infile c) Sys.O_RDONLY None.

Definition open_output (c : Command) : Event :=
  EvOpen (outfile c) (open_flags c) (Some 420).

(** The [open] of the redirection is made on [m] and fails. *)
Definition input_fails (c : Command) (i : nat) (m : Machine) : bool :=
  has_input c i && (a_ret (next_answer m) <? 0).

Definition output_fails (c : Command) (i n : nat) (m : Machine) : bool :=
  has_output c i n && (a_ret (next_answer m) <? 0).

(** The machine after the redirection, when it did not fail. *)
Definition input_redirected (c : Command) (i : nat) (m : Machine) : Machine :=
  if has_input c i
  then called (EvDup2 (a_ret (next_answer m)) Sys.STDIN_FILENO) (called (open_input c) m)
  else m.

Definition output_redirected (c : Command) (i n : nat) (m : Machine) : Machine :=
  if has_output c i n
  then called (EvDup2 (a_ret (next_answer m)) Sys.STDOUT_FILENO) (called (open_output c) m)
  else m.

(** The calls of the redirection, made on [m]. *)
Definition input_events (c : Command) (i : nat) (m : Machine) : list Event :=
  if has_input c i then
    [open_input c;
     if a_ret (next_answer m) <? 0 then EvPerror "open infile"
     else EvDup2 (a_ret (next_answer m)) Sys.STDIN_FILENO]
  else [].

Definition output_events (c : Command) (i n : nat) (m : Machine) : list Event :=
  if has_output c i n then
    [open_output c;
     if a_ret (next_answer m) <? 0 then EvPerror "open outfile"
     else EvDup2 (a_ret (next_answer m)) Sys.STDOUT_FILENO]
  else [].

(** What the child does before it runs the program of its stage. *)
Definition child_prepare (c : Command) (i n : nat) (fds : list Z) (bg : bool)
    (pg in_fd out_fd : Z) : Proc unit :=
  child_setup bg pg in_fd out_fd ;;
  redirect_input c i ;;
  redirect_output c i n ;;
  close_all fds.

(** How the child goes on when the builtin it ran ends in [o]. *)
Definition after_builtin {A : Type} (o : Outcome Z) : Outcome A :=
  match o with
  | Ret _ => Exit 0
  | Exit code => Exit code
  | Throw x => Throw x
  | Exec f a => Exec f a
  | OutOfFuel => OutOfFuel
  end.

(** A stage that only redirects. *)
Definition redirect_only (c : Command) : Prop :=
  argv c = [] /\ (infile c <> EmptyString \/ outfile c <> EmptyString).

(** ** The SIGCHLD handler *)

Definition reap_call : Event := EvWaitpid (-1) reap_options.

(** The calls of the handler when it reaps the children [pids] in turn. *)
Definition reap_events (pids : list Z) : list Event :=
  flat_map (fun pid => [reap_call; EvGetpgid pid]) pids ++ [reap_call].

(** ** The shell's own process *)

(** The calls were made by the child of a [fork]: only the child sets the
    disposition of a signal back to the default. *)
Definition in_child (evs : list Event) : Prop :=
  In (EvSignal SIGINT SIG_DFL) evs.

(** An end of a run in the shell itself: a return, [exit(0)], or an
    exception of [std::stoi]. *)
Definition shell_end {A : Type} (o : Outcome A) : Prop :=
  match o with
  | Ret _ => True
  | Exit code => code = 0
  | Throw x => exists args, job_id_of_args args = inl x
  | Exec _ _ => False
  | OutOfFuel => False
  end.

(** Every run of [p] is made by a child or ends as the shell may. *)
Definition shell_or_child {A : Type} (p : Proc A) : Prop :=
  forall m, exists evs,
    trace (snd (p m)) = trace m ++ evs
    /\ (in_child evs \/ shell_end (fst (p m))).

(** ** Lines, tokens and stages *)

Definition chars (s : string) : list ascii := list_ascii_of_string s.

(** A character of a line without a command: white space, [&] or [|]. *)
Definition idle_char (c : ascii) : Prop :=
  isspace c = true \/ c = "&"%char \/ c = "|"%char.

Definition without_command (s : string) : Prop := Forall idle_char (chars s).

(** The tokens of such a line. *)
Definition idle_token (t : string) : Prop := t = "&" \/ t = "|".

(** The first and the last character of [l], if any, satisfy [P]. *)
Definition ends_with (P : ascii -> Prop) (l : list ascii) : Prop :=
  (forall c, hd_error l = Some c -> P c)
  /\ (forall c, hd_error (rev l) = Some c -> P c).

(** A character of a normal token. *)
Definition word_char (c : ascii) : bool := negb (isspace c) && negb (is_special c).

Definition is_operator (t : string) : Prop :=
  t = "|" \/ t = "<" \/ t = ">" \/ t = ">>" \/ t = "&".

Definition is_word (t : string) : Prop :=
  t <> EmptyString /\ Forall (fun c => word_char c = true) (chars t).

(** The two kinds of token of a line without quotes. *)
Definition token_ok (t : string) : Prop := is_operator t \/ is_word t.

Definition quote_free (s : string) : Prop :=
  Forall (fun c => is_quote c = false) (chars s).

(** A token that [parse_pipeline] takes as an argument. *)
Definition plain_token (t : string) : bool :=
  negb (String.eqb t "|") && negb (String.eqb t "<") && negb (String.eqb t ">")
  && negb (String.eqb t ">>") && negb (String.eqb t "&").

Definition plain_words (ws : list string) : Prop := forallb plain_token ws = true.

(** A stage with arguments and no redirection. *)
Definition simple_stage (ws : list string) : Command :=
  mkCommand ws EmptyString EmptyString false.

(** The token lists of the stages, with a pipe token between two of them. *)
Fixpoint join_pipes (segs : list (list string)) : list string :=
  match segs with
  | [] => []
  | [ws] => ws
  | ws :: segs' => ws ++ "|" :: join_pipes segs'
  end.

(** ** Job ids *)

Definition ids (js : list Job) : list Z := map id js.

(** Every element is below those after it. *)
Fixpoint increasing (l : list Z) : Prop :=
  match l with
  | [] => True
  | x :: l' => Forall (fun y => x < y) l' /\ increasing l'
  end.

(** The ids of the table increase along it and are below the next id that
    [add_job] gives out. *)
Definition ids_ok (m : Machine) : Prop :=
  increasing (ids (jobs m))
  /\ Forall (fun i => i < next_job_id m) (ids (jobs m)).

(** The counter is the value of an [int] and [k] more ids can be given out
    before it overflows. *)
Definition counter_in_range (k : nat) (m : Machine) : Prop :=
  INT_MIN <= next_job_id m /\ next_job_id m + Z.of_nat k <= INT_MAX.

(** What a run that registers at most [k] jobs keeps of the globals: the
    shell's process group stays; and, as long as the counter does not
    overflow, it does not go back, it advances by at most [k], and the ids
    stay in order. *)
Definition globals_kept (k : nat) (m m' : Machine) : Prop :=
  shell_pgid m' = shell_pgid m
  /\ (counter_in_range k m ->
      next_job_id m <= next_job_id m' <= next_job_id m + Z.of_nat k
      /\ (ids_ok m -> ids_ok m')).

Definition keeps_globals (k : nat) {A : Type} (p : Proc A) : Prop :=
  always (globals_kept k) p.

(** The job [add_job] appends. *)
Definition new_job (m : Machine) (pgid : Z) (cmdline : string) (bg : bool) : Job :=
  mkJob (next_job_id m) pgid cmdline bg 0.

(** Jobs that are neither Done nor of the process group [p]. *)
Definition live_outside (p : Z) (j : Job) : bool :=
  negb (pgid j =? p) && negb (status j =? 2).

(** ** The calls of a launch, seen from the shell *)

(** The group the children join: the one given, or the first pid when none
    is given yet. *)
Definition group_of (pg : Z) (pids : list Z) : Z :=
  if pg =? 0 then hd 0 pids else pg.

(** A [fork] and a [setpgid] per child. *)
Definition spawn_calls (pg : Z) (pids : list Z) : list Event :=
  flat_map (fun pid => [EvFork; EvSetpgid pid pg]) pids.

(** A [close] for every descriptor that is not [-1]. *)
Definition close_calls (fds : list Z) : list Event :=
  map EvClose (filter (fun fd => negb (fd =? -1)) fds).

(** A call that creates a pipe or a child, or puts a child into a group. *)
Definition creates (e : Event) : Prop :=
  e = EvPipe \/ e = EvFork \/ exists pid pg, e = EvSetpgid pid pg.

(** What follows the set-up of a launch that registered job [jid] for the
    group [pg]: the announcement in the background, and in the foreground
    the hand-over of the terminal first. *)
Definition after_setup (bg : bool) (jid pg : Z) (rest : list Event) : Prop :=
  if bg then rest = [EvOut ("[" ++ show jid ++ "] " ++ show pg ++ nl)]
  else hd_error rest = Some (EvTcsetpgrp Sys.STDIN_FILENO pg).

(** ** The answers of the system to a launch *)

(** The number of [pipe] calls, among [k], that succeed before one fails. *)
Fixpoint pipes_made (k : nat) (sc : list Answer) : nat :=
  match k with
  | O => O
  | S k' =>
      if a_ret (hd no_answer sc) <? 0 then O else S (pipes_made k' (tl sc))
  end.

(** The descriptors that [k] calls of [pipe] return. *)
Fixpoint pipe_fds (k : nat) (sc : list Answer) : list Z :=
  match k with
  | O => []
  | S k' =>
      out0 (hd no_answer sc) :: out1 (hd no_answer sc) :: pipe_fds k' (tl sc)
  end.

(** The pids that [fork] returns to the shell for the first of [n] stages,
    up to the first answer that is not the pid of a child; the answer to a
    [setpgid] follows each of them. *)
Fixpoint forked (n : nat) (sc : list Answer) : list Z :=
  match n with
  | O => []
  | S n' =>
      if 0 <? a_ret (hd no_answer sc)
      then a_ret (hd no_answer sc) :: forked n' (tl (tl sc))
      else []
  end.

(** The foreground wait, from the answers to its [waitpid] calls: the
    number of calls after the first, and the wait status the loop ends
    with; [st] is the value of [status] so far. *)
Fixpoint waited (sc : list Answer) (st : Z) : nat * Z :=
  match sc with
  | [] => (O, st)
  | a :: sc' =>
      let st1 := if 0 <? a_ret a then out0 a else st in
      if (0 <? a_ret a) && negb (Sys.WIFSTOPPED st1) && negb (Sys.WIFEXITED st1)
         && negb (Sys.WIFSIGNALED st1)
      then (S (fst (waited sc' st1)), snd (waited sc' st1))
      else (O, st1)
  end.

(** The set-up of a launch in which every [pipe] and every [fork]
    succeeds: the pipes, a [fork] and a [setpgid] per stage, and the
    [close] calls. *)
Definition setup_calls (n : nat) (sc : list Answer) : list Event :=
  let pids := forked n (skipn (n - 1) sc) in
  repeat EvPipe (n - 1) ++ spawn_calls (hd 0 pids) pids
  ++ close_calls (pipe_fds (n - 1) sc).

(** The answers left for the foreground wait: each call of the set-up and
    the hand-over of the terminal took one. *)
Definition wait_answers (n : nat) (sc : list Answer) : list Answer :=
  skipn (S (List.length (setup_calls n sc))) sc.

(** ** The controlling terminal

    POSIX, [tcsetpgrp]: a call made by a process of a background process
    group that neither blocks nor ignores SIGTTOU sends SIGTTOU to that
    group, and the foreground group is not changed; the default action of
    SIGTTOU stops the process.  The source blocks no signal and sets no
    action for SIGTTOU. *)

Inductive Tty : Type :=
| Foreground (pg : Z)        (* the foreground process group *)
| ShellStopped (pg : Z).     (* SIGTTOU stopped the shell; the foreground
                                group still is [pg] *)

(** What a call of the shell, whose own group is [own], does to the
    terminal. *)
Definition tty_call (own : Z) (t : Tty) (e : Event) : Tty :=
  match t with
  | Foreground fg =>
      match e with
      | EvTcsetpgrp _ pg => if fg =? own then Foreground pg else ShellStopped fg
      | _ => t
      end
  | ShellStopped _ => t
  end.

Definition tty_after (own : Z) (evs : list Event) (t : Tty) : Tty :=
  fold_left (tty_call own) evs t.

(** ** Tables without a Done job *)







(** ** The first calls of a child *)




(** How the child ends once it has called [execvp] on the machine [m]. *)
Definition exec_or_fail (c : Command) (file : string) (m : Machine)
  : Outcome unit * Machine :=
  if a_ret (next_answer m) =? -1
  then (Exit 1, emitted (EvPerror "execvp") (called (EvExecvp file (argv c)) m))
  else (Exec file (argv c), called (EvExecvp file (argv c)) m).

(** ** What the SIGCHLD handler may change *)

(** No answer of the script names the process group of [j]. *)
Definition unreported (sc : list Answer) (j : Job) : Prop :=
  forall a, In a sc -> a_ret a <> pgid j.

(** [j'] is [j] up to its state, and is [j] when the group of [j] is not
    reported. *)
Definition state_only (sc : list Answer) (j j' : Job) : Prop :=
  id j' = id j /\ pgid j' = pgid j /\ cmdline j' = cmdline j
  /\ is_background j' = is_background j
  /\ (unreported sc j -> status j' = status j).

(** ** Sample machines, tables and stages *)

(** A shell whose own process group is 100 and whose next job id is 3. *)
Definition machine_of (js : list Job) (sc : list Answer) : Machine :=
  mkMachine js 3 100 0 0 sc [].

(** A call that returns [r] and leaves [errno] alone. *)
Definition ok (r : Z) : Answer := mkAnswer r [] EmptyString None.

(** Wait statuses: stopped by SIGTSTP (20), and exited with code 0. *)
Definition st_stopped : Z := 5247.

Definition st_exited : Z := 0.

Definition one_job : list Job := [mkJob 1 500 "sleep 100 &" true 0].

Definition two_jobs : list Job :=
  [mkJob 1 500 "sleep 100 &" true 2; mkJob 2 600 "cat" false 1].

Definition live_jobs : list Job :=
  [mkJob 1 500 "sleep 100 &" true 0; mkJob 2 600 "cat" false 1].

Definition cat_stage : Command := mkCommand ["cat"] "missing.txt" "out.txt" true.

Definition fg_stage : Command := mkCommand ["fg"] EmptyString EmptyString false.

Definition only_out : Command := mkCommand [] EmptyString "f" false.

Definition only_in : Command := mkCommand [] "f" EmptyString false.

(** A pipeline of two simple stages, and the answers of the system to a
    launch of it in which both [fork] calls succeed, and to one in which the
    second fails. *)
Definition ls_wc : list Command := [simple_stage ["ls"]; simple_stage ["wc"]].

Definition launch_answers : list Answer :=
  [mkAnswer 0 [3; 4] EmptyString None; ok 200; ok 0; ok 201; ok 0; ok 0; ok 0].

Definition fork_fails : list Answer :=
  [mkAnswer 0 [3; 4] EmptyString None; ok 200; ok 0; ok (-1)].

(** * Properties *)

(** ** The model on some inputs *)

Example split_tokens_line :
  split_tokens "ls -l|grep 'a b'>>out &"
  = ["ls"; "-l"; "|"; "grep"; "a b"; ">>"; "out"; "&"].
Proof. reflexivity. Qed.

Example parse_pipeline_line :
  parse_pipeline (split_tokens "sort < in | uniq >> out &")
  = ([mkCommand ["sort"] "in" EmptyString false;
      mkCommand ["uniq"] EmptyString "out" true], true).
Proof. reflexivity. Qed.

Example stoi_values :
  stoi "42" = inr 42 /\ stoi " -7x" = inr (-7) /\ stoi "+3" = inr 3
  /\ stoi "abc" = inl (invalid_argument "stoi")
  /\ stoi EmptyString = inl (invalid_argument "stoi")
  /\ stoi "2147483648" = inl (out_of_range "stoi").
Proof. repeat split. Qed.

Example wait_status_decoding :
  Sys.WIFEXITED 0 = true /\ Sys.WIFEXITED 256 = true
  /\ Sys.WIFSIGNALED 2 = true /\ Sys.WIFSIGNALED st_stopped = false
  /\ Sys.WIFSTOPPED st_stopped = true /\ Sys.WIFEXITED st_stopped = false
  /\ Sys.WIFCONTINUED 65535 = true /\ Sys.WIFSTOPPED 65535 = false.
Proof. repeat split. Qed.

(** [echo hello | wc -c] in the foreground, seen from the shell: two
    children in the group of the first, the terminal handed over and taken
    back, and the job pruned once it is Done. *)
Example foreground_pipeline :
  let m := machine_of []
             [mkAnswer 0 [3; 4] EmptyString None; ok 200; ok 0; ok 201; ok 0;
              ok 0; ok 0; ok 0; mkAnswer 201 [st_exited] EmptyString None; ok 0] in
  let r := shell_step "echo hello | wc -c" m in
  fst r = Ret tt
  /\ jobs (snd r) = []
  /\ next_job_id (snd r) = 4
  /\ trace (snd r)
     = [EvPipe; EvFork; EvSetpgid 200 200; EvFork; EvSetpgid 201 200;
        EvClose 3; EvClose 4; EvTcsetpgrp 0 200; EvWaitpid (-200) 2;
        EvTcsetpgrp 0 100].
Proof. repeat split. Qed.

(** ** The tokenizer does not depend on its fuel *)

Lemma scan_quoted_rest q s : forall cur,
  (List.length (snd (scan_quoted q s cur)) <= List.length s)%nat.
Proof.
  induction s as [|c s IH]; intros cur; simpl; [lia|].
  destruct (Ascii.eqb c q); simpl; [lia|].
  specialize (IH (cur ++ [c])). lia.
Qed.

Lemma scan_word_rest s : forall cur,
  (List.length (snd (scan_word s cur)) <= List.length s)%nat.
Proof.
  induction s as [|c s IH]; intros cur; simpl; [lia|].
  destruct (negb (isspace c) && negb (is_special c)); simpl; [|lia].
  specialize (IH (cur ++ [c])). lia.
Qed.

(** Every iteration of the outer loop consumes at least one character, so
    any fuel from the length of the rest of the line on gives the same
    tokens. *)
Lemma split_loop_fuel fuel1 : forall fuel2 s cur toks,
  (List.length s <= fuel1)%nat -> (List.length s <= fuel2)%nat ->
  split_loop fuel1 s cur toks = split_loop fuel2 s cur toks.
Proof.
  induction fuel1 as [|fuel1 IH]; intros fuel2 s cur toks H1 H2.
  - destruct s; [|simpl in H1; lia]. destruct fuel2; reflexivity.
  - destruct s as [|c s]; [destruct fuel2; reflexivity|].
    destruct fuel2 as [|fuel2]; [simpl in H2; lia|].
    simpl in H1, H2. simpl.
    destruct (isspace c) eqn:Sp; [apply IH; lia|].
    destruct (is_special c) eqn:Sc.
    { destruct (Ascii.eqb c ">").
      - destruct s as [|c2 s2]; [apply IH; simpl; lia|].
        destruct (Ascii.eqb c2 ">"); apply IH; simpl in *; lia.
      - apply IH; lia. }
    destruct (is_quote c).
    { pose proof (scan_quoted_rest c s cur) as L.
      destruct (scan_quoted c s cur) as [cur1 rest]. simpl in L.
      apply IH; lia. }
    simpl.
    pose proof (scan_word_rest s (cur ++ [c])) as L.
    destruct (scan_word s (cur ++ [c])) as [cur1 rest]. simpl in L.
    apply IH; lia.
Qed.

Lemma split_tokens_fuel line fuel :
  (String.length line <= fuel)%nat ->
  split_loop fuel (list_ascii_of_string line) [] [] = split_tokens line.
Proof.
  intros H. unfold split_tokens. apply split_loop_fuel; [|lia].
  clear - H. revert fuel H.
  induction line as [|c line IH]; simpl; intros fuel H; [lia|].
  destruct fuel; [lia|]. specialize (IH fuel). lia.
Qed.

(** ** The job table as a list *)

Section JobTable.

Implicit Types (js : list Job) (p : Z) (j : Job).

Lemma pgids_mark_done p js : pgids (mark_done p js) = pgids js.
Proof.
  unfold pgids, mark_done. rewrite map_map. apply map_ext.
  intros j. destruct (pgid j =? p); reflexivity.
Qed.

Lemma pgids_mark_stopped p js : pgids (mark_stopped p js) = pgids js.
Proof.
  unfold pgids, mark_stopped. rewrite map_map. apply map_ext.
  intros j. destruct (pgid j =? p); reflexivity.
Qed.

Lemma pgids_update_at k f js :
  (forall j, pgid (f j) = pgid j) -> pgids (update_at k f js) = pgids js.
Proof.
  intros Hf. unfold pgids. revert k.
  induction js as [|j js IH]; intros k; simpl.
  - reflexivity.
  - destruct k; simpl.
    + now rewrite Hf.
    + now rewrite IH.
Qed.

Lemma NoDup_pgids_filter (f : Job -> bool) js :
  NoDup (pgids js) -> NoDup (pgids (filter f js)).
Proof.
  unfold pgids. induction js as [|j js IH]; simpl; intros H.
  - constructor.
  - inversion H as [|? ? Hin Hnd]; subst.
    destruct (f j); simpl; auto.
    constructor; auto.
    intros Hc. apply Hin.
    apply in_map_iff in Hc. destruct Hc as [x [Hx Hi]].
    apply filter_In in Hi. apply in_map_iff. exists x. tauto.
Qed.

Lemma NoDup_pgids_live js : NoDup (pgids js) -> one_job_per_live_pgid js.
Proof. apply NoDup_pgids_filter. Qed.

Lemma pgids_reconcile p st js : pgids (reconcile p st js) = pgids js.
Proof.
  unfold reconcile.
  destruct (Sys.WIFEXITED st || Sys.WIFSIGNALED st).
  - apply pgids_mark_done.
  - destruct (Sys.WIFSTOPPED st).
    + apply pgids_mark_stopped.
    + destruct (Sys.WIFCONTINUED st); [|reflexivity].
      destruct (find_job_by_pgid p js); [|reflexivity].
      now apply pgids_update_at.
Qed.

Lemma find_index_none (f : Job -> bool) js :
  find_index f js = None <-> (forall j, In j js -> f j = false).
Proof.
  induction js as [|j js IH]; simpl.
  - split; [intros _ ? []|reflexivity].
  - destruct (f j) eqn:E.
    + split; [discriminate|]. intros H. specialize (H j (or_introl eq_refl)). congruence.
    + destruct (find_index f js).
      * split; [discriminate|]. intros H.
        assert (Some n = None) by (apply IH; intros; apply H; now right).
        discriminate.
      * split; [|reflexivity]. intros _ x [<-|Hx]; [assumption|].
        now apply IH.
Qed.

Lemma find_index_some (f : Job -> bool) js k :
  find_index f js = Some k ->
  (k < List.length js)%nat /\ f (nth k js job0) = true.
Proof.
  revert k. induction js as [|j js IH]; simpl; intros k H.
  - discriminate.
  - destruct (f j) eqn:E.
    + inversion H; subst. split; [lia|assumption].
    + destruct (find_index f js); [|discriminate].
      inversion H; subst. destruct (IH n eq_refl). split; [lia|assumption].
Qed.









Lemma mark_done_idem p js : mark_done p (mark_done p js) = mark_done p js.
Proof.
  unfold mark_done. rewrite map_map. apply map_ext. intros j.
  destruct (pgid j =? p) eqn:E; simpl; now rewrite E.
Qed.

Lemma mark_stopped_idem p js : mark_stopped p (mark_stopped p js) = mark_stopped p js.
Proof.
  unfold mark_stopped. rewrite map_map. apply map_ext. intros j.
  destruct (pgid j =? p) eqn:E; simpl; now rewrite E.
Qed.

Lemma set_status_same j : set_status (status j) j = j.
Proof. now destruct j. Qed.

Lemma mark_done_noop p js :
  (forall j, In j js -> pgid j = p -> status j = 2) -> mark_done p js = js.
Proof.
  intros H. unfold mark_done. rewrite <- (map_id js) at 2.
  apply map_ext_in. intros j Hj.
  destruct (pgid j =? p) eqn:E; [|reflexivity].
  apply Z.eqb_eq in E. rewrite <- (H j Hj E). apply set_status_same.
Qed.

Lemma mark_stopped_noop p js :
  (forall j, In j js -> pgid j = p -> status j = 1) -> mark_stopped p js = js.
Proof.
  intros H. unfold mark_stopped. rewrite <- (map_id js) at 2.
  apply map_ext_in. intros j Hj.
  destruct (pgid j =? p) eqn:E; [|reflexivity].
  apply Z.eqb_eq in E. rewrite <- (H j Hj E). apply set_status_same.
Qed.

Lemma mark_done_comm p q js :
  mark_done p (mark_done q js) = mark_done q (mark_done p js).
Proof.
  unfold mark_done. rewrite !map_map. apply map_ext. intros j.
  destruct (pgid j =? p) eqn:E, (pgid j =? q) eqn:F; simpl;
    rewrite ?E, ?F; reflexivity.
Qed.

Lemma mark_stopped_comm p q js :
  mark_stopped p (mark_stopped q js) = mark_stopped q (mark_stopped p js).
Proof.
  unfold mark_stopped. rewrite !map_map. apply map_ext. intros j.
  destruct (pgid j =? p) eqn:E, (pgid j =? q) eqn:F; simpl;
    rewrite ?E, ?F; reflexivity.
Qed.

Lemma mark_done_other p js j :
  In j js -> pgid j <> p -> In j (mark_done p js).
Proof.
  intros Hj Hp. unfold mark_done. apply in_map_iff. exists j.
  apply Z.eqb_neq in Hp. rewrite Hp. auto.
Qed.

Lemma mark_stopped_other p js j :
  In j js -> pgid j <> p -> In j (mark_stopped p js).
Proof.
  intros Hj Hp. unfold mark_stopped. apply in_map_iff. exists j.
  apply Z.eqb_neq in Hp. rewrite Hp. auto.
Qed.

End JobTable.

(** ** Running a procedure *)

Section Running.

Context {A B : Type}.
Implicit Types (m : Machine) (e : Event).

Lemma bind_ret (a : A) (k : A -> Proc B) m : bind (ret a) k m = k a m.
Proof. reflexivity. Qed.

Lemma bind_gets (f : Machine -> A) (k : A -> Proc B) m :
  bind (gets f) k m = k (f m) m.
Proof. reflexivity. Qed.

Lemma bind_syscall e (k : Answer -> Proc B) m :
  bind (syscall e) k m = k (next_answer m) (called e m).
Proof. reflexivity. Qed.

Lemma bind_emit e (k : unit -> Proc B) m :
  bind (emit e) k m = k tt (emitted e m).
Proof. reflexivity. Qed.

Lemma bind_modify_jobs f (k : unit -> Proc B) m :
  bind (modify_jobs f) k m = k tt (with_jobs f m).
Proof. reflexivity. Qed.

(** A procedure followed by a continuation returns only if it returned
    itself. *)
Lemma bind_returns (p : Proc A) (k : A -> Proc B) m b m' :
  bind p k m = (Ret b, m') ->
  exists a m1, p m = (Ret a, m1) /\ k a m1 = (Ret b, m').
Proof.
  unfold bind. destruct (p m) as [[a| | | |] m1]; intros H; try discriminate.
  eauto.
Qed.

End Running.

Lemma bind_assoc {A B C : Type} (p : Proc A) (k : A -> Proc B) (h : B -> Proc C) m :
  bind (bind p k) h m = bind p (fun a => bind (k a) h) m.
Proof. unfold bind. destruct (p m) as [[a| | | |] m1]; reflexivity. Qed.

Lemma bind_when_syscall {B : Type} (b : bool) (e : Event) (k : unit -> Proc B) m :
  bind (when b (syscall e ;; ret tt)) k m = k tt (if b then called e m else m).
Proof. destruct b; reflexivity. Qed.

Lemma bind_when_emit {B : Type} (b : bool) (e : Event) (k : unit -> Proc B) m :
  bind (when b (emit e)) k m = k tt (if b then emitted e m else m).
Proof. destruct b; reflexivity. Qed.



Lemma Frame_refl m : Frame same [] m m.
Proof. constructor; unfold same; auto using app_nil_r. Qed.

Lemma Frame_trans jf1 jf2 e1 e2 m1 m2 m3 :
  Frame jf1 e1 m1 m2 -> Frame jf2 e2 m2 m3 ->
  Frame (fun js => jf2 (jf1 js)) (e1 ++ e2) m1 m3.
Proof.
  intros [a1 n1 b1 c1 d1 s1] [a2 n2 b2 c2 d2 s2]. constructor.
  - now rewrite a2, a1.
  - congruence.
  - congruence.
  - congruence.
  - now rewrite d2, d1, app_assoc.
  - lia.
Qed.

Lemma Frame_called e m : Frame same [e] m (called e m).
Proof.
  constructor; try reflexivity. simpl.
  destruct (script m); simpl; lia.
Qed.

Lemma Frame_emitted e m : Frame same [e] m (emitted e m).
Proof. constructor; reflexivity || (simpl; lia). Qed.

Lemma Frame_same_trans e1 e2 m1 m2 m3 :
  Frame same e1 m1 m2 -> Frame same e2 m2 m3 -> Frame same (e1 ++ e2) m1 m3.
Proof. intros H1 H2. exact (Frame_trans _ _ _ _ _ _ _ H1 H2). Qed.

Lemma script_called e m :
  (List.length (script (called e m)) = List.length (script m) - 1)%nat.
Proof. simpl. destruct (script m); simpl; lia. Qed.

(** *** The loops of [launch_pipeline] *)

Lemma make_pipes_spec k : forall fds m,
  exists r evs m',
    make_pipes k fds m = (Ret r, m') /\ Frame same evs m m'
    /\ Forall is_pipe_event evs
    /\ (r = None -> exists evs0, evs = evs0 ++ [EvPerror "pipe"]).
Proof.
  induction k as [|k IH]; intros fds m; simpl.
  - exists (Some fds), [], m.
    split; [reflexivity|]. split; [apply Frame_refl|]. split; [constructor|discriminate].
  - rewrite bind_syscall.
    destruct (a_ret (next_answer m) <? 0).
    + exists None, [EvPipe; EvPerror "pipe"], (emitted (EvPerror "pipe") (called EvPipe m)).
      split; [reflexivity|]. split; [|split].
      * apply (Frame_same_trans [EvPipe] [EvPerror "pipe"] m (called EvPipe m));
          auto using Frame_called, Frame_emitted.
      * constructor; [now left|]. constructor; [now right|constructor].
      * intros _. now exists [EvPipe].
    + destruct (IH (fds ++ [out0 (next_answer m); out1 (next_answer m)]) (called EvPipe m))
        as [r [evs [m' [E [F [P L]]]]]].
      exists r, (EvPipe :: evs), m'. split; [exact E|]. split; [|split].
      * apply (Frame_same_trans [EvPipe] evs m (called EvPipe m));
          auto using Frame_called.
      * constructor; [now left|assumption].
      * intros Hr. destruct (L Hr) as [evs0 ->]. now exists (EvPipe :: evs0).
Qed.

Lemma close_all_spec fds : forall m,
  exists evs m',
    close_all fds m = (Ret tt, m') /\ Frame same evs m m'
    /\ Forall is_close_event evs.
Proof.
  induction fds as [|fd fds IH]; intros m; simpl.
  - exists [], m. auto using Frame_refl.
  - rewrite bind_when_syscall.
    destruct (IH (if negb (fd =? -1) then called (EvClose fd) m else m))
      as [evs [m' [E [F P]]]].
    destruct (negb (fd =? -1)).
    + exists (EvClose fd :: evs), m'. split; [exact E|]. split.
      * apply (Frame_same_trans [EvClose fd] evs m (called (EvClose fd) m));
          auto using Frame_called.
      * constructor; [now exists fd|assumption].
    + exists evs, m'. auto.
Qed.

Lemma wait_loop_spec fuel : forall pg st m,
  (List.length (script m) < fuel)%nat ->
  exists st' k m',
    wait_loop fuel pg st m = (Ret st', m')
    /\ Frame same (repeat (EvWaitpid (- pg) Sys.WUNTRACED) (S k)) m m'.
Proof.
  induction fuel as [|fuel IH]; intros pg st m Hf; [lia|].
  simpl. rewrite bind_syscall.
  set (a := next_answer m).
  set (st1 := if 0 <? a_ret a then out0 a else st).
  destruct ((0 <? a_ret a) && negb (Sys.WIFSTOPPED st1) && negb (Sys.WIFEXITED st1)
            && negb (Sys.WIFSIGNALED st1)) eqn:C.
  - destruct (IH pg st1 (called (EvWaitpid (- pg) Sys.WUNTRACED) m))
      as [st' [k [m' [E F]]]].
    { rewrite script_called.
      assert (script m <> []) as Hs.
      { intros Hs. subst a. unfold next_answer in C. rewrite Hs in C. discriminate. }
      destruct (script m); [congruence|]. simpl in *. lia. }
    exists st', (S k), m'. split; [exact E|].
    apply (Frame_same_trans [EvWaitpid (- pg) Sys.WUNTRACED]
             (repeat (EvWaitpid (- pg) Sys.WUNTRACED) (S k))
             m (called (EvWaitpid (- pg) Sys.WUNTRACED) m) m');
      [apply Frame_called|exact F].
  - exists st1, O, (called (EvWaitpid (- pg) Sys.WUNTRACED) m).
    split; [reflexivity|apply Frame_called].
Qed.

Lemma bind_run {A B : Type} (p : Proc A) (k : A -> Proc B) m a m1 :
  p m = (Ret a, m1) -> bind p k m = k a m1.
Proof. intros E. unfold bind. now rewrite E. Qed.

(** *** Facts that hold of every run of a procedure *)

Section Always.

Variable R : Machine -> Machine -> Prop.
Hypothesis R_refl : forall m, R m m.
Hypothesis R_trans : forall m1 m2 m3, R m1 m2 -> R m2 m3 -> R m1 m3.

Lemma always_bind {A B : Type} (p : Proc A) (k : A -> Proc B) :
  always R p -> (forall a, always R (k a)) -> always R (bind p k).
Proof.
  intros Hp Hk m. unfold bind. specialize (Hp m).
  destruct (p m) as [[a| | | |] m1]; simpl in *; auto.
  eapply R_trans; [exact Hp|apply Hk].
Qed.

Lemma always_ret {A : Type} (a : A) : always R (ret a).
Proof. intros m. apply R_refl. Qed.

Lemma always_gets {A : Type} (f : Machine -> A) : always R (gets f).
Proof. intros m. apply R_refl. Qed.

Lemma always_exit {A : Type} c : always R (@exit A c).
Proof. intros m. apply R_refl. Qed.

Lemma always_throw {A : Type} x : always R (@throw A x).
Proof. intros m. apply R_refl. Qed.

Lemma always_when b (p : Proc unit) : always R p -> always R (when b p).
Proof. intros H. destruct b; simpl; auto using always_ret. Qed.

End Always.

Lemma adds_only_refl P m : adds_only P m m.
Proof. exists []. split; [now rewrite app_nil_r|constructor]. Qed.

Lemma adds_only_trans P m1 m2 m3 :
  adds_only P m1 m2 -> adds_only P m2 m3 -> adds_only P m1 m3.
Proof.
  intros [e1 [T1 F1]] [e2 [T2 F2]]. exists (e1 ++ e2). split.
  - now rewrite T2, T1, app_assoc.
  - apply Forall_app. auto.
Qed.

Lemma adds_only_one (P : Event -> Prop) e m m' :
  P e -> trace m' = trace m ++ [e] -> adds_only P m m'.
Proof. intros H T. exists [e]. split; [assumption|]. constructor; [assumption|constructor]. Qed.

Section Emits.

Variable P : Event -> Prop.

Lemma emits_bind {A B : Type} (p : Proc A) (k : A -> Proc B) :
  emits_only P p -> (forall a, emits_only P (k a)) -> emits_only P (bind p k).
Proof. apply always_bind. apply adds_only_trans. Qed.

Lemma emits_ret {A : Type} (a : A) : emits_only P (ret a).
Proof. apply always_ret, adds_only_refl. Qed.

Lemma emits_gets {A : Type} (f : Machine -> A) : emits_only P (gets f).
Proof. apply always_gets, adds_only_refl. Qed.

Lemma emits_exit {A : Type} c : emits_only P (@exit A c).
Proof. apply always_exit, adds_only_refl. Qed.

Lemma emits_throw {A : Type} x : emits_only P (@throw A x).
Proof. apply always_throw, adds_only_refl. Qed.

Lemma emits_modify f : emits_only P (modify_jobs f).
Proof. intros m. exists []. split; [simpl; now rewrite app_nil_r|constructor]. Qed.

Lemma emits_syscall e : P e -> emits_only P (syscall e).
Proof. intros H m. now apply (adds_only_one P e). Qed.

Lemma emits_emit e : P e -> emits_only P (emit e).
Proof. intros H m. now apply (adds_only_one P e). Qed.

Lemma emits_when b (p : Proc unit) : emits_only P p -> emits_only P (when b p).
Proof. apply always_when, adds_only_refl. Qed.

End Emits.

(** One step of structural reasoning about what a procedure emits. *)
Ltac emits_step :=
  first
    [ apply emits_bind; [|intros ?]
    | apply emits_ret
    | apply emits_gets
    | apply emits_exit
    | apply emits_throw
    | apply emits_modify
    | apply emits_when
    | apply emits_syscall
    | apply emits_emit ].

Lemma print_jobs_emits js : emits_only builtin_event (print_jobs js).
Proof.
  induction js as [|j js IH]; simpl.
  - apply emits_ret.
  - apply emits_bind; [|intros _; exact IH].
    apply emits_emit. repeat split; discriminate.
Qed.

Lemma job_arg_emits P args : emits_only P (job_arg args).
Proof.
  unfold job_arg. destruct (job_id_of_args args).
  - apply emits_throw.
  - apply emits_ret.
Qed.

Lemma builtin_event_intro e :
  is_open e = false -> is_execvp e = false -> e <> EvFork -> e <> EvPipe ->
  builtin_event e.
Proof. intros; repeat split; assumption. Qed.

Ltac builtin_events :=
  repeat emits_step; apply builtin_event_intro; reflexivity || discriminate.

Lemma run_builtin_emits av : emits_only builtin_event (run_builtin av).
Proof.
  destruct av as [|cmd args]; simpl; [apply emits_ret|].
  destruct (String.eqb cmd "cd").
  { unfold builtin_cd. apply emits_bind.
    - destruct args; [|apply emits_ret]. builtin_events.
    - intros path. builtin_events. }
  destruct (String.eqb cmd "exit"); [apply emits_exit|].
  destruct (String.eqb cmd "jobs").
  { unfold builtin_jobs, remove_completed_jobs.
    repeat emits_step. apply print_jobs_emits. }
  destruct (String.eqb cmd "fg").
  { unfold builtin_fg, remove_completed_jobs, job_at.
    apply emits_bind; [apply job_arg_emits|intros i].
    apply emits_bind; [apply emits_gets|intros js].
    destruct (resolve_job i js); builtin_events. }
  destruct (String.eqb cmd "bg").
  { unfold builtin_bg, job_at.
    apply emits_bind; [apply job_arg_emits|intros i].
    apply emits_bind; [apply emits_gets|intros js].
    destruct (resolve_job i js); builtin_events. }
  apply emits_ret.
Qed.

(** *** The child never returns into the loop of the parent *)





(** *** No run is cut short by the fuel of the model *)

Lemma finishes_bind {A B : Type} (p : Proc A) (k : A -> Proc B) :
  finishes p -> (forall a, finishes (k a)) -> finishes (bind p k).
Proof.
  intros Hp Hk m. unfold bind. specialize (Hp m).
  destruct (p m) as [[a| | | |] m1]; simpl in *; try discriminate.
  - apply Hk.
  - congruence.
Qed.

Lemma finishes_total {A : Type} (p : Proc A) :
  (forall m, exists a m', p m = (Ret a, m')) -> finishes p.
Proof. intros H m. destruct (H m) as [a [m' ->]]. discriminate. Qed.

Lemma finishes_when b (p : Proc unit) : finishes p -> finishes (when b p).
Proof. intros H. destruct b; simpl; [assumption|discriminate]. Qed.

Ltac finishes_step :=
  first
    [ apply finishes_bind; [|intros ?]
    | apply finishes_when
    | (intros ?; discriminate) ].

Lemma print_jobs_finishes js : finishes (print_jobs js).
Proof.
  induction js as [|j js IH]; simpl.
  - intros m; discriminate.
  - apply finishes_bind; [intros m; discriminate|intros _; exact IH].
Qed.

Lemma job_arg_finishes args : finishes (job_arg args).
Proof. unfold job_arg. destruct (job_id_of_args args); intros m; discriminate. Qed.

Lemma run_builtin_finishes av : finishes (run_builtin av).
Proof.
  destruct av as [|cmd args]; simpl; [intros m; discriminate|].
  destruct (String.eqb cmd "cd").
  { unfold builtin_cd. apply finishes_bind.
    - destruct args; repeat finishes_step.
    - intros path. repeat finishes_step. }
  destruct (String.eqb cmd "exit"); [intros m; discriminate|].
  destruct (String.eqb cmd "jobs").
  { unfold builtin_jobs, remove_completed_jobs.
    apply finishes_bind; [intros m; discriminate|intros js].
    apply finishes_bind; [apply print_jobs_finishes|intros _].
    repeat finishes_step. }
  destruct (String.eqb cmd "fg").
  { unfold builtin_fg, remove_completed_jobs, job_at.
    apply finishes_bind; [apply job_arg_finishes|intros i].
    apply finishes_bind; [intros m; discriminate|intros js].
    destruct (resolve_job i js); repeat finishes_step. }
  destruct (String.eqb cmd "bg").
  { unfold builtin_bg, job_at.
    apply finishes_bind; [apply job_arg_finishes|intros i].
    apply finishes_bind; [intros m; discriminate|intros js].
    destruct (resolve_job i js); repeat finishes_step. }
  intros m; discriminate.
Qed.

Lemma close_all_finishes fds : finishes (close_all fds).
Proof.
  apply finishes_total. intros m.
  destruct (close_all_spec fds m) as [evs [m' [E _]]]. eauto.
Qed.

Lemma launch_child_finishes {A : Type} c i n fds bg pg in_fd out_fd :
  finishes (@launch_child A c i n fds bg pg in_fd out_fd).
Proof.
  unfold launch_child.
  apply finishes_bind.
  { unfold child_setup. apply finishes_bind.
    - destruct (pg =? 0); repeat finishes_step.
    - intros pg1. repeat finishes_step. }
  intros _. apply finishes_bind.
  { unfold redirect_input.
    destruct ((i =? 0)%nat && str_nonempty (infile c)); [|intros m; discriminate].
    apply finishes_bind; [intros m; discriminate|intros fd].
    destruct (a_ret fd <? 0); repeat finishes_step. }
  intros _. apply finishes_bind.
  { unfold redirect_output.
    destruct ((i =? n - 1)%nat && str_nonempty (outfile c)); [|intros m; discriminate].
    apply finishes_bind; [intros m; discriminate|intros fd].
    destruct (a_ret fd <? 0); repeat finishes_step. }
  intros _. apply finishes_bind; [apply close_all_finishes|intros _].
  unfold child_exec. destruct (argv c) as [|file rest]; [intros m; discriminate|].
  destruct (is_builtin (file :: rest)).
  - apply finishes_bind; [apply run_builtin_finishes|intros _; intros m; discriminate].
  - apply finishes_bind; [intros m; discriminate|intros r].
    destruct (a_ret r =? -1); repeat finishes_step.
Qed.

Lemma spawn_finishes rest : forall i n fds bg pg pids,
  finishes (spawn rest i n fds bg pg pids).
Proof.
  induction rest as [|c rest IH]; intros i n fds bg pg pids; simpl.
  - intros m; discriminate.
  - apply finishes_bind; [intros m; discriminate|intros f].
    destruct (a_ret f <? 0); [repeat finishes_step|].
    destruct (a_ret f =? 0); [apply launch_child_finishes|].
    apply finishes_bind; [intros m; discriminate|intros _]. apply IH.
Qed.

Lemma waiting_finishes {B : Type} pg u (k : Z -> Proc B) :
  (forall st, finishes (k st)) ->
  finishes (fuel <- loop_fuel ;; st <- wait_loop fuel pg u ;; k st).
Proof.
  intros H m. unfold loop_fuel. rewrite bind_gets.
  destruct (wait_loop_spec (S (List.length (script m))) pg u m)
    as [st [j [m' [E _]]]]; [lia|].
  rewrite (bind_run _ _ _ _ _ E). apply H.
Qed.

Lemma launch_pipeline_finishes pipeline background cmdline :
  finishes (launch_pipeline pipeline background cmdline).
Proof.
  unfold launch_pipeline.
  apply finishes_bind.
  { apply finishes_total. intros m.
    destruct (make_pipes_spec (List.length pipeline - 1) [] m) as [r [e [m' [E _]]]].
    eauto. }
  intros [fds|]; [|intros m; discriminate].
  apply finishes_bind; [apply spawn_finishes|].
  intros [pg|]; [|intros m; discriminate].
  apply finishes_bind; [apply close_all_finishes|intros _].
  apply finishes_bind; [unfold add_job; repeat finishes_step|intros jid].
  destruct background; simpl; [intros m; discriminate|].
  apply finishes_bind; [intros m; discriminate|intros _].
  apply finishes_bind; [intros m; discriminate|intros u].
  apply waiting_finishes. intros st.
  apply finishes_bind; [intros m; discriminate|intros sp].
  apply finishes_bind; [intros m; discriminate|intros _].
  destruct (Sys.WIFSTOPPED st); unfold mark_job_as_stopped, mark_job_as_done, remove_completed_jobs;
    repeat finishes_step.
Qed.

(** *** [fg] and [bg], run step by step *)

Lemma job_arg_ok args i m : job_id_of_args args = inr i -> job_arg args m = (Ret i, m).
Proof. intros E. unfold job_arg. now rewrite E. Qed.

Lemma job_arg_throws args x m :
  job_id_of_args args = inl x -> job_arg args m = (Throw x, m).
Proof. intros E. unfold job_arg. now rewrite E. Qed.

Lemma builtin_fg_unresolved args i m :
  job_id_of_args args = inr i -> resolve_job i (jobs m) = None ->
  builtin_fg args m = (Ret (-1), emitted (EvErr ("fg: no such job" ++ nl)) m).
Proof.
  intros E R. unfold builtin_fg.
  rewrite (bind_run _ _ _ _ _ (job_arg_ok _ _ _ E)), bind_gets, R. reflexivity.
Qed.

Lemma builtin_bg_unresolved args i m :
  job_id_of_args args = inr i -> resolve_job i (jobs m) = None ->
  builtin_bg args m = (Ret (-1), emitted (EvErr ("bg: no such job" ++ nl)) m).
Proof.
  intros E R. unfold builtin_bg.
  rewrite (bind_run _ _ _ _ _ (job_arg_ok _ _ _ E)), bind_gets, R. reflexivity.
Qed.

Lemma nth_update_at k f js :
  (k < List.length js)%nat -> nth k (update_at k f js) job0 = f (nth k js job0).
Proof.
  revert k. induction js as [|j js IH]; simpl; intros k H; [lia|].
  destruct k; simpl; [reflexivity|]. apply IH. lia.
Qed.

Lemma update_at_twice k f g js :
  update_at k g (update_at k f js) = update_at k (fun j => g (f j)) js.
Proof.
  revert k. induction js as [|j js IH]; simpl; intros k; [reflexivity|].
  destruct k; simpl; [reflexivity|]. now rewrite IH.
Qed.

Lemma resolve_job_some i js k :
  resolve_job i js = Some k -> (k < List.length js)%nat.
Proof.
  unfold resolve_job, find_last_job, find_job_by_id. destruct (i =? -1).
  - destruct js; [discriminate|]. intros H; inversion H; simpl; lia.
  - intros H. apply find_index_some in H. tauto.
Qed.

Lemma builtin_fg_resolved args i k m :
  job_id_of_args args = inr i -> resolve_job i (jobs m) = Some k ->
  builtin_fg args m = (Ret 0, fg_machine k m).
Proof.
  intros E R. unfold builtin_fg.
  rewrite (bind_run _ _ _ _ _ (job_arg_ok _ _ _ E)), bind_gets, R.
  rewrite bind_modify_jobs. unfold job_at. rewrite bind_gets.
  pose proof (resolve_job_some _ _ _ R) as Hk.
  replace (nth k (jobs (with_jobs (update_at k (set_is_background false)) m)) job0)
    with (set_is_background false (nth k (jobs m) job0))
    by (cbn [jobs with_jobs]; now rewrite nth_update_at).
  change (pgid (set_is_background false (nth k (jobs m) job0)))
    with (pgid (nth k (jobs m) job0)).
  rewrite bind_syscall, bind_when_emit, bind_syscall, bind_gets, bind_syscall.
  rewrite bind_gets, bind_syscall, bind_modify_jobs.
  unfold remove_completed_jobs. rewrite bind_modify_jobs.
  change (next_answer (with_jobs (update_at k (set_is_background false)) m))
    with (next_answer m).
  unfold fg_machine, fg_status, fg_machine_waited.
  destruct (a_ret (next_answer m) <? 0); reflexivity.
Qed.

Lemma jobs_fg_machine k m :
  jobs (fg_machine k m)
  = remove_completed
      (update_at k (fun j => set_status (if Sys.WIFSTOPPED (fg_status k m) then 1 else 2)
                               (set_is_background false j)) (jobs m)).
Proof.
  rewrite <- update_at_twice. unfold fg_machine, fg_machine_waited.
  destruct (a_ret (next_answer m) <? 0); reflexivity.
Qed.

Lemma trace_fg_machine k m :
  let pg := pgid (nth k (jobs m) job0) in
  trace (fg_machine k m)
  = trace m
    ++ (EvKill (- pg) SIGCONT
        :: (if a_ret (next_answer m) <? 0 then [EvPerror "kill(SIGCONT)"] else []))
    ++ [EvTcsetpgrp Sys.STDIN_FILENO pg;
        EvWaitpid (- pg) Sys.WUNTRACED;
        EvTcsetpgrp Sys.STDIN_FILENO (shell_pgid m)].
Proof.
  cbv zeta. unfold fg_machine, fg_machine_waited.
  destruct (a_ret (next_answer m) <? 0);
    cbn [trace with_jobs called emitted]; rewrite <- !app_assoc; reflexivity.
Qed.

Lemma builtin_bg_resolved args i k m :
  job_id_of_args args = inr i -> resolve_job i (jobs m) = Some k ->
  builtin_bg args m = (Ret 0, bg_machine k m).
Proof.
  intros E R. unfold builtin_bg.
  rewrite (bind_run _ _ _ _ _ (job_arg_ok _ _ _ E)), bind_gets, R.
  rewrite bind_modify_jobs. unfold job_at. rewrite bind_gets.
  pose proof (resolve_job_some _ _ _ R) as Hk.
  replace (nth k (jobs (with_jobs (update_at k (set_is_background true)) m)) job0)
    with (set_is_background true (nth k (jobs m) job0))
    by (cbn [jobs with_jobs]; now rewrite nth_update_at).
  change (pgid (set_is_background true (nth k (jobs m) job0)))
    with (pgid (nth k (jobs m) job0)).
  change (id (set_is_background true (nth k (jobs m) job0)))
    with (id (nth k (jobs m) job0)).
  change (cmdline (set_is_background true (nth k (jobs m) job0)))
    with (cmdline (nth k (jobs m) job0)).
  rewrite bind_syscall, bind_when_emit, bind_modify_jobs, bind_emit.
  change (next_answer (with_jobs (update_at k (set_is_background true)) m))
    with (next_answer m).
  unfold bg_machine.
  destruct (a_ret (next_answer m) <? 0); reflexivity.
Qed.

Lemma jobs_bg_machine k m :
  jobs (bg_machine k m)
  = update_at k (fun j => set_status 0 (set_is_background true j)) (jobs m).
Proof.
  rewrite <- update_at_twice. unfold bg_machine.
  destruct (a_ret (next_answer m) <? 0); reflexivity.
Qed.

(** [fg] and [bg] run to one of three ends. *)
Lemma builtin_fg_cases args m :
  match job_id_of_args args with
  | inl x => builtin_fg args m = (Throw x, m)
  | inr i =>
      match resolve_job i (jobs m) with
      | None => builtin_fg args m
                = (Ret (-1), emitted (EvErr ("fg: no such job" ++ nl)) m)
      | Some k => builtin_fg args m = (Ret 0, fg_machine k m)
      end
  end.
Proof.
  destruct (job_id_of_args args) as [x|i] eqn:E.
  - unfold builtin_fg. unfold bind. now rewrite (job_arg_throws _ _ _ E).
  - destruct (resolve_job i (jobs m)) as [k|] eqn:R.
    + now apply builtin_fg_resolved with i.
    + now apply builtin_fg_unresolved with i.
Qed.

Lemma builtin_bg_cases args m :
  match job_id_of_args args with
  | inl x => builtin_bg args m = (Throw x, m)
  | inr i =>
      match resolve_job i (jobs m) with
      | None => builtin_bg args m
                = (Ret (-1), emitted (EvErr ("bg: no such job" ++ nl)) m)
      | Some k => builtin_bg args m = (Ret 0, bg_machine k m)
      end
  end.
Proof.
  destruct (job_id_of_args args) as [x|i] eqn:E.
  - unfold builtin_bg. unfold bind. now rewrite (job_arg_throws _ _ _ E).
  - destruct (resolve_job i (jobs m)) as [k|] eqn:R.
    + now apply builtin_bg_resolved with i.
    + now apply builtin_bg_unresolved with i.
Qed.

(** *** The child, phase by phase *)

Lemma adds_only_impl (P Q : Event -> Prop) m m' :
  (forall e, P e -> Q e) -> adds_only P m m' -> adds_only Q m m'.
Proof.
  intros H [evs [T F]]. exists evs. split; [assumption|].
  eapply Forall_impl; [|exact F]. exact H.
Qed.

Ltac plain_events := repeat emits_step; split; reflexivity.

Lemma child_setup_emits bg pg in_fd out_fd :
  emits_only plain_event (child_setup bg pg in_fd out_fd).
Proof.
  unfold child_setup. apply emits_bind.
  - destruct (pg =? 0); plain_events.
  - intros pg1. plain_events.
Qed.

Lemma returns_bind {A B : Type} (p : Proc A) (k : A -> Proc B) :
  returns p -> (forall a, returns (k a)) -> returns (bind p k).
Proof.
  intros Hp Hk m. destruct (Hp m) as [a [m1 E]].
  rewrite (bind_run _ _ _ _ _ E). apply Hk.
Qed.

Lemma returns_now {A : Type} (p : Proc A) :
  (forall m, exists a, p m = (Ret a, snd (p m))) -> returns p.
Proof. intros H m. destruct (H m) as [a E]. eauto. Qed.

Lemma returns_when b (p : Proc unit) : returns p -> returns (when b p).
Proof. intros H. destruct b; simpl; [assumption|]. intros m. now exists tt, m. Qed.

Ltac returns_step :=
  first
    [ apply returns_bind; [|intros ?]
    | apply returns_when
    | (apply returns_now; intros ?; eexists; reflexivity) ].

Lemma child_setup_returns bg pg in_fd out_fd m :
  exists m1, child_setup bg pg in_fd out_fd m = (Ret tt, m1).
Proof.
  assert (returns (child_setup bg pg in_fd out_fd)) as H.
  { unfold child_setup. apply returns_bind.
    - destruct (pg =? 0); repeat returns_step.
    - intros pg1. repeat returns_step. }
  destruct (H m) as [[] [m1 E]]. eauto.
Qed.

Lemma close_all_emits fds : emits_only plain_event (close_all fds).
Proof.
  intros m. destruct (close_all_spec fds m) as [evs [m' [E [F P]]]].
  rewrite E. exists evs. split; [apply F|].
  eapply Forall_impl; [|exact P]. intros e [fd ->]. now split.
Qed.

Lemma redirect_input_cases c i m :
  redirect_input c i m
  = if input_fails c i m
    then (Exit 1, emitted (EvPerror "open infile") (called (open_input c) m))
    else (Ret tt, input_redirected c i m).
Proof.
  unfold redirect_input, input_fails, input_redirected, has_input.
  destruct ((i =? 0)%nat && str_nonempty (infile c)); [|reflexivity].
  rewrite bind_syscall. simpl.
  destruct (a_ret (next_answer m) <? 0); reflexivity.
Qed.

Lemma redirect_output_cases c i n m :
  redirect_output c i n m
  = if output_fails c i n m
    then (Exit 1, emitted (EvPerror "open outfile") (called (open_output c) m))
    else (Ret tt, output_redirected c i n m).
Proof.
  unfold redirect_output, output_fails, output_redirected, has_output.
  destruct ((i =? n - 1)%nat && str_nonempty (outfile c)); [|reflexivity].
  rewrite bind_syscall. simpl.
  destruct (a_ret (next_answer m) <? 0); reflexivity.
Qed.

Lemma bind_redirect_input {B : Type} c i (k : unit -> Proc B) m :
  bind (redirect_input c i) k m
  = if input_fails c i m
    then (Exit 1, emitted (EvPerror "open infile") (called (open_input c) m))
    else k tt (input_redirected c i m).
Proof.
  unfold bind. rewrite redirect_input_cases.
  destruct (input_fails c i m); reflexivity.
Qed.

Lemma bind_redirect_output {B : Type} c i n (k : unit -> Proc B) m :
  bind (redirect_output c i n) k m
  = if output_fails c i n m
    then (Exit 1, emitted (EvPerror "open outfile") (called (open_output c) m))
    else k tt (output_redirected c i n m).
Proof.
  unfold bind. rewrite redirect_output_cases.
  destruct (output_fails c i n m); reflexivity.
Qed.

(** The three ways the child goes on from the end of [child_setup]. *)
Lemma launch_child_cases {A : Type} c i n fds bg pg in_fd out_fd m :
  exists m1,
    child_setup bg pg in_fd out_fd m = (Ret tt, m1)
    /\ adds_only plain_event m m1
    /\ let m2 := input_redirected c i m1 in
       let m3 := output_redirected c i n m2 in
       if input_fails c i m1 then
         @launch_child A c i n fds bg pg in_fd out_fd m
         = (Exit 1, emitted (EvPerror "open infile") (called (open_input c) m1))
       else if output_fails c i n m2 then
         @launch_child A c i n fds bg pg in_fd out_fd m
         = (Exit 1, emitted (EvPerror "open outfile") (called (open_output c) m2))
       else
         exists m4,
           close_all fds m3 = (Ret tt, m4)
           /\ adds_only plain_event m3 m4
           /\ @launch_child A c i n fds bg pg in_fd out_fd m = child_exec c m4.
Proof.
  destruct (child_setup_returns bg pg in_fd out_fd m) as [m1 E1].
  exists m1. split; [exact E1|]. split.
  { pose proof (child_setup_emits bg pg in_fd out_fd m) as H. now rewrite E1 in H. }
  cbv zeta. unfold launch_child. rewrite (bind_run _ _ _ _ _ E1).
  rewrite bind_redirect_input.
  destruct (input_fails c i m1); [reflexivity|].
  rewrite bind_redirect_output.
  destruct (output_fails c i n (input_redirected c i m1)); [reflexivity|].
  pose proof (close_all_emits fds (output_redirected c i n (input_redirected c i m1))) as H.
  destruct (close_all_spec fds (output_redirected c i n (input_redirected c i m1)))
    as [evs [m4 [E4 _]]].
  rewrite E4 in H. exists m4. split; [exact E4|]. split; [exact H|].
  now rewrite (bind_run _ _ _ _ _ E4).
Qed.

Lemma child_exec_emits {A : Type} c :
  emits_only (fun e => is_open e = false) (@child_exec A c).
Proof.
  unfold child_exec. destruct (argv c) as [|file rest]; [apply emits_exit|].
  destruct (is_builtin (file :: rest)).
  - apply emits_bind; [|intros _; apply emits_exit].
    intros m. eapply adds_only_impl; [|apply run_builtin_emits].
    intros e H. apply H.
  - apply emits_bind; [now apply emits_syscall|intros r].
    destruct (a_ret r =? -1).
    + repeat emits_step. reflexivity.
    + intros m. apply adds_only_refl.
Qed.

Lemma filter_none (f : Event -> bool) evs :
  Forall (fun e => f e = false) evs -> filter f evs = [].
Proof.
  induction 1 as [|e evs He _ IH]; simpl; [reflexivity|]. now rewrite He.
Qed.

Lemma plain_not_open evs :
  Forall plain_event evs -> Forall (fun e => is_open e = false) evs.
Proof. apply Forall_impl. intros e H. apply H. Qed.

Lemma plain_not_execvp evs :
  Forall plain_event evs -> Forall (fun e => is_execvp e = false) evs.
Proof. apply Forall_impl. intros e H. apply H. Qed.

Lemma trace_input_redirected c i m :
  input_fails c i m = false ->
  trace (input_redirected c i m) = trace m ++ input_events c i m.
Proof.
  unfold input_fails, input_redirected, input_events.
  destruct (has_input c i); simpl; [|now rewrite app_nil_r].
  intros ->. now rewrite <- app_assoc.
Qed.

Lemma trace_output_redirected c i n m :
  output_fails c i n m = false ->
  trace (output_redirected c i n m) = trace m ++ output_events c i n m.
Proof.
  unfold output_fails, output_redirected, output_events.
  destruct (has_output c i n); simpl; [|now rewrite app_nil_r].
  intros ->. now rewrite <- app_assoc.
Qed.

Lemma input_fails_events c i m :
  input_fails c i m = true ->
  input_events c i m = [open_input c; EvPerror "open infile"].
Proof.
  unfold input_fails, input_events. destruct (has_input c i); [|discriminate].
  simpl. now intros ->.
Qed.

Lemma output_fails_events c i n m :
  output_fails c i n m = true ->
  output_events c i n m = [open_output c; EvPerror "open outfile"].
Proof.
  unfold output_fails, output_events. destruct (has_output c i n); [|discriminate].
  simpl. now intros ->.
Qed.

Lemma filter_input_events c i m :
  filter is_open (input_events c i m) = if has_input c i then [open_input c] else [].
Proof.
  unfold input_events. destruct (has_input c i); [|reflexivity].
  simpl. now destruct (a_ret (next_answer m) <? 0).
Qed.

Lemma filter_output_events c i n m :
  filter is_open (output_events c i n m)
  = if has_output c i n then [open_output c] else [].
Proof.
  unfold output_events. destruct (has_output c i n); [|reflexivity].
  simpl. now destruct (a_ret (next_answer m) <? 0).
Qed.

(** The run of the child from the end of [child_setup] on: the calls of the
    redirections, then, unless an [open] failed, the [close] calls and the
    run of the program. *)
Lemma launch_child_run {A : Type} c i n fds bg pg in_fd out_fd m :
  exists m1,
    child_setup bg pg in_fd out_fd m = (Ret tt, m1)
    /\ adds_only plain_event m m1
    /\ let m2 := input_redirected c i m1 in
       let r := @launch_child A c i n fds bg pg in_fd out_fd m in
       if input_fails c i m1 then
         fst r = Exit 1 /\ trace (snd r) = trace m1 ++ input_events c i m1
       else if output_fails c i n m2 then
         fst r = Exit 1
         /\ trace (snd r) = trace m1 ++ input_events c i m1 ++ output_events c i n m2
       else
         exists closes m4,
           Forall plain_event closes
           /\ trace m4 = trace m1 ++ input_events c i m1 ++ output_events c i n m2 ++ closes
           /\ r = child_exec c m4.
Proof.
  destruct (@launch_child_cases A c i n fds bg pg in_fd out_fd m) as [m1 [E1 [P1 H]]].
  exists m1. split; [exact E1|]. split; [exact P1|].
  cbv zeta in *.
  destruct (input_fails c i m1) eqn:Fi.
  { rewrite H. simpl. split; [reflexivity|].
    rewrite (input_fails_events _ _ _ Fi). now rewrite <- app_assoc. }
  destruct (output_fails c i n (input_redirected c i m1)) eqn:Fo.
  { rewrite H. simpl. split; [reflexivity|].
    rewrite (output_fails_events _ _ _ _ Fo), (trace_input_redirected _ _ _ Fi).
    now rewrite <- !app_assoc. }
  destruct H as [m4 [E4 [[closes [T4 P4]] H]]].
  exists closes, m4. split; [exact P4|]. split; [|exact H].
  rewrite T4, (trace_output_redirected _ _ _ _ Fo), (trace_input_redirected _ _ _ Fi).
  now rewrite <- !app_assoc.
Qed.

(** The [open] calls of the child. *)
Lemma launch_child_opens {A : Type} c i n fds bg pg in_fd out_fd m :
  exists m1 evs,
    child_setup bg pg in_fd out_fd m = (Ret tt, m1)
    /\ adds_only plain_event m m1
    /\ trace (snd (@launch_child A c i n fds bg pg in_fd out_fd m)) = trace m1 ++ evs
    /\ filter is_open evs
       = (if has_input c i then [open_input c] else [])
         ++ (if has_output c i n && negb (input_fails c i m1)
             then [open_output c] else []).
Proof.
  destruct (@launch_child_run A c i n fds bg pg in_fd out_fd m) as [m1 [E1 [P1 H]]].
  exists m1. cbv zeta in H.
  destruct (input_fails c i m1) eqn:Fi.
  { destruct H as [_ T]. exists (input_events c i m1).
    repeat split; try assumption.
    rewrite filter_input_events. simpl negb. now rewrite andb_false_r, app_nil_r. }
  destruct (output_fails c i n (input_redirected c i m1)) eqn:Fo.
  { destruct H as [_ T].
    exists (input_events c i m1 ++ output_events c i n (input_redirected c i m1)).
    repeat split; try assumption.
    rewrite filter_app, filter_input_events, filter_output_events.
    simpl negb. now rewrite andb_true_r. }
  destruct H as [closes [m4 [Pc [T4 H]]]].
  pose proof (@child_exec_emits A c m4) as [evs [Te Pe]].
  exists (input_events c i m1 ++ output_events c i n (input_redirected c i m1)
          ++ closes ++ evs).
  repeat split; try assumption.
  - rewrite H, Te, T4. now rewrite <- !app_assoc.
  - rewrite !filter_app, filter_input_events, filter_output_events.
    simpl negb. rewrite andb_true_r.
    rewrite (filter_none _ _ (plain_not_open _ Pc)), (filter_none _ _ Pe).
    now rewrite !app_nil_r.
Qed.

(** ** How the shell's own process can end *)

Lemma in_child_app_l e1 e2 : in_child e1 -> in_child (e1 ++ e2).
Proof. intros H. apply in_or_app. now left. Qed.

Lemma in_child_app_r e1 e2 : in_child e2 -> in_child (e1 ++ e2).
Proof. intros H. apply in_or_app. now right. Qed.

Lemma shell_or_child_bind {A B : Type} (p : Proc A) (k : A -> Proc B) :
  shell_or_child p -> (forall a, shell_or_child (k a)) -> shell_or_child (bind p k).
Proof.
  intros Hp Hk m. destruct (Hp m) as [e1 [T1 H1]]. unfold bind.
  destruct (p m) as [[a| | | |] m1]; simpl in *;
    try (exists e1; split; [exact T1|exact H1]).
  destruct (Hk a m1) as [e2 [T2 H2]].
  exists (e1 ++ e2). split; [now rewrite T2, T1, app_assoc|].
  destruct H1 as [H1|_]; [left; now apply in_child_app_l|].
  destruct H2 as [H2|H2]; [left; now apply in_child_app_r|now right].
Qed.

Lemma shell_or_child_returns {A : Type} (p : Proc A) :
  (forall m, exists a evs m', p m = (Ret a, m') /\ trace m' = trace m ++ evs) ->
  shell_or_child p.
Proof.
  intros H m. destruct (H m) as [a [evs [m' [E T]]]]. rewrite E.
  exists evs. split; [exact T|now right].
Qed.

Lemma shell_or_child_quiet {A : Type} (p : Proc A) :
  (forall m, trace (snd (p m)) = trace m) ->
  (forall m, shell_end (fst (p m))) ->
  shell_or_child p.
Proof.
  intros T H m. exists []. split; [now rewrite T, app_nil_r|right; apply H].
Qed.

Lemma shell_or_child_syscall e : shell_or_child (syscall e).
Proof. intros m. exists [e]. split; [reflexivity|now right]. Qed.

Lemma shell_or_child_emit e : shell_or_child (emit e).
Proof. intros m. exists [e]. split; [reflexivity|now right]. Qed.

Lemma shell_or_child_when b (p : Proc unit) :
  shell_or_child p -> shell_or_child (when b p).
Proof.
  intros H. destruct b; simpl; [assumption|].
  apply shell_or_child_quiet; intros m; simpl; auto.
Qed.

Ltac quiet := apply shell_or_child_quiet; intros ?; simpl; auto.

Ltac shell_step_tac :=
  first
    [ apply shell_or_child_bind; [|intros ?]
    | apply shell_or_child_syscall
    | apply shell_or_child_emit
    | apply shell_or_child_when
    | quiet ].

Lemma print_jobs_shell js : shell_or_child (print_jobs js).
Proof.
  induction js as [|j js IH]; simpl; [quiet|].
  apply shell_or_child_bind; [apply shell_or_child_emit|intros _; exact IH].
Qed.

Lemma job_arg_shell args : shell_or_child (job_arg args).
Proof.
  unfold job_arg. destruct (job_id_of_args args) eqn:E; [|quiet].
  apply shell_or_child_quiet; intros m; simpl; eauto.
Qed.

Lemma run_builtin_shell av : shell_or_child (run_builtin av).
Proof.
  destruct av as [|cmd args]; simpl; [quiet|].
  destruct (String.eqb cmd "cd").
  { unfold builtin_cd. apply shell_or_child_bind.
    - destruct args; repeat shell_step_tac.
    - intros path. repeat shell_step_tac. }
  destruct (String.eqb cmd "exit"); [quiet|].
  destruct (String.eqb cmd "jobs").
  { unfold builtin_jobs, remove_completed_jobs.
    apply shell_or_child_bind; [quiet|intros js].
    apply shell_or_child_bind; [apply print_jobs_shell|intros _].
    repeat shell_step_tac. }
  destruct (String.eqb cmd "fg").
  { unfold builtin_fg, remove_completed_jobs, job_at.
    apply shell_or_child_bind; [apply job_arg_shell|intros i].
    apply shell_or_child_bind; [quiet|intros js].
    destruct (resolve_job i js); repeat shell_step_tac. }
  destruct (String.eqb cmd "bg").
  { unfold builtin_bg, job_at.
    apply shell_or_child_bind; [apply job_arg_shell|intros i].
    apply shell_or_child_bind; [quiet|intros js].
    destruct (resolve_job i js); repeat shell_step_tac. }
  quiet.
Qed.

(** The child resets the signals before anything else can end it. *)
Lemma child_setup_in_child bg pg in_fd out_fd m :
  exists m1 evs,
    child_setup bg pg in_fd out_fd m = (Ret tt, m1)
    /\ trace m1 = trace m ++ evs /\ in_child evs.
Proof.
  destruct (child_setup_returns bg pg in_fd out_fd m) as [m1 E].
  exists m1. pose proof E as E1. unfold child_setup in E.
  apply bind_returns in E. destruct E as [pg1 [m0 [E0 E]]].
  rewrite bind_syscall, bind_when_syscall, bind_syscall in E.
  assert (exists e0, trace m0 = trace m ++ e0) as [e0 T0].
  { destruct (pg =? 0).
    - rewrite bind_syscall in E0. inversion E0; subst. now exists [EvGetpid].
    - inversion E0; subst. exists []. now rewrite app_nil_r. }
  match type of E with
  | ?p ?mm = _ =>
      assert (emits_only (fun _ => True) p) as H
        by (repeat emits_step; exact I);
      specialize (H mm); rewrite E in H; destruct H as [e1 [T1 _]]
  end.
  cbn [snd] in T1.
  exists (e0 ++ [EvSetpgid 0 pg1]
          ++ (if negb bg then [EvTcsetpgrp Sys.STDIN_FILENO pg1] else [])
          ++ [EvSignal SIGINT SIG_DFL] ++ e1).
  split; [exact E1|]. split.
  - rewrite T1. destruct (negb bg); simpl; rewrite T0, <- !app_assoc; reflexivity.
  - unfold in_child. apply in_or_app. right. apply in_cons.
    apply in_or_app. right. apply in_eq.
Qed.

Lemma launch_child_in_child {A : Type} c i n fds bg pg in_fd out_fd :
  shell_or_child (@launch_child A c i n fds bg pg in_fd out_fd).
Proof.
  intros m.
  destruct (child_setup_in_child bg pg in_fd out_fd m) as [m1 [e1 [E1 [T1 C1]]]].
  destruct (@launch_child_opens A c i n fds bg pg in_fd out_fd m)
    as [m1' [evs [E1' [_ [T _]]]]].
  rewrite E1 in E1'. inversion E1'; subst m1'; clear E1'.
  exists (e1 ++ evs). split; [now rewrite T, T1, app_assoc|].
  left. now apply in_child_app_l.
Qed.

Lemma make_pipes_shell k fds : shell_or_child (make_pipes k fds).
Proof.
  apply shell_or_child_returns. intros m.
  destruct (make_pipes_spec k fds m) as [r [evs [m' [E [F _]]]]].
  exists r, evs, m'. split; [exact E|apply F].
Qed.

Lemma close_all_shell fds : shell_or_child (close_all fds).
Proof.
  apply shell_or_child_returns. intros m.
  destruct (close_all_spec fds m) as [evs [m' [E [F _]]]].
  exists tt, evs, m'. split; [exact E|apply F].
Qed.

Lemma spawn_shell rest : forall i n fds bg pg pids,
  shell_or_child (spawn rest i n fds bg pg pids).
Proof.
  induction rest as [|c rest IH]; intros i n fds bg pg pids; simpl; [quiet|].
  apply shell_or_child_bind; [apply shell_or_child_syscall|intros f].
  destruct (a_ret f <? 0); [repeat shell_step_tac|].
  destruct (a_ret f =? 0); [apply launch_child_in_child|].
  apply shell_or_child_bind; [apply shell_or_child_syscall|intros _]. apply IH.
Qed.

Lemma waiting_shell {B : Type} pg u (k : Z -> Proc B) :
  (forall st, shell_or_child (k st)) ->
  shell_or_child (fuel <- loop_fuel ;; st <- wait_loop fuel pg u ;; k st).
Proof.
  intros H m. unfold loop_fuel. rewrite bind_gets.
  destruct (wait_loop_spec (S (List.length (script m))) pg u m)
    as [st [j [m' [E F]]]]; [lia|].
  rewrite (bind_run _ _ _ _ _ E).
  destruct (H st m') as [e2 [T2 H2]].
  exists (repeat (EvWaitpid (- pg) Sys.WUNTRACED) (S j) ++ e2). split.
  - rewrite T2. destruct F as [_ _ _ _ T _]. now rewrite T, app_assoc.
  - destruct H2 as [H2|H2]; [left; now apply in_child_app_r|now right].
Qed.

Lemma launch_pipeline_shell pipeline background cmdline :
  shell_or_child (launch_pipeline pipeline background cmdline).
Proof.
  unfold launch_pipeline.
  apply shell_or_child_bind; [apply make_pipes_shell|].
  intros [fds|]; [|quiet].
  apply shell_or_child_bind; [apply spawn_shell|].
  intros [pg|]; [|quiet].
  apply shell_or_child_bind; [apply close_all_shell|intros _].
  apply shell_or_child_bind; [unfold add_job; repeat shell_step_tac|intros jid].
  destruct background; simpl; [apply shell_or_child_emit|].
  apply shell_or_child_bind; [apply shell_or_child_syscall|intros _].
  apply shell_or_child_bind; [quiet|intros u].
  apply waiting_shell. intros st.
  apply shell_or_child_bind; [quiet|intros sp].
  apply shell_or_child_bind; [apply shell_or_child_syscall|intros _].
  destruct (Sys.WIFSTOPPED st);
    unfold mark_job_as_stopped, mark_job_as_done, remove_completed_jobs;
    repeat shell_step_tac.
Qed.

Lemma shell_step_shell line : shell_or_child (shell_step line).
Proof.
  unfold shell_step. destruct (String.eqb (trim line) EmptyString); [quiet|].
  destruct (parse_pipeline (split_tokens (trim line))) as [pipeline bg].
  destruct pipeline as [|c others]; [quiet|].
  match goal with |- context [if ?b then _ else _] => destruct b end.
  - apply shell_or_child_bind; [apply run_builtin_shell|intros _].
    unfold remove_completed_jobs. quiet.
  - apply shell_or_child_bind; [apply launch_pipeline_shell|intros _].
    unfold remove_completed_jobs. quiet.
Qed.

Lemma shell_loop_shell input : shell_or_child (shell_loop input).
Proof.
  induction input as [|line rest IH]; simpl.
  - unfold prompt. repeat shell_step_tac.
  - apply shell_or_child_bind; [unfold prompt; repeat shell_step_tac|intros _].
    apply shell_or_child_bind; [apply shell_step_shell|intros _]. exact IH.
Qed.

Lemma shell_loop_returns_0 input : forall m a m',
  shell_loop input m = (Ret a, m') -> a = 0.
Proof.
  induction input as [|line rest IH]; intros m a m' H; cbn [shell_loop] in H.
  - apply bind_returns in H. destruct H as [u [m1 [_ H]]].
    apply bind_returns in H. destruct H as [u2 [m2 [_ H]]].
    now inversion H.
  - apply bind_returns in H. destruct H as [u [m1 [_ H]]].
    apply bind_returns in H. destruct H as [u2 [m2 [_ H]]].
    now apply IH in H.
Qed.

Lemma main_returns_0 input m a m' : main input m = (Ret a, m') -> a = 0.
Proof.
  unfold main. intros H.
  repeat (apply bind_returns in H; destruct H as [? [? [_ H]]]).
  now apply shell_loop_returns_0 in H.
Qed.

(** In the shell's own process [main] ends in one of three ways only: it
    returns at the end of the input, it calls [exit(0)] (the [exit]
    builtin), or an exception of [std::stoi] leaves it ([fg] or [bg] with an
    argument that is not a number an [int] can hold).  Failed [pipe],
    [fork], [open], [execvp], [chdir], [kill] or [waitpid] calls and
    missing jobs do not end it. *)
Lemma main_ends_in_shell input m :
  exists evs,
    trace (snd (main input m)) = trace m ++ evs
    /\ (in_child evs
        \/ fst (main input m) = Ret 0
        \/ fst (main input m) = Exit 0
        \/ exists x args, fst (main input m) = Throw x
                          /\ job_id_of_args args = inl x).
Proof.
  assert (shell_or_child (main input)) as H.
  { unfold main, set_shell_pgid.
    apply shell_or_child_bind; [apply shell_or_child_syscall|intros p].
    apply shell_or_child_bind; [quiet|intros _].
    repeat (apply shell_or_child_bind;
            [first [apply shell_or_child_syscall
                   |apply shell_or_child_when; apply shell_or_child_emit]|intros ?]).
    apply shell_loop_shell. }
  destruct (H m) as [evs [T [C|E]]].
  - exists evs. split; [exact T|now left].
  - exists evs. split; [exact T|]. right.
    destruct (main input m) as [[a|code|x|f a|] m'] eqn:O; simpl in E |- *.
    + left. f_equal. now apply main_returns_0 in O.
    + right; left. now subst.
    + right; right. destruct E as [args E]. now exists x, args.
    + contradiction.
    + contradiction.
Qed.

(** ** A launch, from the answers of the system *)

Lemma script_called_tl e m : script (called e m) = tl (script m).
Proof. reflexivity. Qed.

Lemma length_pipe_fds k : forall sc, List.length (pipe_fds k sc) = (2 * k)%nat.
Proof. induction k as [|k IH]; intros sc; simpl; [reflexivity|]. rewrite IH. lia. Qed.

Lemma forked_positive n : forall sc, Forall (fun pid => 0 < pid) (forked n sc).
Proof.
  induction n as [|n IH]; intros sc; simpl; [constructor|].
  destruct (0 <? a_ret (hd no_answer sc)) eqn:P; [|constructor].
  constructor; [now apply Z.ltb_lt|apply IH].
Qed.

Lemma length_forked n : forall sc, (List.length (forked n sc) <= n)%nat.
Proof.
  induction n as [|n IH]; intros sc; simpl; [lia|].
  destruct (0 <? a_ret (hd no_answer sc)); simpl; [|lia].
  specialize (IH (tl (tl sc))). lia.
Qed.

(** Every [pipe] succeeds. *)
Lemma make_pipes_ok k : forall fds m,
  pipes_made k (script m) = k ->
  exists m',
    make_pipes k fds m = (Ret (Some (fds ++ pipe_fds k (script m))), m')
    /\ Frame same (repeat EvPipe k) m m'
    /\ script m' = skipn k (script m).
Proof.
  induction k as [|k IH]; intros fds m H; simpl in *.
  - exists m. rewrite app_nil_r. split; [reflexivity|]. split; [apply Frame_refl|reflexivity].
  - rewrite bind_syscall. unfold next_answer.
    destruct (a_ret (hd no_answer (script m)) <? 0); [discriminate|].
    injection H as H.
    destruct (IH (fds ++ [out0 (hd no_answer (script m)); out1 (hd no_answer (script m))])
                (called EvPipe m)) as [m' [E [F S]]]; [exact H|].
    exists m'. split; [|split].
    + rewrite E, script_called_tl, <- app_assoc. reflexivity.
    + exact (Frame_same_trans [EvPipe] _ _ _ _ (Frame_called _ _) F).
    + rewrite S, script_called_tl. destruct (script m); [now destruct k|reflexivity].
Qed.

(** A [pipe] fails after [pipes_made] of them succeeded. *)
Lemma make_pipes_fails k : forall fds m,
  (pipes_made k (script m) < k)%nat ->
  exists m',
    make_pipes k fds m = (Ret None, m')
    /\ Frame same (repeat EvPipe (S (pipes_made k (script m))) ++ [EvPerror "pipe"]) m m'.
Proof.
  induction k as [|k IH]; intros fds m H; simpl in *; [lia|].
  rewrite bind_syscall. unfold next_answer.
  destruct (a_ret (hd no_answer (script m)) <? 0).
  - eexists. split; [reflexivity|].
    apply (Frame_same_trans [EvPipe] [EvPerror "pipe"] m (called EvPipe m));
      auto using Frame_called, Frame_emitted.
  - destruct (IH (fds ++ [out0 (hd no_answer (script m)); out1 (hd no_answer (script m))])
                (called EvPipe m)) as [m' [E F]]; [rewrite script_called_tl; lia|].
    exists m'. split; [exact E|]. rewrite script_called_tl in F.
    exact (Frame_same_trans [EvPipe] _ _ _ _ (Frame_called _ _) F).
Qed.

Lemma skipn_tl_tl {A : Type} (k : nat) (l : list A) :
  skipn (2 * S k) l = skipn (2 * k) (tl (tl l)).
Proof.
  replace (2 * S k)%nat with (S (S (2 * k))) by lia.
  destruct l as [|a [|b l]]; simpl; try reflexivity; now destruct (k + (k + 0))%nat.
Qed.

Lemma group_of_cons pg pid pids :
  pid <> 0 -> group_of (if pg =? 0 then pid else pg) pids = group_of pg (pid :: pids).
Proof.
  intros N. unfold group_of. destruct (pg =? 0) eqn:E; simpl.
  - apply Z.eqb_neq in N. now rewrite N.
  - now rewrite E.
Qed.

Lemma group_of_given pg pid : group_of pg [pid] = (if pg =? 0 then pid else pg).
Proof. reflexivity. Qed.

(** Every [fork] returns the pid of a child to the shell. *)
Lemma spawn_ok rest : forall i n fds bg pg pids m,
  List.length (forked (List.length rest) (script m)) = List.length rest ->
  let new := forked (List.length rest) (script m) in
  exists m',
    spawn rest i n fds bg pg pids m = (Ret (Some (group_of pg new)), m')
    /\ Frame same (spawn_calls (group_of pg new) new) m m'
    /\ script m' = skipn (2 * List.length rest) (script m).
Proof.
  induction rest as [|c rest IH]; intros i n fds bg pg pids m H; cbv zeta.
  - simpl in *. exists m. split; [|split; [apply Frame_refl|reflexivity]].
    unfold group_of. simpl. now destruct (pg =? 0) eqn:E; [apply Z.eqb_eq in E; subst|].
  - cbn [List.length] in H |- *. rewrite skipn_tl_tl. cbn [spawn forked] in H |- *.
    rewrite bind_syscall. unfold next_answer.
    set (pid := a_ret (hd no_answer (script m))) in *.
    destruct (0 <? pid) eqn:P; [|discriminate].
    apply Z.ltb_lt in P.
    assert ((pid <? 0) = false) as -> by (apply Z.ltb_ge; lia).
    assert ((pid =? 0) = false) as -> by (apply Z.eqb_neq; lia).
    rewrite bind_syscall.
    cbn [List.length] in H. injection H as H.
    set (pg1 := if pg =? 0 then pid else pg).
    destruct (IH (S i) n fds bg pg1 (pids ++ [pid])
                (called (EvSetpgid pid pg1) (called EvFork m))) as [m' [E [F S]]];
      [exact H|].
    cbv zeta in E, F. simpl script in E, F, S.
    unfold pg1 in E, F. rewrite group_of_cons in E, F by lia.
    exists m'. split; [exact E|]. split; [|exact S].
    simpl spawn_calls.
    assert (group_of pg (pid :: forked (List.length rest) (tl (tl (script m))))
            = if pg =? 0 then pid else pg) as G.
    { unfold group_of. now destruct (pg =? 0). }
    rewrite G at 1.
    apply (Frame_same_trans [EvFork; EvSetpgid pid (if pg =? 0 then pid else pg)] _ m
             (called (EvSetpgid pid (if pg =? 0 then pid else pg)) (called EvFork m)));
      [|exact F].
    apply (Frame_same_trans [EvFork] [EvSetpgid pid _] m (called EvFork m));
      auto using Frame_called.
Qed.

Lemma nth_tl_tl {A : Type} (k : nat) (l : list A) d :
  nth (2 * S k) l d = nth (2 * k) (tl (tl l)) d.
Proof.
  replace (2 * S k)%nat with (S (S (2 * k))) by lia.
  destruct l as [|a [|b l]]; simpl; try reflexivity; now destruct (k + (k + 0))%nat.
Qed.

(** A [fork] fails after the children [forked] were made. *)
Lemma spawn_fails rest : forall i n fds bg pg pids m,
  let new := forked (List.length rest) (script m) in
  (List.length new < List.length rest)%nat ->
  a_ret (nth (2 * List.length new) (script m) no_answer) < 0 ->
  exists m',
    spawn rest i n fds bg pg pids m = (Ret None, m')
    /\ Frame same (spawn_calls (group_of pg new) new ++ [EvFork; EvPerror "fork"]) m m'.
Proof.
  induction rest as [|c rest IH]; intros i n fds bg pg pids m; cbv zeta;
    intros L N; [simpl in L; lia|].
  cbn [spawn]. cbn [List.length forked] in L, N |- *.
  rewrite bind_syscall. unfold next_answer.
  set (pid := a_ret (hd no_answer (script m))) in *.
  destruct (0 <? pid) eqn:P.
  - apply Z.ltb_lt in P. cbn [List.length] in L, N.
    assert ((pid <? 0) = false) as -> by (apply Z.ltb_ge; lia).
    assert ((pid =? 0) = false) as -> by (apply Z.eqb_neq; lia).
    rewrite bind_syscall.
    rewrite nth_tl_tl in N.
    set (pg1 := if pg =? 0 then pid else pg).
    destruct (IH (S i) n fds bg pg1 (pids ++ [pid])
                (called (EvSetpgid pid pg1) (called EvFork m))) as [m' [E F]];
      [simpl script; lia|exact N|].
    cbv zeta in E, F. simpl script in E, F.
    unfold pg1 in E, F. rewrite group_of_cons in F by lia.
    exists m'. split; [exact E|].
    simpl spawn_calls.
    assert (group_of pg (pid :: forked (List.length rest) (tl (tl (script m))))
            = if pg =? 0 then pid else pg) as G.
    { unfold group_of. now destruct (pg =? 0). }
    rewrite G at 1.
    apply (Frame_same_trans [EvFork; EvSetpgid pid (if pg =? 0 then pid else pg)] _ m
             (called (EvSetpgid pid (if pg =? 0 then pid else pg)) (called EvFork m)));
      [|exact F].
    apply (Frame_same_trans [EvFork] [EvSetpgid pid _] m (called EvFork m));
      auto using Frame_called.
  - cbn [List.length] in N. assert (pid < 0) as Neg.
    { unfold pid. destruct (script m); exact N. }
    assert ((pid <? 0) = true) as -> by (apply Z.ltb_lt; lia).
    eexists. split; [reflexivity|]. simpl.
    apply (Frame_same_trans [EvFork] [EvPerror "fork"] m (called EvFork m));
      auto using Frame_called, Frame_emitted.
Qed.

Lemma close_all_run fds : forall m,
  exists m',
    close_all fds m = (Ret tt, m')
    /\ Frame same (close_calls fds) m m'
    /\ script m' = skipn (List.length (close_calls fds)) (script m).
Proof.
  induction fds as [|fd fds IH]; intros m; simpl.
  - exists m. split; [reflexivity|]. split; [apply Frame_refl|reflexivity].
  - rewrite bind_when_syscall. unfold close_calls. simpl.
    destruct (negb (fd =? -1)).
    + destruct (IH (called (EvClose fd) m)) as [m' [E [F S]]].
      exists m'. split; [exact E|]. split.
      * exact (Frame_same_trans [EvClose fd] _ _ _ _ (Frame_called _ _) F).
      * rewrite S, script_called_tl. cbn [List.length map].
        fold (close_calls fds). now destruct (script m); [rewrite skipn_nil|].
    + apply IH.
Qed.

(** The foreground wait ends as the answers say. *)
Lemma wait_loop_run fuel : forall pg st m,
  (List.length (script m) < fuel)%nat ->
  exists m',
    wait_loop fuel pg st m = (Ret (snd (waited (script m) st)), m')
    /\ Frame same (repeat (EvWaitpid (- pg) Sys.WUNTRACED)
                     (S (fst (waited (script m) st)))) m m'.
Proof.
  induction fuel as [|fuel IH]; intros pg st m Hf; [lia|].
  cbn [wait_loop]. rewrite bind_syscall. unfold next_answer.
  destruct (script m) as [|a sc] eqn:S.
  - cbn [hd waited fst snd]. simpl. eexists. split; [reflexivity|].
    apply Frame_called.
  - cbn [hd waited].
    set (st1 := if 0 <? a_ret a then out0 a else st).
    destruct ((0 <? a_ret a) && negb (Sys.WIFSTOPPED st1) && negb (Sys.WIFEXITED st1)
              && negb (Sys.WIFSIGNALED st1)) eqn:C; cbn [fst snd].
    + destruct (IH pg st1 (called (EvWaitpid (- pg) Sys.WUNTRACED) m)) as [m' [E F]].
      { rewrite script_called_tl, S. simpl in *. lia. }
      rewrite script_called_tl, S in E, F. cbn [tl] in E, F.
      exists m'. split; [exact E|].
      exact (Frame_same_trans [EvWaitpid (- pg) Sys.WUNTRACED] _ _ _ _
               (Frame_called _ _) F).
    + eexists. split; [reflexivity|apply Frame_called].
Qed.

Lemma length_spawn_calls pg pids :
  List.length (spawn_calls pg pids) = (2 * List.length pids)%nat.
Proof. induction pids as [|p pids IH]; simpl; [reflexivity|]. rewrite IH. lia. Qed.

Lemma length_setup_calls n sc :
  List.length (setup_calls n sc)
  = (List.length (close_calls (pipe_fds (n - 1) sc))
     + (2 * List.length (forked n (skipn (n - 1) sc)) + (n - 1)))%nat.
Proof.
  unfold setup_calls. rewrite !length_app, repeat_length, length_spawn_calls. lia.
Qed.

(** A launch in which every [pipe] succeeds and every [fork] returns the
    pid of a child to the shell: the job is registered and, in the
    foreground, waited for. *)
Lemma launch_pipeline_ok pipeline background cmdline m :
  let n := List.length pipeline in
  let pids := forked n (skipn (n - 1) (script m)) in
  let pg := hd 0 pids in
  pipes_made (n - 1) (script m) = (n - 1)%nat ->
  List.length pids = n ->
  exists m',
    launch_pipeline pipeline background cmdline m = (Ret tt, m')
    /\ next_job_id m' = int_of (next_job_id m + 1)
    /\ shell_pgid m' = shell_pgid m
    /\ let job := mkJob (next_job_id m) pg cmdline background 0 in
       if background then
         jobs m' = jobs m ++ [job]
         /\ trace m' = trace m ++ setup_calls n (script m)
              ++ [EvOut ("[" ++ show (next_job_id m) ++ "] " ++ show pg ++ nl)]
       else
         let w := waited (wait_answers n (script m)) (uninit m) in
         jobs m' = settle pg (snd w) (jobs m ++ [job])
         /\ trace m' = trace m ++ setup_calls n (script m)
              ++ [EvTcsetpgrp Sys.STDIN_FILENO pg]
              ++ repeat (EvWaitpid (- pg) Sys.WUNTRACED) (S (fst w))
              ++ [EvTcsetpgrp Sys.STDIN_FILENO (shell_pgid m)]
              ++ stopped_report (next_job_id m) (snd w) cmdline.
Proof.
  cbv zeta. intros Hp Hf. unfold launch_pipeline.
  destruct (make_pipes_ok _ [] m Hp) as [m1 [E1 [F1 S1]]].
  rewrite (bind_run _ _ _ _ _ E1). cbn [app].
  rewrite <- S1 in Hf.
  destruct (spawn_ok pipeline 0 (List.length pipeline)
              (pipe_fds (List.length pipeline - 1) (script m)) background 0 [] m1 Hf)
    as [m2 [E2 [F2 S2]]].
  cbv zeta in E2, F2. rewrite (bind_run _ _ _ _ _ E2).
  rewrite S1 in E2, F2, Hf, S2 |- *.
  set (pids := forked (List.length pipeline) (skipn (List.length pipeline - 1) (script m)))
    in *.
  change (group_of 0 pids) with (hd 0 pids) in *.
  destruct (close_all_run (pipe_fds (List.length pipeline - 1) (script m)) m2)
    as [m3 [E3 [F3 S3]]].
  rewrite (bind_run _ _ _ _ _ E3).
  assert (script m3 = skipn (List.length (setup_calls (List.length pipeline) (script m)))
                        (script m)) as S.
  { rewrite S3, S2, !skipn_skipn, length_setup_calls. fold pids. rewrite Hf.
    f_equal. lia. }
  pose proof (Frame_same_trans _ _ _ _ _ (Frame_same_trans _ _ _ _ _ F1 F2) F3) as F.
  destruct F as [Fj Fn Fs Fu Ft _]. unfold same in Fj.
  rewrite <- app_assoc in Ft. fold pids in Ft.
  change (repeat EvPipe (List.length pipeline - 1) ++ spawn_calls (hd 0 pids) pids
          ++ close_calls (pipe_fds (List.length pipeline - 1) (script m)))
    with (setup_calls (List.length pipeline) (script m)) in Ft.
  unfold add_job. rewrite bind_assoc, bind_gets.
  destruct background; simpl.
  - eexists. split; [reflexivity|]. simpl.
    rewrite Fj, Fn, Fs, Ft. repeat split; try reflexivity.
    now rewrite <- ?app_assoc.
  - unfold bind at 1. simpl.
    rewrite bind_syscall, bind_gets.
    unfold loop_fuel. rewrite bind_gets.
    match goal with
    | |- exists _, bind (wait_loop ?f ?p ?u) _ ?mm = _ /\ _ =>
        destruct (wait_loop_run f p u mm) as [m4 [E4 F4]]; [simpl; lia|];
        assert (script mm = wait_answers (List.length pipeline) (script m)) as S4
          by (unfold wait_answers; cbn [script called with_jobs with_next_job_id];
              rewrite S; now rewrite <- skipn_skipn with (x := 1%nat));
        rewrite (bind_run _ _ _ _ _ E4); clear E4;
        rewrite S4 in F4 |- *;
        change u with (uninit m3) in F4 |- *;
        rewrite Fu in F4 |- *
    end.
    set (w := waited (wait_answers (List.length pipeline) (script m)) (uninit m)) in *.
    destruct F4 as [Gj Gn Gs Gu Gt _]. unfold same in Gj. simpl in Gj, Gn, Gs, Gu, Gt.
    rewrite bind_gets, bind_syscall.
    destruct (Sys.WIFSTOPPED (snd w)) eqn:W; simpl;
      (eexists; split; [reflexivity|]); simpl;
      (split; [now rewrite ?Gn, ?Fn|]); (split; [now rewrite ?Gs, ?Fs|]);
      unfold settle, stopped_report; rewrite W;
      rewrite ?Gj, ?Gn, ?Gs, ?Gt, ?Fj, ?Fn, ?Fs, ?Ft;
      (split; [reflexivity|]);
      rewrite <- ?app_assoc; simpl; rewrite <- ?app_assoc; reflexivity.
Qed.

(** A launch in which a [pipe] or a [fork] fails: the failure is reported
    and the launch ends there. *)
Lemma launch_pipeline_fails pipeline background cmdline m :
  let n := List.length pipeline in
  let made := pipes_made (n - 1) (script m) in
  let pids := forked n (skipn (n - 1) (script m)) in
  ((made < n - 1)%nat ->
   exists m',
     launch_pipeline pipeline background cmdline m = (Ret tt, m')
     /\ Frame same (repeat EvPipe (S made) ++ [EvPerror "pipe"]) m m')
  /\ (made = (n - 1)%nat -> (List.length pids < n)%nat ->
      a_ret (nth (2 * List.length pids) (skipn (n - 1) (script m)) no_answer) < 0 ->
      exists m',
        launch_pipeline pipeline background cmdline m = (Ret tt, m')
        /\ Frame same (repeat EvPipe (n - 1) ++ spawn_calls (group_of 0 pids) pids
                        ++ [EvFork; EvPerror "fork"]) m m').
Proof.
  cbv zeta. unfold launch_pipeline. split.
  - intros H. destruct (make_pipes_fails _ [] m H) as [m1 [E1 F1]].
    rewrite (bind_run _ _ _ _ _ E1). now exists m1.
  - intros Hp L N.
    destruct (make_pipes_ok _ [] m Hp) as [m1 [E1 [F1 S1]]].
    rewrite (bind_run _ _ _ _ _ E1). cbn [app].
    rewrite <- S1 in L, N.
    destruct (spawn_fails pipeline 0 (List.length pipeline)
                (pipe_fds (List.length pipeline - 1) (script m)) background 0 [] m1 L N)
      as [m2 [E2 F2]].
    rewrite (bind_run _ _ _ _ _ E2). exists m2. split; [reflexivity|].
    rewrite S1 in F2.
    exact (Frame_same_trans _ _ _ _ _ F1 F2).
Qed.
(** * The claims *)

(** ** Claim C1 *)




























Lemma bind_set_shell_pgid {B : Type} v (k : unit -> Proc B) m :
  bind (set_shell_pgid v) k m = k tt (with_shell_pgid v m).
Proof. reflexivity. Qed.

(** [main] up to its loop: the job table and the counter of ids are those
    it started with, and the shell's process group is the pid that [getpid]
    returned. *)
Lemma main_starts input m :
  exists m0,
    main input m = shell_loop input m0
    /\ jobs m0 = jobs m /\ next_job_id m0 = next_job_id m
    /\ shell_pgid m0 = a_ret (next_answer m).
Proof.
  unfold main. rewrite bind_syscall, bind_set_shell_pgid, bind_syscall, bind_when_emit.
  rewrite !bind_syscall.
  eexists. split; [reflexivity|].
  match goal with |- context [if ?c then _ else _] => destruct c end;
    repeat split; reflexivity.
Qed.






(** ** Claim C2 *)

Lemma setup_calls_before n sc : Forall before_handoff (setup_calls n sc).
Proof.
  unfold setup_calls, spawn_calls, close_calls. rewrite !Forall_app, !Forall_forall.
  split; [|split].
  - intros e H. apply repeat_spec in H. subst e. now split.
  - intros e H. apply in_flat_map in H. destruct H as [pid [_ [<-|[<-|[]]]]]; now split.
  - intros e H. apply in_map_iff in H. destruct H as [fd [<- _]]. now split.
Qed.

Lemma setup_calls_join n sc :
  Forall (joins (hd 0 (forked n (skipn (n - 1) sc)))) (setup_calls n sc).
Proof.
  unfold setup_calls, spawn_calls, close_calls. rewrite !Forall_app, !Forall_forall.
  split; [|split].
  - intros e H. apply repeat_spec in H. subst e. intros pid g E. discriminate E.
  - intros e H. apply in_flat_map in H. destruct H as [pid [_ [<-|[<-|[]]]]];
      intros pid' g E; [discriminate E|now inversion E].
  - intros e H. apply in_map_iff in H. destruct H as [fd [<- _]].
    intros pid g E. discriminate E.
Qed.

(** Calls other than [tcsetpgrp] leave the terminal as it is. *)
Lemma tty_after_app own evs1 evs2 t :
  tty_after own (evs1 ++ evs2) t = tty_after own evs2 (tty_after own evs1 t).
Proof. apply fold_left_app. Qed.

Lemma tty_after_quiet own evs t :
  Forall (fun e => is_tcsetpgrp e = false) evs -> tty_after own evs t = t.
Proof.
  intros H. revert t. induction H as [|e evs He _ IH]; intros t; [reflexivity|].
  cbn [tty_after fold_left]. fold (tty_after own evs (tty_call own t e)).
  rewrite IH. destruct t; [|reflexivity]. now destruct e.
Qed.

Lemma tty_after_waits own pg k t :
  tty_after own (repeat (EvWaitpid (- pg) Sys.WUNTRACED) k) t = t.
Proof.
  apply tty_after_quiet. apply Forall_forall. intros e H.
  apply repeat_spec in H. now subst e.
Qed.

(** The terminal across a hand-over, the wait and the reclaiming call of a
    shell that had the terminal. *)
Lemma tty_round_trip own pg pre waits :
  pg <> own ->
  Forall before_handoff pre ->
  Forall (fun e => is_tcsetpgrp e = false) waits ->
  tty_after own (pre ++ [EvTcsetpgrp Sys.STDIN_FILENO pg] ++ waits) (Foreground own)
  = Foreground pg
  /\ tty_after own (pre ++ [EvTcsetpgrp Sys.STDIN_FILENO pg] ++ waits
                    ++ [EvTcsetpgrp Sys.STDIN_FILENO own]) (Foreground own)
     = ShellStopped pg.
Proof.
  intros N Hp Hw.
  assert (tty_after own pre (Foreground own) = Foreground own) as P.
  { apply tty_after_quiet. eapply Forall_impl; [|exact Hp]. now intros e [_ H]. }
  assert (forall t, tty_after own waits t = t) as W
    by (intros t; now apply tty_after_quiet).
  apply Z.eqb_neq in N.
  split; rewrite !tty_after_app, P, W; cbn [tty_after fold_left tty_call];
    rewrite Z.eqb_refl; cbn [fold_left tty_call]; [reflexivity|now rewrite N].
Qed.

(** C2 (what the code does).  A foreground launch in which every [pipe] and
    every [fork] succeeds makes, in the shell, the set-up calls, none of them
    a wait or a [tcsetpgrp], which put every child into the group [pg] of
    the job; [tcsetpgrp] to that group; the [waitpid] calls on that group
    that the answers determine; [tcsetpgrp] to the shell's own group; and
    only then what depends on the wait status: the Stopped report and the
    new state of the job.  So the terminal is handed over before the wait,
    and during the wait its foreground group is [pg], whatever the status.
    But the reclaiming call is made by a shell that is then in a background
    group and has left SIGTTOU at its default: the call stops the shell and
    the foreground group stays [pg].  [fg] makes the same three calls around
    its single [waitpid], with the same end. *)
Theorem terminal_reclaim_stops_shell :
  (forall pipeline cmdline m,
      let n := List.length pipeline in
      let pids := forked n (skipn (n - 1) (script m)) in
      let pg := hd 0 pids in
      let own := shell_pgid m in
      let pre := setup_calls n (script m) in
      let w := waited (wait_answers n (script m)) (uninit m) in
      let waits := repeat (EvWaitpid (- pg) Sys.WUNTRACED) (S (fst w)) in
      pipes_made (n - 1) (script m) = (n - 1)%nat ->
      List.length pids = n ->
      pg <> own ->
      exists m',
        launch_pipeline pipeline false cmdline m = (Ret tt, m')
        /\ Forall before_handoff pre
        /\ Forall (joins pg) pre
        /\ trace m' = trace m ++ pre
             ++ [EvTcsetpgrp Sys.STDIN_FILENO pg]
             ++ waits
             ++ [EvTcsetpgrp Sys.STDIN_FILENO own]
             ++ stopped_report (next_job_id m) (snd w) cmdline
        /\ jobs m' = settle pg (snd w)
                       (jobs m ++ [mkJob (next_job_id m) pg cmdline false 0])
        /\ tty_after own (pre ++ [EvTcsetpgrp Sys.STDIN_FILENO pg] ++ waits)
             (Foreground own) = Foreground pg
        /\ tty_after own (pre ++ [EvTcsetpgrp Sys.STDIN_FILENO pg] ++ waits
                          ++ [EvTcsetpgrp Sys.STDIN_FILENO own])
             (Foreground own) = ShellStopped pg)
  /\ (forall args i k m,
         let pg := pgid (nth k (jobs m) job0) in
         let own := shell_pgid m in
         let pre := EvKill (- pg) SIGCONT
                    :: (if a_ret (next_answer m) <? 0
                        then [EvPerror "kill(SIGCONT)"] else []) in
         let waits := [EvWaitpid (- pg) Sys.WUNTRACED] in
         job_id_of_args args = inr i -> resolve_job i (jobs m) = Some k ->
         pg <> own ->
         exists m',
           run_builtin ("fg" :: args) m = (Ret 0, m')
           /\ Forall before_handoff pre
           /\ trace m' = trace m ++ pre
                ++ [EvTcsetpgrp Sys.STDIN_FILENO pg]
                ++ waits
                ++ [EvTcsetpgrp Sys.STDIN_FILENO own]
           /\ jobs m'
              = remove_completed
                  (update_at k
                     (fun j => set_status (if Sys.WIFSTOPPED (fg_status k m) then 1 else 2)
                                 (set_is_background false j))
                     (jobs m))
           /\ tty_after own (pre ++ [EvTcsetpgrp Sys.STDIN_FILENO pg] ++ waits)
                (Foreground own) = Foreground pg
           /\ tty_after own (pre ++ [EvTcsetpgrp Sys.STDIN_FILENO pg] ++ waits
                             ++ [EvTcsetpgrp Sys.STDIN_FILENO own])
                (Foreground own) = ShellStopped pg).
Proof.
  split.
  - intros pipeline cmdline m n pids pg own pre w waits Hp Hf N.
    destruct (launch_pipeline_ok pipeline false cmdline m Hp Hf)
      as [m' [E [_ [_ [Hj Ht]]]]].
    exists m'. split; [exact E|].
    pose proof (setup_calls_before n (script m)) as B.
    split; [exact B|]. split; [apply setup_calls_join|].
    split; [exact Ht|]. split; [exact Hj|].
    apply tty_round_trip; [exact N|exact B|].
    apply Forall_forall. intros e H. apply repeat_spec in H. now subst e.
  - intros args i k m pg own pre waits E R N.
    change (run_builtin ("fg" :: args)) with (builtin_fg args).
    rewrite (builtin_fg_resolved _ _ _ _ E R).
    exists (fg_machine k m). split; [reflexivity|].
    assert (Forall before_handoff pre) as B.
    { unfold pre. constructor; [now split|].
      destruct (a_ret (next_answer m) <? 0); repeat constructor. }
    split; [exact B|]. split; [apply trace_fg_machine|].
    split; [apply jobs_fg_machine|].
    apply tty_round_trip; [exact N|exact B|]. now repeat constructor.
Qed.

Lemma terminal_reclaim_stops_shell_witness :
  (let m := machine_of []
              [ok 200; ok 0; ok 0; mkAnswer 200 [st_exited] EmptyString None; ok 0] in
   exists m',
     launch_pipeline [simple_stage ["cat"]] false "cat" m = (Ret tt, m')
     /\ trace m' = [EvFork; EvSetpgid 200 200;
                    EvTcsetpgrp Sys.STDIN_FILENO 200;
                    EvWaitpid (- 200) Sys.WUNTRACED;
                    EvTcsetpgrp Sys.STDIN_FILENO 100]
     /\ jobs m' = []
     /\ tty_after 100 [EvFork; EvSetpgid 200 200;
                       EvTcsetpgrp Sys.STDIN_FILENO 200;
                       EvWaitpid (- 200) Sys.WUNTRACED] (Foreground 100)
        = Foreground 200
     /\ tty_after 100 (trace m') (Foreground 100) = ShellStopped 200)
  /\ (let m := machine_of live_jobs
                 [ok 0; ok 0; mkAnswer 600 [st_stopped] EmptyString None; ok 0] in
      exists m',
        run_builtin ["fg"; "%2"] m = (Ret 0, m')
        /\ trace m' = [EvKill (- 600) SIGCONT;
                       EvTcsetpgrp Sys.STDIN_FILENO 600;
                       EvWaitpid (- 600) Sys.WUNTRACED;
                       EvTcsetpgrp Sys.STDIN_FILENO 100]
        /\ tty_after 100 (trace m') (Foreground 100) = ShellStopped 600).
Proof.
  split; cbv zeta.
  - destruct (proj1 terminal_reclaim_stops_shell [simple_stage ["cat"]] "cat"
                (machine_of []
                   [ok 200; ok 0; ok 0; mkAnswer 200 [st_exited] EmptyString None; ok 0]))
      as [m' [E [_ [_ [T [J [H1 H2]]]]]]];
      [reflexivity|reflexivity|discriminate|].
    exists m'. split; [exact E|]. split; [exact T|]. split; [exact J|].
    split; [exact H1|]. rewrite T. exact H2.
  - destruct (proj2 terminal_reclaim_stops_shell ["%2"] 2 1%nat
                (machine_of live_jobs
                   [ok 0; ok 0; mkAnswer 600 [st_stopped] EmptyString None; ok 0]))
      as [m' [E [_ [T [_ [_ H2]]]]]];
      [reflexivity|reflexivity|discriminate|].
    exists m'. split; [exact E|]. split; [exact T|]. rewrite T. exact H2.
Defined.

(** ** Claim C3 *)

Lemma distinct_pgids_refl m : distinct_pgids m m.
Proof. intros H; exact H. Qed.

Lemma distinct_pgids_trans m1 m2 m3 :
  distinct_pgids m1 m2 -> distinct_pgids m2 m3 -> distinct_pgids m1 m3.
Proof. unfold distinct_pgids. auto. Qed.

Lemma keeps_bind {A B : Type} (p : Proc A) (k : A -> Proc B) :
  keeps_distinct p -> (forall a, keeps_distinct (k a)) -> keeps_distinct (bind p k).
Proof. apply always_bind. apply distinct_pgids_trans. Qed.

Lemma keeps_same_jobs {A : Type} (p : Proc A) :
  (forall m, jobs (snd (p m)) = jobs m) -> keeps_distinct p.
Proof. intros H m. unfold distinct_pgids. now rewrite H. Qed.

Lemma keeps_modify f :
  (forall js, NoDup (pgids js) -> NoDup (pgids (f js))) ->
  keeps_distinct (modify_jobs f).
Proof. intros H m. unfold distinct_pgids. simpl. apply H. Qed.

Lemma keeps_update_at k f :
  (forall j, pgid (f j) = pgid j) -> keeps_distinct (modify_jobs (update_at k f)).
Proof. intros H. apply keeps_modify. intros js. now rewrite pgids_update_at. Qed.

Lemma keeps_remove_completed : keeps_distinct remove_completed_jobs.
Proof. apply keeps_modify. intros js. apply NoDup_pgids_filter. Qed.

Lemma keeps_when b (p : Proc unit) : keeps_distinct p -> keeps_distinct (when b p).
Proof. apply always_when. apply distinct_pgids_refl. Qed.

Ltac keeps_step :=
  first
    [ apply keeps_bind; [|intros ?]
    | apply keeps_when
    | apply keeps_remove_completed
    | apply keeps_update_at; reflexivity
    | apply keeps_same_jobs; reflexivity ].

Lemma print_jobs_keeps js : keeps_distinct (print_jobs js).
Proof.
  induction js as [|j js IH]; simpl.
  - apply keeps_same_jobs; reflexivity.
  - apply keeps_bind; [apply keeps_same_jobs; reflexivity|intros _; exact IH].
Qed.

Lemma job_arg_keeps args : keeps_distinct (job_arg args).
Proof.
  unfold job_arg. destruct (job_id_of_args args); apply keeps_same_jobs; reflexivity.
Qed.

Lemma run_builtin_keeps av : keeps_distinct (run_builtin av).
Proof.
  destruct av as [|cmd args]; simpl; [apply keeps_same_jobs; reflexivity|].
  destruct (String.eqb cmd "cd").
  { unfold builtin_cd. apply keeps_bind.
    - destruct args; repeat keeps_step.
    - intros path. repeat keeps_step. }
  destruct (String.eqb cmd "exit"); [apply keeps_same_jobs; reflexivity|].
  destruct (String.eqb cmd "jobs").
  { unfold builtin_jobs.
    apply keeps_bind; [apply keeps_same_jobs; reflexivity|intros js].
    apply keeps_bind; [apply print_jobs_keeps|intros _].
    repeat keeps_step. }
  destruct (String.eqb cmd "fg").
  { unfold builtin_fg, job_at.
    apply keeps_bind; [apply job_arg_keeps|intros i].
    apply keeps_bind; [apply keeps_same_jobs; reflexivity|intros js].
    destruct (resolve_job i js); repeat keeps_step. }
  destruct (String.eqb cmd "bg").
  { unfold builtin_bg, job_at.
    apply keeps_bind; [apply job_arg_keeps|intros i].
    apply keeps_bind; [apply keeps_same_jobs; reflexivity|intros js].
    destruct (resolve_job i js); repeat keeps_step. }
  apply keeps_same_jobs; reflexivity.
Qed.

Lemma reap_loop_keeps fuel : keeps_distinct (reap_loop fuel).
Proof.
  induction fuel as [|fuel IH]; simpl.
  - apply keeps_same_jobs; reflexivity.
  - apply keeps_bind; [apply keeps_same_jobs; reflexivity|intros a].
    destruct (a_ret a <=? 0); [apply keeps_same_jobs; reflexivity|].
    apply keeps_bind; [apply keeps_same_jobs; reflexivity|intros g].
    apply keeps_bind; [|intros _; exact IH].
    apply keeps_when, keeps_modify. intros js. now rewrite pgids_reconcile.
Qed.

Lemma sigchld_handler_keeps sig : keeps_distinct (sigchld_handler sig).
Proof.
  unfold sigchld_handler, loop_fuel.
  apply keeps_bind; [apply keeps_same_jobs; reflexivity|intros e].
  apply keeps_bind; [apply keeps_same_jobs; reflexivity|intros fuel].
  apply keeps_bind; [apply reap_loop_keeps|intros _].
  apply keeps_same_jobs; reflexivity.
Qed.

(** C3 (as the code has it).  [add_job] appends whatever process-group id it
    is given, so the table has one job per process group as long as no job
    of the table, live or Done, has the id handed to [add_job].  Under that
    condition the ids of the table are pairwise distinct, hence so are those
    of the live jobs, and [mark_job_as_done], [mark_job_as_stopped],
    [remove_completed_jobs], every builtin ([fg], [bg], [jobs] among them)
    and the SIGCHLD handler keep them so. *)
Theorem one_job_per_pgid_preserved (m : Machine) :
  NoDup (pgids (jobs m)) ->
  one_job_per_live_pgid (jobs m)
  /\ (forall p c b, ~ In p (pgids (jobs m)) ->
                    NoDup (pgids (jobs (snd (add_job p c b m)))))
  /\ (forall p, NoDup (pgids (jobs (snd (mark_job_as_done p m)))))
  /\ (forall p, NoDup (pgids (jobs (snd (mark_job_as_stopped p m)))))
  /\ NoDup (pgids (jobs (snd (remove_completed_jobs m))))
  /\ (forall av, NoDup (pgids (jobs (snd (run_builtin av m)))))
  /\ (forall sig, NoDup (pgids (jobs (snd (sigchld_handler sig m))))).
Proof.
  intros H. split; [now apply NoDup_pgids_live|].
  split.
  { intros p c b Hp. simpl. unfold pgids. rewrite map_app. simpl.
    apply NoDup_app; [exact H|constructor; [intros []|constructor]|].
    intros x Hx [<-|[]]. exact (Hp Hx). }
  split; [intros p; simpl; now rewrite pgids_mark_done|].
  split; [intros p; simpl; now rewrite pgids_mark_stopped|].
  split; [simpl; now apply NoDup_pgids_filter|].
  split.
  - intros av. now apply run_builtin_keeps.
  - intros sig. now apply sigchld_handler_keeps.
Qed.

Lemma one_job_per_pgid_preserved_witness :
  one_job_per_live_pgid (jobs (machine_of two_jobs []))
  /\ NoDup (pgids (jobs (snd (add_job 700 "ls" false (machine_of two_jobs []))))).
Proof.
  assert (NoDup (pgids (jobs (machine_of two_jobs [])))) as H.
  { simpl. constructor; [simpl; intros [H|[]]; discriminate|].
    constructor; [intros []|constructor]. }
  destruct (one_job_per_pgid_preserved (machine_of two_jobs []) H) as [L [A _]].
  split; [exact L|]. apply A.
  simpl. intros [E|[E|[]]]; discriminate.
Defined.

(** C3 as stated fails for [add_job]: it does not look for a live job with
    the same process-group id.  Here the table holds a Running job of group
    500 and [fork] answers 500 for the first process of a new background
    pipeline.  A Done job of the same group matters as well:
    [mark_job_as_stopped] brings it back among the live ones. *)
Lemma add_job_duplicates_live_pgid :
  let m := machine_of one_job [ok 500; ok 0] in
  let m' := snd (launch_pipeline [mkCommand ["cat"] EmptyString EmptyString false]
                   true "cat" m) in
  let js := [mkJob 1 500 "sleep 100 &" true 2; mkJob 3 500 "cat" true 0] in
  one_job_per_live_pgid (jobs m)
  /\ jobs m' = jobs (snd (add_job 500 "cat" true m))
  /\ jobs m' = [mkJob 1 500 "sleep 100 &" true 0; mkJob 3 500 "cat" true 0]
  /\ ~ one_job_per_live_pgid (jobs m')
  /\ one_job_per_live_pgid js
  /\ ~ one_job_per_live_pgid (mark_stopped 500 js).
Proof.
  cbv zeta. split; [|split; [|split; [|split; [|split]]]].
  - unfold one_job_per_live_pgid. simpl.
    constructor; [intros []|constructor].
  - reflexivity.
  - reflexivity.
  - unfold one_job_per_live_pgid. simpl. intros H.
    inversion H as [|x l Hin _]; subst. apply Hin. now left.
  - unfold one_job_per_live_pgid. simpl.
    constructor; [intros []|constructor].
  - unfold one_job_per_live_pgid. simpl. intros H.
    inversion H as [|x l Hin _]; subst. apply Hin. now left.
Qed.

(** ** Claim C4 *)

Lemma find_job_by_id_absent i js :
  (forall j, In j js -> id j <> i) -> find_job_by_id i js = None.
Proof.
  intros H. apply find_index_none. intros j Hj.
  apply Z.eqb_neq. now apply H.
Qed.

Lemma unresolved_resolve args js :
  unresolved args js ->
  exists i, job_id_of_args args = inr i /\ resolve_job i js = None.
Proof.
  intros [i [E [[Hi Hj]|[Hi Hj]]]]; exists i; split; try assumption.
  - now rewrite Hi, Hj.
  - unfold resolve_job. apply Z.eqb_neq in Hi. rewrite Hi.
    now apply find_job_by_id_absent.
Qed.

(** C4 (as the code has it).  When the job argument of [fg] or [bg] does not
    resolve, that is: the explicit id is not [-1] and no job of the table
    has it, or the table is empty and the id is absent or is [-1] (which
    the builtin takes for an absent one), the builtin writes "no such job"
    to the error stream, returns [-1], and leaves the job table and every
    other part of the shell's state unchanged. *)
Theorem fg_bg_no_such_job (cmd : string) (args : list string) (m : Machine) :
  cmd = "fg" \/ cmd = "bg" ->
  unresolved args (jobs m) ->
  run_builtin (cmd :: args) m
  = (Ret (-1), emitted (EvErr (cmd ++ ": no such job" ++ nl)) m)
  /\ jobs (snd (run_builtin (cmd :: args) m)) = jobs m
  /\ job_id_of_args [] = inr (-1).
Proof.
  intros Hc Hu. apply unresolved_resolve in Hu. destruct Hu as [i [E R]].
  assert (run_builtin (cmd :: args) m
          = (Ret (-1), emitted (EvErr (cmd ++ ": no such job" ++ nl)) m)) as H.
  { destruct Hc as [-> | ->].
    - change (run_builtin ("fg" :: args)) with (builtin_fg args).
      now apply builtin_fg_unresolved with i.
    - change (run_builtin ("bg" :: args)) with (builtin_bg args).
      now apply builtin_bg_unresolved with i. }
  rewrite H. repeat split.
Qed.

Lemma fg_bg_no_such_job_witness :
  run_builtin ["fg"; "%7"] (machine_of one_job [])
  = (Ret (-1), emitted (EvErr ("fg: no such job" ++ nl)) (machine_of one_job [])).
Proof.
  apply (fg_bg_no_such_job "fg" ["%7"] (machine_of one_job [])).
  - left; reflexivity.
  - exists 7. split; [reflexivity|]. right. split; [lia|].
    simpl. intros j [<-|[]]. simpl. lia.
Defined.

(** C4 as stated fails for the explicit id [-1]: no job has that id, and yet
    [fg -1] takes the last job to the foreground, reports nothing and
    changes the table. *)
Lemma fg_minus_one_takes_last_job :
  let m := machine_of one_job
             [ok 0; ok 0; mkAnswer 500 [st_stopped] EmptyString None; ok 0] in
  job_id_of_args ["-1"] = inr (-1)
  /\ (forall j, In j (jobs m) -> id j <> -1)
  /\ fst (run_builtin ["fg"; "-1"] m) = Ret 0
  /\ jobs (snd (run_builtin ["fg"; "-1"] m)) = [mkJob 1 500 "sleep 100 &" false 1]
  /\ jobs (snd (run_builtin ["fg"; "-1"] m)) <> jobs m
  /\ trace (snd (run_builtin ["fg"; "-1"] m))
     = [EvKill (-500) SIGCONT; EvTcsetpgrp 0 500; EvWaitpid (-500) 2;
        EvTcsetpgrp 0 100].
Proof.
  cbv zeta. split; [reflexivity|]. split.
  - simpl. intros j [<-|[]]. simpl. lia.
  - vm_compute. repeat split; discriminate.
Qed.

(** ** Claim C5 *)

Lemma shell_step_fg_abc m :
  shell_step "fg abc" m = (Throw (invalid_argument "stoi"), m).
Proof. reflexivity. Qed.

Lemma shell_loop_fg_abc rest m :
  fst (shell_loop ("fg abc" :: rest) m) = Throw (invalid_argument "stoi").
Proof.
  change (shell_loop ("fg abc" :: rest))
    with (prompt ;; shell_step "fg abc" ;; shell_loop rest).
  unfold prompt. rewrite bind_assoc, bind_syscall, bind_emit.
  unfold bind. now rewrite shell_step_fg_abc.
Qed.

(** C5 fails on the code.  The line [fg abc] makes [std::stoi] throw
    [std::invalid_argument]; nothing catches it, so the exception leaves
    [main] and the shell terminates, whatever lines follow and whatever the
    system answers.  A missing job, by contrast, is reported and the prompt
    loop goes on to the end of its input.  By [main_ends_in_shell] such an
    exception is the only end of the shell's own process besides the [exit]
    builtin and the end of the input. *)
Theorem non_numeric_job_id_terminates_shell (rest : list string) (m : Machine) :
  fst (main ("fg abc" :: rest) m) = Throw (invalid_argument "stoi")
  /\ fst (main ["fg 7"; "fg abc"] (machine_of [] []))
     = Throw (invalid_argument "stoi")
  /\ fst (main ["fg 7"] (machine_of [] [])) = Ret 0.
Proof.
  split.
  - unfold main. rewrite bind_syscall. unfold set_shell_pgid. unfold bind at 1.
    rewrite bind_syscall, bind_when_emit, !bind_syscall.
    apply shell_loop_fg_abc.
  - split; reflexivity.
Qed.

(** ** Claim C6 *)

Lemma has_input_iff c i :
  has_input c i = true <-> i = 0%nat /\ infile c <> EmptyString.
Proof.
  unfold has_input, str_nonempty.
  rewrite andb_true_iff, Nat.eqb_eq, negb_true_iff, String.eqb_neq. tauto.
Qed.

Lemma has_output_iff c i n :
  has_output c i n = true <-> i = (n - 1)%nat /\ outfile c <> EmptyString.
Proof.
  unfold has_output, str_nonempty.
  rewrite andb_true_iff, Nat.eqb_eq, negb_true_iff, String.eqb_neq. tauto.
Qed.

(** C6.  The [open] calls of the child of stage [i] of [n] are exactly: the
    input file, read-only, when [i] is the first stage and the stage has an
    input redirection; then the output file, when [i] is the last stage, the
    stage has an output redirection and the input redirection did not fail.
    The output file is opened write-only with O_CREAT, and with O_APPEND
    (and not O_TRUNC) exactly when the append flag of the stage is set,
    O_TRUNC (and not O_APPEND) otherwise.  When the [open] of the input file
    fails, the child reports it and exits at once with status 1. *)
Theorem redirection_flags_and_endpoints
    (c : Command) (i n : nat) (fds : list Z) (bg : bool)
    (pg in_fd out_fd : Z) (m : Machine) :
  (has_input c i = true <-> i = 0%nat /\ infile c <> EmptyString)
  /\ (has_output c i n = true <-> i = (n - 1)%nat /\ outfile c <> EmptyString)
  /\ open_input c = EvOpen (infile c) Sys.O_RDONLY None
  /\ open_output c
     = EvOpen (outfile c)
         (Z.lor (Z.lor Sys.O_WRONLY Sys.O_CREAT)
                (if append c then Sys.O_APPEND else Sys.O_TRUNC))
         (Some 420)
  /\ (Z.land (open_flags c) Sys.O_APPEND = Sys.O_APPEND <-> append c = true)
  /\ (Z.land (open_flags c) Sys.O_TRUNC = Sys.O_TRUNC <-> append c = false)
  /\ Z.land (open_flags c) Sys.O_CREAT = Sys.O_CREAT
  /\ Z.land (open_flags c) 3 = Sys.O_WRONLY
  /\ exists m1 evs,
       child_setup bg pg in_fd out_fd m = (Ret tt, m1)
       /\ adds_only (fun e => is_open e = false) m m1
       /\ trace (snd (@launch_child unit c i n fds bg pg in_fd out_fd m))
          = trace m1 ++ evs
       /\ filter is_open evs
          = (if has_input c i then [open_input c] else [])
            ++ (if has_output c i n && negb (input_fails c i m1)
                then [open_output c] else [])
       /\ (has_input c i = true -> exists rest, evs = open_input c :: rest)
       /\ (has_input c i = true -> a_ret (next_answer m1) < 0 ->
           @launch_child unit c i n fds bg pg in_fd out_fd m
           = (Exit 1, emitted (EvPerror "open infile") (called (open_input c) m1))).
Proof.
  split; [apply has_input_iff|]. split; [apply has_output_iff|].
  split; [reflexivity|]. split; [reflexivity|].
  unfold open_flags.
  split; [destruct (append c); vm_compute; split; congruence|].
  split; [destruct (append c); vm_compute; split; congruence|].
  split; [now destruct (append c)|]. split; [now destruct (append c)|].
  destruct (@launch_child_opens unit c i n fds bg pg in_fd out_fd m)
    as [m1 [evs [E1 [P1 [T F]]]]].
  exists m1, evs. split; [exact E1|]. split.
  { eapply adds_only_impl; [|exact P1]. intros e H. apply H. }
  split; [exact T|]. split; [exact F|].
  destruct (@launch_child_cases unit c i n fds bg pg in_fd out_fd m)
    as [m1' [E1' [_ H]]].
  rewrite E1 in E1'. inversion E1'; subst m1'; clear E1'. cbv zeta in H.
  split.
  - intros Hi.
    destruct (@launch_child_run unit c i n fds bg pg in_fd out_fd m)
      as [m1' [E1' [_ R]]].
    rewrite E1 in E1'. inversion E1'; subst m1'; clear E1'. cbv zeta in R.
    assert (exists rest, input_events c i m1 = open_input c :: rest) as [r0 Er].
    { unfold input_events. rewrite Hi. eauto. }
    destruct (input_fails c i m1).
    + destruct R as [_ R]. rewrite T in R. apply app_inv_head in R.
      rewrite R, Er. eauto.
    + destruct (output_fails c i n (input_redirected c i m1)).
      * destruct R as [_ R]. rewrite T in R. apply app_inv_head in R.
        rewrite R, Er. simpl. eauto.
      * destruct R as [closes [m4 [_ [T4 R]]]].
        pose proof (@child_exec_emits unit c m4) as [ev2 [Te _]].
        rewrite R, Te, T4, <- !app_assoc in T. apply app_inv_head in T.
        rewrite <- T, Er. simpl. eauto.
  - intros Hi Ha. unfold input_fails in H. rewrite Hi in H.
    apply Z.ltb_lt in Ha. rewrite Ha in H. exact H.
Qed.

Lemma redirection_flags_and_endpoints_witness :
  fst (@launch_child unit cat_stage 0 1 [] false 0 (-1) (-1)
         (machine_of [] [ok 300; ok 0; ok 0; ok 0; ok 0; ok 0; ok (-1)]))
  = Exit 1.
Proof.
  destruct (redirection_flags_and_endpoints cat_stage 0 1 [] false 0 (-1) (-1)
              (machine_of [] [ok 300; ok 0; ok 0; ok 0; ok 0; ok 0; ok (-1)]))
    as [_ [_ [_ [_ [_ [_ [_ [_ [m1 [evs [E1 [_ [_ [_ [_ H]]]]]]]]]]]]]]].
  vm_compute in E1. inversion E1; subst m1; clear E1.
  rewrite H; [reflexivity|reflexivity|vm_compute; reflexivity].
Defined.

(** ** Claim C7 *)

Lemma child_exec_builtin {A : Type} c m :
  is_builtin (argv c) = true ->
  @child_exec A c m
  = (after_builtin (fst (run_builtin (argv c) m)), snd (run_builtin (argv c) m)).
Proof.
  intros B. unfold child_exec. destruct (argv c) as [|file rest]; [discriminate|].
  rewrite B. unfold bind.
  destruct (run_builtin (file :: rest) m) as [[r| | | |] m']; reflexivity.
Qed.

(** The child prepares, and runs its program if the preparation returns. *)
Lemma launch_child_prepare {A : Type} c i n fds bg pg in_fd out_fd m :
  @launch_child A c i n fds bg pg in_fd out_fd m
  = bind (child_prepare c i n fds bg pg in_fd out_fd) (fun _ => child_exec c) m.
Proof.
  unfold launch_child, child_prepare, bind.
  destruct (child_setup bg pg in_fd out_fd m) as [[[]| | | |] m1]; try reflexivity.
  destruct (redirect_input c i m1) as [[[]| | | |] m2]; try reflexivity.
  destruct (redirect_output c i n m2) as [[[]| | | |] m3]; reflexivity.
Qed.

(** The preparation returns, unless a redirection fails and ends the child
    with status 1. *)
Lemma child_prepare_cases c i n fds bg pg in_fd out_fd m :
  (exists m4, child_prepare c i n fds bg pg in_fd out_fd m = (Ret tt, m4))
  \/ (exists m', child_prepare c i n fds bg pg in_fd out_fd m = (Exit 1, m')).
Proof.
  unfold child_prepare.
  destruct (child_setup_returns bg pg in_fd out_fd m) as [m1 E1].
  rewrite (bind_run _ _ _ _ _ E1), bind_redirect_input.
  destruct (input_fails c i m1); [right; eauto|].
  rewrite bind_redirect_output.
  destruct (output_fails c i n (input_redirected c i m1)); [right; eauto|].
  destruct (close_all_spec fds (output_redirected c i n (input_redirected c i m1)))
    as [evs [m4 [E4 _]]].
  left. eauto.
Qed.

Lemma child_prepare_emits c i n fds bg pg in_fd out_fd :
  emits_only (fun e => is_execvp e = false)
    (child_prepare c i n fds bg pg in_fd out_fd).
Proof.
  unfold child_prepare.
  apply emits_bind.
  { intros m. eapply adds_only_impl; [|apply child_setup_emits]. intros e H. apply H. }
  intros _. apply emits_bind.
  { unfold redirect_input.
    destruct ((i =? 0)%nat && str_nonempty (infile c)); [|apply emits_ret].
    apply emits_bind; [now apply emits_syscall|intros fd].
    destruct (a_ret fd <? 0); repeat emits_step; reflexivity. }
  intros _. apply emits_bind.
  { unfold redirect_output.
    destruct ((i =? n - 1)%nat && str_nonempty (outfile c)); [|apply emits_ret].
    apply emits_bind; [now apply emits_syscall|intros fd].
    destruct (a_ret fd <? 0); repeat emits_step; reflexivity. }
  intros _ m. eapply adds_only_impl; [|apply close_all_emits]. intros e H. apply H.
Qed.

(** C7 (as the code has it).  When the program name of a stage is a builtin,
    the child never calls [execvp].  Unless one of its redirections fails,
    which ends it with status 1, it runs the builtin in-process, on the
    machine [m4] it has once the pipe descriptors are closed; and when the
    builtin returns, the child exits with status 0 whatever status the
    builtin returned. *)
Theorem builtin_stage_runs_in_child
    (c : Command) (i n : nat) (fds : list Z) (bg : bool)
    (pg in_fd out_fd : Z) (m : Machine) :
  is_builtin (argv c) = true ->
  let r := @launch_child unit c i n fds bg pg in_fd out_fd m in
  adds_only (fun e => is_execvp e = false) m (snd r)
  /\ ((exists m', child_prepare c i n fds bg pg in_fd out_fd m = (Exit 1, m')
                  /\ r = (Exit 1, m'))
      \/ exists m4,
           child_prepare c i n fds bg pg in_fd out_fd m = (Ret tt, m4)
           /\ r = (after_builtin (fst (run_builtin (argv c) m4)),
                   snd (run_builtin (argv c) m4))
           /\ forall status m5,
               run_builtin (argv c) m4 = (Ret status, m5) -> r = (Exit 0, m5)).
Proof.
  intros B. cbv zeta. rewrite launch_child_prepare. split.
  - apply (emits_bind (fun e => is_execvp e = false)
             (child_prepare c i n fds bg pg in_fd out_fd) (fun _ => child_exec c)).
    + apply child_prepare_emits.
    + intros _ m4. rewrite (child_exec_builtin _ _ B). cbn [snd].
      eapply adds_only_impl; [|apply run_builtin_emits]. intros e H. apply H.
  - destruct (child_prepare_cases c i n fds bg pg in_fd out_fd m) as [[m4 E]|[m' E]].
    + right. exists m4. split; [exact E|].
      rewrite (bind_run _ _ _ _ _ E), (child_exec_builtin _ _ B).
      split; [reflexivity|]. intros status m5 R. now rewrite R.
    + left. exists m'. split; [exact E|]. unfold bind. now rewrite E.
Qed.

Lemma builtin_stage_runs_in_child_witness :
  adds_only (fun e => is_execvp e = false)
    (machine_of [] [])
    (snd (@launch_child unit fg_stage 0 2 [3; 4] false 0 (-1) 4 (machine_of [] []))).
Proof.
  apply (builtin_stage_runs_in_child fg_stage 0 2 [3; 4] false 0 (-1) 4 (machine_of [] [])).
  reflexivity.
Defined.

(** C7 as stated fails: in the first stage of [fg | cat], with an empty job
    table, [fg] returns -1 and the child exits with status 0. *)
Lemma builtin_status_is_dropped :
  let m := machine_of [] [ok 300; ok 0; ok 0; ok 0; ok 0; ok 0; ok 0; ok 0; ok 0] in
  exists m4 m5,
    child_prepare fg_stage 0 2 [3; 4] false 0 (-1) 4 m = (Ret tt, m4)
    /\ run_builtin (argv fg_stage) m4 = (Ret (-1), m5)
    /\ @launch_child unit fg_stage 0 2 [3; 4] false 0 (-1) 4 m = (Exit 0, m5)
    /\ @Exit unit 0 <> Exit (-1)
    /\ 0 <> Z.land (-1) 255.
Proof.
  cbv zeta. eexists. eexists.
  split; [vm_compute; reflexivity|].
  split; [vm_compute; reflexivity|].
  split; [vm_compute; reflexivity|]. split; discriminate.
Qed.

(** ** Claim C8 *)

(** C8. [mark_job_as_done] and [mark_job_as_stopped] are idempotent and keyed
    by process-group id: applied twice they leave the machine that one
    application leaves; applied to a process group whose jobs are already
    Done (resp. Stopped) they change nothing; jobs of other groups are not
    touched; and two applications for different groups commute. *)
Theorem mark_job_idempotent_keyed (p : Z) (m : Machine) :
  (mark_job_as_done p ;; mark_job_as_done p) m = mark_job_as_done p m
  /\ (mark_job_as_stopped p ;; mark_job_as_stopped p) m = mark_job_as_stopped p m
  /\ ((forall j, In j (jobs m) -> pgid j = p -> status j = 2) ->
      mark_job_as_done p m = (Ret tt, m))
  /\ ((forall j, In j (jobs m) -> pgid j = p -> status j = 1) ->
      mark_job_as_stopped p m = (Ret tt, m))
  /\ (forall j, In j (jobs m) -> pgid j <> p ->
      In j (jobs (snd (mark_job_as_done p m)))
      /\ In j (jobs (snd (mark_job_as_stopped p m))))
  /\ (forall q, (mark_job_as_done p ;; mark_job_as_done q) m
                = (mark_job_as_done q ;; mark_job_as_done p) m
                /\ (mark_job_as_stopped p ;; mark_job_as_stopped q) m
                   = (mark_job_as_stopped q ;; mark_job_as_stopped p) m).
Proof.
  unfold mark_job_as_done, mark_job_as_stopped.
  rewrite !bind_modify_jobs. unfold modify_jobs, with_jobs; simpl.
  split; [now rewrite mark_done_idem|].
  split; [now rewrite mark_stopped_idem|].
  split; [intros H; rewrite (mark_done_noop _ _ H); now destruct m|].
  split; [intros H; rewrite (mark_stopped_noop _ _ H); now destruct m|].
  split; [intros j Hj Hp; split;
          [now apply mark_done_other|now apply mark_stopped_other]|].
  intros q. unfold bind; simpl.
  now rewrite (mark_done_comm q p), (mark_stopped_comm q p).
Qed.

Lemma mark_job_idempotent_keyed_witness :
  mark_job_as_done 500 (machine_of two_jobs []) = (Ret tt, machine_of two_jobs [])
  /\ mark_job_as_stopped 600 (machine_of two_jobs []) = (Ret tt, machine_of two_jobs []).
Proof.
  destruct (mark_job_idempotent_keyed 500 (machine_of two_jobs []))
    as [_ [_ [D _]]].
  destruct (mark_job_idempotent_keyed 600 (machine_of two_jobs []))
    as [_ [_ [_ [S _]]]].
  split.
  - apply D. simpl. intros j [<-|[<-|[]]]; simpl; intros; (reflexivity || lia).
  - apply S. simpl. intros j [<-|[<-|[]]]; simpl; intros; (reflexivity || lia).
Defined.

(** ** Claim C9 *)

Lemma length_reconcile p st js : List.length (reconcile p st js) = List.length js.
Proof.
  rewrite <- (length_map pgid (reconcile p st js)), <- (length_map pgid js).
  f_equal. apply pgids_reconcile.
Qed.

Lemma reap_loop_spec fuel : forall m,
  (List.length (script m) < fuel)%nat ->
  exists pids m',
    reap_loop fuel m = (Ret tt, m')
    /\ trace m' = trace m ++ reap_events pids
    /\ Forall (fun pid => 0 < pid) pids
    /\ (List.length pids <= List.length (script m))%nat
    /\ List.length (jobs m') = List.length (jobs m)
    /\ next_job_id m' = next_job_id m
    /\ shell_pgid m' = shell_pgid m.
Proof.
  induction fuel as [|fuel IH]; intros m Hf; [lia|].
  simpl. rewrite bind_syscall.
  destruct (a_ret (next_answer m) <=? 0) eqn:C.
  - exists [], (called reap_call m). repeat split; simpl; auto; lia.
  - assert (script m <> []) as Hs.
    { intros Hs. unfold next_answer in C. rewrite Hs in C. discriminate. }
    rewrite bind_syscall.
    set (pid := a_ret (next_answer m)) in *.
    set (m1 := called (EvGetpgid pid) (called reap_call m)).
    set (pg := a_ret (next_answer (called reap_call m))).
    set (m2 := if 0 <? pg then with_jobs (reconcile pg (out0 (next_answer m))) m1 else m1).
    assert (forall k : unit -> Proc unit,
               bind (when (0 <? pg) (modify_jobs (reconcile pg (out0 (next_answer m))))) k m1
               = k tt m2) as Hw.
    { intros k. unfold m2. now destruct (0 <? pg). }
    fold reap_call. rewrite Hw.
    assert (script m2 = tl (tl (script m))) as S2.
    { unfold m2. now destruct (0 <? pg). }
    assert (trace m2 = trace m ++ [reap_call; EvGetpgid pid]) as T2.
    { unfold m2. destruct (0 <? pg); simpl; now rewrite <- app_assoc. }
    assert (List.length (jobs m2) = List.length (jobs m)) as J2.
    { unfold m2. destruct (0 <? pg); simpl; [apply length_reconcile|reflexivity]. }
    assert (next_job_id m2 = next_job_id m /\ shell_pgid m2 = shell_pgid m) as [N2 P2].
    { unfold m2. now destruct (0 <? pg). }
    destruct (IH m2) as [pids [m' [E [T [F [L [J [N P]]]]]]]].
    { rewrite S2. destruct (script m) as [|a [|b s]]; simpl in *; try congruence; lia. }
    exists (pid :: pids), m'. split; [exact E|].
    split; [rewrite T, T2, <- app_assoc; reflexivity|].
    split; [constructor; [apply Z.leb_gt in C; exact C|exact F]|].
    split.
    { rewrite S2 in L. destruct (script m) as [|a [|b s]]; simpl in *; try congruence; lia. }
    repeat split; congruence.
Qed.

(** C9.  The SIGCHLD handler always returns, and [errno] is then what it was
    when the handler started, however many children it reaped and whatever
    the calls did to [errno] in between.  Its calls are [waitpid(-1, ...)]
    with WNOHANG set, each followed by a [getpgid] when it reported a child
    (pid > 0), and it stops at the first [waitpid] that reports none: one
    pass over the pending state changes, at most as many as the system has
    answers for.  The job vector keeps its length. *)
Theorem sigchld_handler_restores_errno (sig : Signal) (m : Machine) :
  exists pids m',
    sigchld_handler sig m = (Ret tt, m')
    /\ errno m' = errno m
    /\ trace m' = trace m ++ reap_events pids
    /\ Forall (fun pid => 0 < pid) pids
    /\ (List.length pids <= List.length (script m))%nat
    /\ Z.land reap_options Sys.WNOHANG = Sys.WNOHANG
    /\ List.length (jobs m') = List.length (jobs m)
    /\ next_job_id m' = next_job_id m
    /\ shell_pgid m' = shell_pgid m.
Proof.
  unfold sigchld_handler, loop_fuel. rewrite !bind_gets.
  destruct (reap_loop_spec (S (List.length (script m))) m) as
    [pids [m1 [E [T [F [L [J [N P]]]]]]]]; [lia|].
  rewrite (bind_run _ _ _ _ _ E).
  exists pids, (with_errno (errno m) m1).
  repeat split; assumption.
Qed.

(** ** Claim C10 *)

Lemma parse_loop_keeps (P : Command -> Prop) (n : nat) :
  forall toks, (List.length toks <= n)%nat ->
  forall cur pl bg pl' cur' bg',
    parse_loop toks cur pl bg = (pl', cur', bg') ->
    (forall c, argv c <> [] -> P c) ->
    Forall P pl -> Forall P pl'.
Proof.
  induction n as [|n IH]; intros toks Hn cur pl bg pl' cur' bg' H HP Hpl.
  - destruct toks; [|simpl in Hn; lia]. simpl in H. now inversion H; subst.
  - destruct toks as [|tk rest]; [simpl in H; now inversion H; subst|].
    simpl in H, Hn.
    destruct (String.eqb tk "|").
    { eapply IH; [|exact H|exact HP|]; [lia|].
      destruct (argv cur) eqn:E; simpl; [assumption|].
      apply Forall_app. split; [assumption|].
      constructor; [|constructor]. apply HP. now rewrite E. }
    destruct (String.eqb tk "<").
    { destruct rest as [|f rest'].
      - now inversion H; subst.
      - eapply IH; [|exact H|exact HP|exact Hpl]. simpl in Hn. lia. }
    destruct (String.eqb tk ">" || String.eqb tk ">>").
    { destruct rest as [|f rest'].
      - now inversion H; subst.
      - eapply IH; [|exact H|exact HP|exact Hpl]. simpl in Hn. lia. }
    destruct (String.eqb tk "&");
      (eapply IH; [|exact H|exact HP|exact Hpl]; lia).
Qed.

Lemma str_nonempty_true s : str_nonempty s = true <-> s <> EmptyString.
Proof. unfold str_nonempty. now rewrite negb_true_iff, String.eqb_neq. Qed.

(** C10 (as the code has it).  [parse_pipeline] keeps the stage it is
    building at the end of the tokens when that stage has no argument but a
    redirection (as for the line [> f]), drops a segment between two pipe
    tokens that has neither, and every stage before the last one has
    arguments.  When a stage without arguments is launched as the last
    stage, its output redirection is performed, but its input redirection
    only if it is also the first stage; the child then exits with status
    0 if every [open] it made succeeded and with status 1 otherwise. *)
Theorem redirect_only_stage :
  (forall toks pl cur bg,
      parse_loop toks Command0 [] false = (pl, cur, bg) ->
      redirect_only cur -> parse_pipeline toks = (pl ++ [cur], bg))
  /\ parse_pipeline (split_tokens "> f") = ([mkCommand [] EmptyString "f" false], false)
  /\ (forall rest cur pl bg,
         parse_loop ("|" :: "|" :: rest) cur pl bg = parse_loop ("|" :: rest) cur pl bg)
  /\ (forall toks, exists pl,
         Forall (fun c => argv c <> []) pl
         /\ (fst (parse_pipeline toks) = pl
             \/ exists cur, fst (parse_pipeline toks) = pl ++ [cur]
                            /\ redirect_only cur))
  /\ (forall c n fds bg pg in_fd out_fd m,
         argv c = [] -> (0 < n)%nat ->
         let i := (n - 1)%nat in
         let r := @launch_child unit c i n fds bg pg in_fd out_fd m in
         exists m1 evs,
           child_setup bg pg in_fd out_fd m = (Ret tt, m1)
           /\ adds_only (fun e => is_open e = false) m m1
           /\ trace (snd r) = trace m1 ++ evs
           /\ filter is_open evs
              = (if (n =? 1)%nat && str_nonempty (infile c) then [open_input c] else [])
                ++ (if str_nonempty (outfile c) && negb (input_fails c i m1)
                    then [open_output c] else [])
           /\ fst r = Exit (if input_fails c i m1
                               || output_fails c i n (input_redirected c i m1)
                            then 1 else 0)).
Proof.
  split.
  { intros toks pl cur bg E [Ha Hr]. unfold parse_pipeline. rewrite E, Ha.
    simpl. destruct Hr as [Hr|Hr]; apply str_nonempty_true in Hr; rewrite Hr;
      [reflexivity|now rewrite orb_true_r]. }
  split; [reflexivity|].
  split; [reflexivity|].
  split.
  { intros toks. unfold parse_pipeline.
    destruct (parse_loop toks Command0 [] false) as [[pl cur] bg] eqn:E.
    assert (Forall (fun c => argv c <> []) pl) as Hpl.
    { eapply (parse_loop_keeps _ (List.length toks) toks (le_n _)); [exact E| |constructor].
      auto. }
    simpl. destruct (argv cur) as [|a rest] eqn:Ea; simpl.
    - destruct (str_nonempty (infile cur) || str_nonempty (outfile cur)) eqn:Er.
      + exists pl. split; [assumption|]. right. exists cur. split; [reflexivity|].
        split; [assumption|].
        apply orb_true_iff in Er. now rewrite <- !str_nonempty_true.
      + exists pl. split; [assumption|now left].
    - exists (pl ++ [cur]). split; [|now left].
      apply Forall_app. split; [assumption|].
      constructor; [|constructor]. now rewrite Ea. }
  intros c n fds bg pg in_fd out_fd m Ha Hn. cbv zeta.
  destruct (@launch_child_opens unit c (n - 1) n fds bg pg in_fd out_fd m)
    as [m1 [evs [E1 [P1 [T F]]]]].
  exists m1, evs. split; [exact E1|]. split.
  { eapply adds_only_impl; [|exact P1]. intros e H. apply H. }
  split; [exact T|].
  assert (has_input c (n - 1) = (n =? 1)%nat && str_nonempty (infile c)) as Hi.
  { unfold has_input. f_equal. destruct n as [|[|n]]; simpl; try reflexivity. lia. }
  assert (has_output c (n - 1) n = str_nonempty (outfile c)) as Ho.
  { unfold has_output. now rewrite Nat.eqb_refl. }
  split; [now rewrite <- Hi, <- Ho|].
  destruct (@launch_child_run unit c (n - 1) n fds bg pg in_fd out_fd m)
    as [m1' [E1' [_ R]]].
  rewrite E1 in E1'. inversion E1'; subst m1'; clear E1'. cbv zeta in R.
  destruct (input_fails c (n - 1) m1); [apply R|].
  destruct (output_fails c (n - 1) n (input_redirected c (n - 1) m1)); [apply R|].
  destruct R as [closes [m4 [_ [_ R]]]]. rewrite R.
  unfold child_exec. now rewrite Ha.
Qed.

Lemma redirect_only_stage_witness :
  parse_pipeline [">"; "f"] = ([only_out], false)
  /\ exists m1 evs,
       child_setup false 0 (-1) (-1) (machine_of [] []) = (Ret tt, m1)
       /\ trace (snd (@launch_child unit only_out 0 1 [] false 0 (-1) (-1)
                        (machine_of [] [])))
          = trace m1 ++ evs
       /\ filter is_open evs = [open_output only_out].
Proof.
  destruct redirect_only_stage as [K [_ [_ [_ L]]]].
  split.
  - apply (K [">"; "f"] [] only_out false); [reflexivity|].
    split; [reflexivity|]. right. discriminate.
  - destruct (L only_out 1%nat [] false 0 (-1) (-1) (machine_of [] []))
      as [m1 [evs [E [_ [T [F _]]]]]]; [reflexivity|lia|].
    exists m1, evs. split; [exact E|]. split; [exact T|].
    rewrite F. vm_compute in E. inversion E; subst m1. reflexivity.
Defined.

(** C10 as stated fails for an input redirection: in [cat | < f] the last
    stage has no argument and an input redirection, and its child exits with
    status 0 without opening [f]. *)
Lemma input_of_later_stage_not_opened :
  let m := machine_of []
             [mkAnswer 0 [3; 4] EmptyString None; ok 300; ok 0; ok 0;
              ok 0; ok 0; ok 0; ok 0; ok 0; ok 0; ok 0; ok 0] in
  let r := launch_pipeline (fst (parse_pipeline ["cat"; "|"; "<"; "f"])) false
             "cat | < f" m in
  fst (parse_pipeline ["cat"; "|"; "<"; "f"])
  = [mkCommand ["cat"] EmptyString EmptyString false; only_in]
  /\ redirect_only only_in
  /\ fst r = Exit 0
  /\ trace (snd r)
     = [EvPipe; EvFork; EvSetpgid 300 300; EvFork;
        EvSetpgid 0 300; EvTcsetpgrp 0 300;
        EvSignal SIGINT SIG_DFL; EvSignal SIGTSTP SIG_DFL; EvSignal SIGCHLD SIG_DFL;
        EvDup2 3 0; EvClose 3; EvClose 4]
  /\ filter is_open (trace (snd r)) = [].
Proof.
  cbv zeta. split; [reflexivity|]. split; [split; [reflexivity|left; discriminate]|].
  split; [reflexivity|]. split; reflexivity.
Qed.

(** * Further properties of the code *)

(** ** [trim] *)

Lemma chars_of_list l : chars (string_of_list_ascii l) = l.
Proof. apply list_ascii_of_string_of_list_ascii. Qed.

Lemma drop_trim_spec l :
  exists pre, l = pre ++ drop_trim l
              /\ Forall (fun c => is_trim_char c = true) pre
              /\ (forall c, hd_error (drop_trim l) = Some c -> is_trim_char c = false).
Proof.
  induction l as [|c l [pre [E [F H]]]]; simpl.
  - exists []. split; [reflexivity|]. split; [constructor|discriminate].
  - destruct (is_trim_char c) eqn:T.
    + exists (c :: pre). split; [simpl; now f_equal|]. split; [now constructor|exact H].
    + exists []. split; [reflexivity|]. split; [constructor|].
      simpl. intros c' E'. now inversion E'; subst.
Qed.

Lemma drop_trim_fix l :
  (forall c, hd_error l = Some c -> is_trim_char c = false) -> drop_trim l = l.
Proof.
  destruct l as [|c l]; simpl; [reflexivity|].
  intros H. now rewrite (H c eq_refl).
Qed.

Lemma hd_error_app_l {A : Type} (l1 l2 : list A) c :
  hd_error l1 = Some c -> hd_error (l1 ++ l2) = Some c.
Proof. destruct l1; simpl; [discriminate|auto]. Qed.

(** What [trim] returns neither starts nor ends with a character it
    strips. *)
Lemma trim_ends s : ends_with (fun c => is_trim_char c = false) (chars (trim s)).
Proof.
  unfold trim. rewrite chars_of_list. fold (chars s).
  destruct (drop_trim_spec (chars s)) as [pre [E1 [F1 H1]]].
  destruct (drop_trim_spec (rev (drop_trim (chars s)))) as [post [E2 [F2 H2]]].
  set (l2 := drop_trim (rev (drop_trim (chars s)))) in *.
  assert (drop_trim (chars s) = rev l2 ++ rev post) as E3.
  { rewrite <- rev_app_distr, <- E2. now rewrite rev_involutive. }
  split.
  - intros c Hc. apply H1. rewrite E3. now apply hd_error_app_l.
  - intros c Hc. apply H2. now rewrite rev_involutive in Hc.
Qed.

(** X1.  [trim] returns a contiguous piece of its argument: what it leaves
    out in front and behind consists of blanks, tabs, newlines and carriage
    returns only, and what it returns neither starts nor ends with one of
    them. *)
Theorem trim_strips_blanks (s : string) :
  exists pre post,
    chars s = pre ++ chars (trim s) ++ post
    /\ Forall (fun c => is_trim_char c = true) pre
    /\ Forall (fun c => is_trim_char c = true) post
    /\ ends_with (fun c => is_trim_char c = false) (chars (trim s)).
Proof.
  pose proof (trim_ends s) as Ends.
  unfold trim in *. rewrite chars_of_list in *. fold (chars s) in *.
  destruct (drop_trim_spec (chars s)) as [pre [E1 [F1 _]]].
  destruct (drop_trim_spec (rev (drop_trim (chars s)))) as [post [E2 [F2 _]]].
  exists pre, (rev post). split; [|split; [|split]].
  - rewrite <- rev_app_distr, <- E2, rev_involutive. exact E1.
  - exact F1.
  - now apply Forall_rev.
  - exact Ends.
Qed.

(** X2.  Trimming twice is trimming once. *)
Theorem trim_idempotent (s : string) : trim (trim s) = trim s.
Proof.
  destruct (trim_ends s) as [H1 H2].
  unfold trim at 1. fold (chars (trim s)).
  rewrite (drop_trim_fix _ H1), (drop_trim_fix _ H2), rev_involutive.
  apply string_of_list_ascii_of_string.
Qed.

(** The characters [trim] keeps are characters of its argument. *)
Lemma trim_keeps (P : ascii -> Prop) s :
  Forall P (chars s) -> Forall P (chars (trim s)).
Proof.
  unfold trim. rewrite chars_of_list. fold (chars s). intros H.
  destruct (drop_trim_spec (chars s)) as [pre [E1 _]].
  destruct (drop_trim_spec (rev (drop_trim (chars s)))) as [post [E2 _]].
  rewrite E1 in H. apply Forall_app in H. destruct H as [_ H].
  apply Forall_rev in H. rewrite E2 in H. apply Forall_app in H.
  apply Forall_rev. tauto.
Qed.

(** ** [split_tokens] *)

Lemma is_special_cases c :
  is_special c = true -> c = "|"%char \/ c = "<"%char \/ c = ">"%char \/ c = "&"%char.
Proof.
  destruct c as [[] [] [] [] [] [] [] []]; intros H; try discriminate H; auto.
Qed.

Lemma special_not_space c : is_special c = true -> isspace c = false.
Proof. intros H. destruct (is_special_cases c H) as [->|[->|[->| ->]]]; reflexivity. Qed.

(** The inner loop of the normal-token branch takes the longest run of
    characters of a normal token. *)
Lemma scan_word_spec s : forall cur,
  exists w rest,
    scan_word s cur = (cur ++ w, rest) /\ s = w ++ rest
    /\ Forall (fun c => word_char c = true) w
    /\ (forall c, hd_error rest = Some c -> word_char c = false).
Proof.
  induction s as [|c s IH]; intros cur; simpl.
  - exists [], []. rewrite app_nil_r. repeat split; [constructor|discriminate].
  - fold (word_char c). destruct (word_char c) eqn:W.
    + destruct (IH (cur ++ [c])) as [w [rest [E [-> [F H]]]]].
      exists (c :: w), rest. rewrite E, <- app_assoc.
      repeat split; [now constructor|exact H].
    + exists [], (c :: s). rewrite app_nil_r.
      repeat split; [constructor|]. simpl. intros c' E. now inversion E; subst.
Qed.

Lemma is_word_of_list w :
  w <> [] -> Forall (fun c => word_char c = true) w -> is_word (string_of_list_ascii w).
Proof.
  intros N F. split.
  - intros E. apply N. rewrite <- (chars_of_list w), E. reflexivity.
  - now rewrite chars_of_list.
Qed.

Lemma split_loop_kinds fuel : forall s toks,
  Forall (fun c => is_quote c = false) s ->
  Forall token_ok toks -> Forall token_ok (split_loop fuel s [] toks).
Proof.
  induction fuel as [|fuel IH]; intros s toks Q T; simpl; [assumption|].
  destruct s as [|c s]; [assumption|].
  inversion Q as [|? ? Qc Qs]; subst.
  assert (forall t, token_ok t -> Forall token_ok (toks ++ [t])) as Push.
  { intros t Ht. apply Forall_app. split; [assumption|]. now constructor. }
  destruct (isspace c) eqn:Sp; [now apply IH|].
  destruct (is_special c) eqn:Sc.
  { unfold push_if_nonempty; simpl.
    destruct (Ascii.eqb c ">") eqn:G.
    - destruct s as [|c2 s2].
      + apply IH; [constructor|]. apply Push. left. unfold is_operator. auto.
      + inversion Qs; subst.
        destruct (Ascii.eqb c2 ">"); (apply IH; [assumption|]); apply Push; left;
          unfold is_operator; auto.
    - apply IH; [assumption|]. apply Push. left.
      apply Ascii.eqb_neq in G.
      destruct (is_special_cases c Sc) as [->|[->|[->| ->]]]; unfold is_operator; auto. }
  rewrite Qc.
  destruct (scan_word_spec (c :: s) []) as [w [rest [E [S [F H]]]]].
  rewrite E. simpl ([] ++ w).
  assert (Forall (fun c => is_quote c = false) rest) as Qr.
  { rewrite S in Q. apply Forall_app in Q. tauto. }
  apply IH; [exact Qr|].
  unfold push_if_nonempty. destruct w as [|c1 w]; simpl; [assumption|].
  apply Push. right. apply (is_word_of_list (c1 :: w)); [discriminate|assumption].
Qed.

(** X3.  On a line without quotes every token is one of the operators
    [|], [<], [>], [>>], [&], or a non-empty word that holds neither white
    space nor one of the characters [|<>&]. *)
Theorem split_tokens_kinds (line : string) :
  quote_free line ->
  Forall (fun t => is_operator t \/ is_word t) (split_tokens line).
Proof.
  intros Q. unfold split_tokens. apply split_loop_kinds; [exact Q|constructor].
Qed.

Lemma split_tokens_kinds_witness :
  Forall (fun t => is_operator t \/ is_word t) (split_tokens "ls -l|wc>>out &").
Proof.
  apply (split_tokens_kinds "ls -l|wc>>out &").
  repeat constructor.
Defined.

Lemma filter_words w rest :
  Forall (fun c => word_char c = true) w ->
  filter (fun c => negb (isspace c)) (w ++ rest)
  = w ++ filter (fun c => negb (isspace c)) rest.
Proof.
  induction 1 as [|c w H _ IH]; simpl; [reflexivity|].
  unfold word_char in H. apply andb_true_iff in H. destruct H as [H _].
  rewrite H. now f_equal.
Qed.

Lemma split_loop_chars fuel : forall s toks,
  (List.length s <= fuel)%nat ->
  Forall (fun c => is_quote c = false) s ->
  flat_map chars (split_loop fuel s [] toks)
  = flat_map chars toks ++ filter (fun c => negb (isspace c)) s.
Proof.
  induction fuel as [|fuel IH]; intros s toks L Q.
  { destruct s; [|simpl in L; lia]. simpl. now rewrite app_nil_r. }
  destruct s as [|c s]; simpl; [now rewrite app_nil_r|].
  simpl in L. inversion Q as [|? ? Qc Qs]; subst.
  destruct (isspace c) eqn:Sp; [simpl; apply IH; [lia|assumption]|].
  cbn [negb].
  destruct (is_special c) eqn:Sc.
  { unfold push_if_nonempty; simpl.
    destruct (Ascii.eqb c ">") eqn:G.
    - apply Ascii.eqb_eq in G. subst c.
      destruct s as [|c2 s2].
      + rewrite IH; [|simpl; lia|constructor].
        rewrite flat_map_app. simpl. now rewrite app_nil_r.
      + inversion Qs; subst. destruct (Ascii.eqb c2 ">") eqn:G2.
        * apply Ascii.eqb_eq in G2. subst c2.
          rewrite IH; [|simpl in *; lia|assumption].
          rewrite flat_map_app. simpl. now rewrite <- app_assoc.
        * rewrite IH; [|simpl in *; lia|assumption].
          rewrite flat_map_app. simpl. now rewrite <- app_assoc.
    - rewrite IH; [|lia|assumption].
      rewrite flat_map_app. simpl. now rewrite <- app_assoc. }
  rewrite Qc.
  destruct (scan_word_spec (c :: s) []) as [w [rest [E [S [F H]]]]].
  simpl in E. rewrite Sp, Sc in E. simpl in E. rewrite E.
  assert (Forall (fun c => is_quote c = false) rest) as Qr.
  { rewrite S in Q. apply Forall_app in Q. tauto. }
  destruct w as [|c1 w].
  { exfalso. simpl in S. subst rest. specialize (H c eq_refl).
    unfold word_char in H. rewrite Sp, Sc in H. discriminate. }
  inversion S; subst c1.
  cbn [andb negb].
  rewrite IH; [|subst s; rewrite length_app in L; lia|assumption].
  unfold push_if_nonempty. cbn [nonempty].
  rewrite flat_map_app. cbn [flat_map]. rewrite chars_of_list, app_nil_r.
  inversion F as [|? ? Fc Fw]; subst.
  rewrite (filter_words _ _ Fw). now rewrite <- app_assoc.
Qed.

(** X4.  On a line without quotes the tokenizer loses white space and
    nothing else: the characters of the tokens, in order, are the
    characters of the line that are not white space. *)
Theorem split_tokens_keeps_characters (line : string) :
  quote_free line ->
  flat_map chars (split_tokens line)
  = filter (fun c => negb (isspace c)) (chars line).
Proof.
  intros Q. unfold split_tokens. fold (chars line).
  now rewrite split_loop_chars.
Qed.

Lemma split_tokens_keeps_characters_witness :
  flat_map chars (split_tokens "a |b")
  = filter (fun c => negb (isspace c)) (chars "a |b").
Proof.
  apply (split_tokens_keeps_characters "a |b").
  repeat constructor.
Defined.

(** The tokens of a line without a command are [&] and [|] tokens. *)
Lemma split_loop_idle fuel : forall s toks,
  Forall idle_char s -> Forall idle_token toks ->
  Forall idle_token (split_loop fuel s [] toks).
Proof.
  induction fuel as [|fuel IH]; intros s toks Q T; simpl; [assumption|].
  destruct s as [|c s]; [assumption|].
  inversion Q as [|? ? Qc Qs]; subst.
  destruct Qc as [Sp|[-> | ->]].
  - rewrite Sp. now apply IH.
  - simpl. apply IH; [assumption|]. unfold push_if_nonempty. simpl.
    apply Forall_app. split; [assumption|]. constructor; [now left|constructor].
  - simpl. apply IH; [assumption|]. unfold push_if_nonempty. simpl.
    apply Forall_app. split; [assumption|]. constructor; [now right|constructor].
Qed.

(** The tokens already found stay in front of those found later. *)
Lemma split_loop_toks fuel : forall s toks,
  split_loop fuel s [] toks = toks ++ split_loop fuel s [] [].
Proof.
  induction fuel as [|fuel IH]; intros s toks; simpl; [now rewrite app_nil_r|].
  destruct s as [|c s]; [now rewrite app_nil_r|].
  destruct (isspace c); [apply IH|].
  destruct (is_special c).
  { unfold push_if_nonempty; simpl.
    destruct (Ascii.eqb c ">").
    - destruct s as [|c2 s2].
      + rewrite IH, (IH _ [_]). now rewrite app_assoc.
      + destruct (Ascii.eqb c2 ">"); rewrite IH, (IH _ [_]); now rewrite app_assoc.
    - rewrite IH, (IH _ [_]). now rewrite app_assoc. }
  destruct (is_quote c).
  { destruct (scan_quoted c s []) as [cur1 rest].
    rewrite IH, (IH _ [_]). now rewrite app_assoc. }
  destruct (scan_word (c :: s) []) as [cur1 rest].
  unfold push_if_nonempty. destruct (nonempty cur1); [|apply IH].
  cbn [app]. rewrite IH, (IH _ [_]). now rewrite app_assoc.
Qed.

Lemma scan_quoted_closed q body : forall rest cur,
  ~ In q body ->
  scan_quoted q (body ++ q :: rest) cur = (cur ++ body, rest).
Proof.
  induction body as [|c body IH]; intros rest cur N; simpl.
  - now rewrite Ascii.eqb_refl, app_nil_r.
  - assert (Ascii.eqb c q = false) as ->.
    { apply Ascii.eqb_neq. intros ->. apply N. now left. }
    rewrite IH; [now rewrite <- app_assoc|]. intros I. apply N. now right.
Qed.

Lemma scan_quoted_open q body : forall cur,
  ~ In q body -> scan_quoted q body cur = (cur ++ body, []).
Proof.
  induction body as [|c body IH]; intros cur N; simpl.
  - now rewrite app_nil_r.
  - assert (Ascii.eqb c q = false) as ->.
    { apply Ascii.eqb_neq. intros ->. apply N. now left. }
    rewrite IH; [now rewrite <- app_assoc|]. intros I. apply N. now right.
Qed.

Lemma quote_is_ordinary q :
  is_quote q = true -> isspace q = false /\ is_special q = false.
Proof.
  destruct q as [[] [] [] [] [] [] [] []]; intros H; try discriminate H; now split.
Qed.

(** X5.  Text between two quotes of the same kind at the start of a line
    is one token, with the quotes removed and whatever it holds (white
    space and operators included, nothing at all included), and the rest of
    the line is tokenized as if it stood alone; a quote that is never closed
    takes the rest of the line as one token. *)
Theorem quoted_text_is_one_token (q : ascii) (body : list ascii) :
  is_quote q = true -> ~ In q body ->
  (forall rest,
      split_tokens (string_of_list_ascii (q :: body ++ q :: chars rest))
      = string_of_list_ascii body :: split_tokens rest)
  /\ split_tokens (string_of_list_ascii (q :: body))
     = [string_of_list_ascii body].
Proof.
  intros Q N. destruct (quote_is_ordinary q Q) as [Sp Sc].
  split.
  - intros rest. unfold split_tokens at 1.
    rewrite list_ascii_of_string_of_list_ascii.
    cbn [List.length split_loop]. rewrite Sp, Sc, Q.
    rewrite (scan_quoted_closed q body (chars rest) [] N).
    cbn [app]. rewrite split_loop_toks. cbn [app]. f_equal.
    rewrite length_app. cbn [List.length].
    unfold chars. rewrite <- (string_of_list_ascii_of_string rest) at 3.
    rewrite <- (split_tokens_fuel _ (List.length body
                                      + S (List.length (list_ascii_of_string rest)))).
    + now rewrite string_of_list_ascii_of_string.
    + rewrite string_of_list_ascii_of_string.
      clear. induction rest as [|c rest IH]; simpl; lia.
  - unfold split_tokens. rewrite list_ascii_of_string_of_list_ascii.
    cbn [List.length split_loop]. rewrite Sp, Sc, Q.
    rewrite (scan_quoted_open q body [] N). cbn [app].
    now destruct (List.length body).
Qed.

Lemma quoted_text_is_one_token_witness :
  split_tokens "'a | b' > f" = ["a | b"; ">"; "f"].
Proof.
  destruct (quoted_text_is_one_token "'" (chars "a | b")) as [H _];
    [reflexivity|simpl; intuition discriminate|].
  exact (H " > f").
Defined.

(** ** [parse_pipeline] *)

Lemma plain_token_step t rest cur pl bg :
  plain_token t = true ->
  parse_loop (t :: rest) cur pl bg = parse_loop rest (with_arg t cur) pl bg.
Proof.
  unfold plain_token. rewrite !andb_true_iff, !negb_true_iff.
  intros [[[[H1 H2] H3] H4] H5]. simpl. now rewrite H1, H2, H3, H4, H5.
Qed.

(** Plain words are appended to the arguments of the stage being built. *)
Lemma parse_loop_words ws : forall rest cur pl bg,
  plain_words ws ->
  parse_loop (ws ++ rest) cur pl bg
  = parse_loop rest (mkCommand (argv cur ++ ws) (infile cur) (outfile cur) (append cur))
      pl bg.
Proof.
  unfold plain_words.
  induction ws as [|w ws IH]; intros rest cur pl bg H.
  - simpl. rewrite app_nil_r. now destruct cur.
  - simpl in H. apply andb_true_iff in H. destruct H as [Hw Hws].
    simpl app. rewrite (plain_token_step _ _ _ _ _ Hw), (IH _ _ _ _ Hws).
    unfold with_arg. simpl. now rewrite <- app_assoc.
Qed.

Lemma parse_loop_stages segs : forall pl,
  Forall (fun ws => ws <> [] /\ plain_words ws) segs ->
  segs <> [] ->
  exists ws0,
    parse_loop (join_pipes segs) Command0 pl false
    = (pl ++ map simple_stage (removelast segs), simple_stage ws0, false)
    /\ last segs [] = ws0.
Proof.
  induction segs as [|ws segs IH]; intros pl F N; [congruence|].
  inversion F as [|? ? [Hne Hp] Fs]; subst.
  destruct segs as [|ws2 segs].
  - exists ws. simpl. split; [|reflexivity].
    rewrite <- (app_nil_r ws) at 1. rewrite (parse_loop_words _ _ _ _ _ Hp).
    simpl. now rewrite app_nil_r.
  - destruct (IH (pl ++ [simple_stage ws]) Fs) as [ws0 [E L]]; [discriminate|].
    exists ws0. split; [|exact L].
    change (join_pipes (ws :: ws2 :: segs)) with (ws ++ "|" :: join_pipes (ws2 :: segs)).
    rewrite (parse_loop_words _ _ _ _ _ Hp).
    cbn [parse_loop argv Command0 app infile outfile append].
    change (String.eqb "|" "|") with true. cbn iota.
    destruct ws as [|w ws]; [congruence|]. cbn [nonempty].
    fold (simple_stage (w :: ws)). rewrite E.
    change (removelast (?a :: ws2 :: segs)) with (a :: removelast (ws2 :: segs)).
    cbn [map]. now rewrite <- app_assoc.
Qed.

(** X6.  Stages of plain words separated by single pipe tokens are parsed
    into one stage per segment, in order, each holding exactly the words of
    its segment and no redirection, and the pipeline is not a background
    one. *)
Theorem parse_pipeline_stages (segs : list (list string)) :
  Forall (fun ws => ws <> [] /\ plain_words ws) segs ->
  parse_pipeline (join_pipes segs) = (map simple_stage segs, false).
Proof.
  intros F. destruct segs as [|ws segs]; [reflexivity|].
  destruct (parse_loop_stages (ws :: segs) [] F) as [ws0 [E L]]; [discriminate|].
  unfold parse_pipeline. rewrite E.
  assert (ws0 <> []) as N.
  { rewrite <- L. 
    assert (In (last (ws :: segs) []) (ws :: segs)) as I.
    { destruct (exists_last (l := ws :: segs)) as [l' [a Ea]]; [discriminate|].
      rewrite Ea, last_last. apply in_or_app. right. now left. }
    rewrite Forall_forall in F. now apply F in I. }
  destruct ws0 as [|w0 ws0]; [congruence|]. cbn [simple_stage argv nonempty orb].
  f_equal. cbn [app].
  transitivity (map simple_stage (removelast (ws :: segs) ++ [last (ws :: segs) []])).
  - now rewrite map_app, L.
  - f_equal. symmetry. apply app_removelast_last. discriminate.
Qed.

Lemma parse_pipeline_stages_witness :
  parse_pipeline ["ls"; "-l"; "|"; "wc"]
  = ([simple_stage ["ls"; "-l"]; simple_stage ["wc"]], false).
Proof.
  apply (parse_pipeline_stages [["ls"; "-l"]; ["wc"]]).
  repeat constructor; discriminate.
Defined.

Lemma parse_pipeline_words ws rest :
  plain_words ws ->
  parse_pipeline (ws ++ rest)
  = let '(pl, cur, bg) := parse_loop rest (simple_stage ws) [] false in
    (if nonempty (argv cur) || str_nonempty (infile cur) || str_nonempty (outfile cur)
     then pl ++ [cur] else pl, bg).
Proof.
  intros H. unfold parse_pipeline. now rewrite (parse_loop_words _ _ _ _ _ H).
Qed.

Lemma nonempty_app_l {A : Type} (l1 l2 : list A) :
  l1 <> [] -> nonempty (l1 ++ l2) = true.
Proof. destruct l1; [congruence|reflexivity]. Qed.

(** X7.  The token [&] makes the pipeline a background one wherever it
    stands among the words of a command, not only at the end, and it is not
    an argument of the command. *)
Theorem background_token_anywhere (ws1 ws2 : list string) :
  plain_words ws1 -> plain_words ws2 -> ws1 ++ ws2 <> [] ->
  parse_pipeline (ws1 ++ "&" :: ws2) = ([simple_stage (ws1 ++ ws2)], true).
Proof.
  intros H1 H2 N. rewrite (parse_pipeline_words _ _ H1).
  cbn [parse_loop]. change (String.eqb "&" "|") with false.
  change (String.eqb "&" "<") with false. change (String.eqb "&" ">") with false.
  change (String.eqb "&" ">>") with false. change (String.eqb "&" "&") with true.
  cbn [orb]. cbn iota.
  rewrite <- (app_nil_r ws2) at 1. rewrite (parse_loop_words _ _ _ _ _ H2).
  cbn [parse_loop simple_stage argv infile outfile append].
  destruct (ws1 ++ ws2) eqn:E; [congruence|]. reflexivity.
Qed.

Lemma background_token_anywhere_witness :
  parse_pipeline (["sleep"] ++ "&" :: ["5"]) = ([simple_stage ["sleep"; "5"]], true).
Proof.
  apply (background_token_anywhere ["sleep"] ["5"]);
    [reflexivity|reflexivity|discriminate].
Defined.

(** X8.  The token after [<] is taken as the input file whatever it is, an
    operator included, and the words after it still are arguments of the
    stage; a redirection operator that ends the line has no file and is
    ignored, except that [>>] still sets the append flag. *)
Theorem redirection_operand (ws : list string) :
  plain_words ws -> ws <> [] ->
  (forall f rest, plain_words rest ->
      parse_pipeline (ws ++ "<" :: f :: rest)
      = ([mkCommand (ws ++ rest) f EmptyString false], false))
  /\ parse_pipeline (ws ++ ["<"]) = ([simple_stage ws], false)
  /\ parse_pipeline (ws ++ [">"]) = ([simple_stage ws], false)
  /\ parse_pipeline (ws ++ [">>"])
     = ([mkCommand ws EmptyString EmptyString true], false).
Proof.
  intros H N. split; [|split; [|split]].
  - intros f rest Hr. rewrite (parse_pipeline_words _ _ H).
    cbn [parse_loop]. change (String.eqb "<" "|") with false.
    change (String.eqb "<" "<") with true. cbn iota.
    rewrite <- (app_nil_r rest) at 1. rewrite (parse_loop_words _ _ _ _ _ Hr).
    cbn [parse_loop simple_stage with_infile argv infile outfile append].
    now rewrite (nonempty_app_l _ _ N).
  - rewrite (parse_pipeline_words _ _ H). destruct ws; [congruence|reflexivity].
  - rewrite (parse_pipeline_words _ _ H). destruct ws; [congruence|reflexivity].
  - rewrite (parse_pipeline_words _ _ H). destruct ws; [congruence|reflexivity].
Qed.

Lemma redirection_operand_witness :
  parse_pipeline (["cat"] ++ "<" :: "|" :: ["x"])
  = ([mkCommand ["cat"; "x"] "|" EmptyString false], false).
Proof.
  apply (redirection_operand ["cat"]); [reflexivity|discriminate|reflexivity].
Defined.

(** X9.  Of two output redirections of a stage the later file is the one
    kept, and the append flag, once set by a [>>], stays set: after
    [>> f > g] the stage appends to [g]. *)
Theorem later_redirection_wins (ws : list string) (f g : string) :
  plain_words ws -> ws <> [] ->
  parse_pipeline (ws ++ [">"; f; ">"; g])
  = ([mkCommand ws EmptyString g false], false)
  /\ parse_pipeline (ws ++ [">>"; f; ">"; g])
     = ([mkCommand ws EmptyString g true], false)
  /\ parse_pipeline (ws ++ ["<"; f; "<"; g])
     = ([mkCommand ws g EmptyString false], false).
Proof.
  intros H N.
  split; [|split]; rewrite (parse_pipeline_words _ _ H);
    destruct ws; (congruence || reflexivity).
Qed.

Lemma later_redirection_wins_witness :
  parse_pipeline (["ls"] ++ [">>"; "a"; ">"; "b"])
  = ([mkCommand ["ls"] EmptyString "b" true], false).
Proof.
  apply (later_redirection_wins ["ls"] "a" "b"); [reflexivity|discriminate].
Defined.

(** [&] and [|] tokens alone make no stage. *)
Lemma parse_loop_idle toks : forall bg,
  Forall idle_token toks ->
  exists bg', parse_loop toks Command0 [] bg = ([], Command0, bg').
Proof.
  induction toks as [|t toks IH]; intros bg H; [now exists bg|].
  inversion H as [|? ? Ht Hs]; subst. destruct Ht as [-> | ->].
  - apply (IH true Hs).
  - apply (IH bg Hs).
Qed.

(** X10.  A line that holds no command, only white space and the operators
    [&] and [|] (a line of blanks, or [&] alone), is skipped: the shell
    makes no call and leaves the job table as it is, so that a Done job is
    not pruned by it. *)
Theorem line_without_command_is_skipped (line : string) (m : Machine) :
  without_command line -> shell_step line m = (Ret tt, m).
Proof.
  intros H. unfold shell_step.
  destruct (String.eqb (trim line) EmptyString); [reflexivity|].
  assert (Forall idle_token (split_tokens (trim line))) as T.
  { unfold split_tokens. apply split_loop_idle; [|constructor].
    now apply (trim_keeps idle_char). }
  unfold parse_pipeline.
  destruct (parse_loop_idle _ false T) as [bg' ->]. reflexivity.
Qed.

Lemma line_without_command_is_skipped_witness :
  shell_step " & | " (machine_of two_jobs []) = (Ret tt, machine_of two_jobs []).
Proof.
  apply (line_without_command_is_skipped " & | ").
  unfold without_command, idle_char. simpl.
  repeat (constructor; [auto|]). constructor.
Defined.

(** ** The job table: lookups, pruning, ids *)

Lemma find_index_first (f : Job -> bool) js : forall k,
  find_index f js = Some k ->
  forall k', (k' < k)%nat -> f (nth k' js job0) = false.
Proof.
  induction js as [|j js IH]; simpl; intros k H k' L; [discriminate|].
  destruct (f j) eqn:E.
  - inversion H; subst. lia.
  - destruct (find_index f js) as [n|]; [|discriminate].
    inversion H; subst. destruct k' as [|k']; [assumption|].
    apply (IH n eq_refl). lia.
Qed.

(** X11.  [find_job_by_id] and [find_job_by_pgid] return the first job of
    the table with the id or process group asked for, and no job exactly
    when the table holds none. *)
Theorem find_job_first_match (js : list Job) (v : Z) :
  (forall k, find_job_by_id v js = Some k ->
      (k < List.length js)%nat /\ id (nth k js job0) = v
      /\ forall k', (k' < k)%nat -> id (nth k' js job0) <> v)
  /\ (find_job_by_id v js = None <-> ~ In v (map id js))
  /\ (forall k, find_job_by_pgid v js = Some k ->
      (k < List.length js)%nat /\ pgid (nth k js job0) = v
      /\ forall k', (k' < k)%nat -> pgid (nth k' js job0) <> v)
  /\ (find_job_by_pgid v js = None <-> ~ In v (map pgid js)).
Proof.
  unfold find_job_by_id, find_job_by_pgid.
  split; [|split; [|split]].
  - intros k H. destruct (find_index_some _ _ _ H) as [L E].
    apply Z.eqb_eq in E. repeat split; try assumption.
    intros k' Lk. apply Z.eqb_neq. exact (find_index_first _ _ _ H k' Lk).
  - rewrite find_index_none, in_map_iff. split.
    + intros H [j [E I]]. apply H in I. apply Z.eqb_neq in I. congruence.
    + intros H j I. apply Z.eqb_neq. intros E. apply H. now exists j.
  - intros k H. destruct (find_index_some _ _ _ H) as [L E].
    apply Z.eqb_eq in E. repeat split; try assumption.
    intros k' Lk. apply Z.eqb_neq. exact (find_index_first _ _ _ H k' Lk).
  - rewrite find_index_none, in_map_iff. split.
    + intros H [j [E I]]. apply H in I. apply Z.eqb_neq in I. congruence.
    + intros H j I. apply Z.eqb_neq. intros E. apply H. now exists j.
Qed.

Lemma find_job_first_match_witness :
  id (nth 1 two_jobs job0) = 2 /\ find_job_by_pgid 700 two_jobs = None.
Proof.
  destruct (find_job_first_match two_jobs 2) as [F _].
  destruct (find_job_first_match two_jobs 700) as [_ [_ [_ N]]].
  split.
  - now apply (F 1%nat).
  - apply N. simpl. intros [H|[H|[]]]; discriminate H.
Defined.

Lemma remove_completed_idem js :
  remove_completed (remove_completed js) = remove_completed js.
Proof.
  unfold remove_completed. induction js as [|j js IH]; simpl; [reflexivity|].
  destruct (status j =? 2) eqn:E; simpl; [assumption|].
  rewrite E. simpl. now f_equal.
Qed.

(** X12.  Marking a process group Done and pruning removes the jobs of that
    group together with the jobs that were Done already, and keeps the
    others as they are and in their order; pruning leaves no Done job, and
    pruning twice is pruning once. *)
Theorem done_jobs_are_pruned (p : Z) (js : list Job) :
  remove_completed (mark_done p js) = filter (live_outside p) js
  /\ Forall (fun j => status j <> 2) (remove_completed js)
  /\ remove_completed (remove_completed js) = remove_completed js.
Proof.
  split; [|split].
  - unfold remove_completed, mark_done, live_outside.
    induction js as [|j js IH]; simpl; [reflexivity|].
    destruct (pgid j =? p); simpl.
    + exact IH.
    + destruct (status j =? 2); simpl; [exact IH|now f_equal].
  - apply Forall_forall. intros j I. unfold remove_completed in I.
    apply filter_In in I. destruct I as [_ I].
    apply negb_true_iff in I. now apply Z.eqb_neq.
  - apply remove_completed_idem.
Qed.

Lemma ids_mark_done p js : ids (mark_done p js) = ids js.
Proof.
  unfold ids, mark_done. rewrite map_map. apply map_ext.
  intros j. now destruct (pgid j =? p).
Qed.

Lemma ids_mark_stopped p js : ids (mark_stopped p js) = ids js.
Proof.
  unfold ids, mark_stopped. rewrite map_map. apply map_ext.
  intros j. now destruct (pgid j =? p).
Qed.

Lemma ids_update_at k f js :
  (forall j, id (f j) = id j) -> ids (update_at k f js) = ids js.
Proof.
  intros H. revert k. induction js as [|j js IH]; intros k; simpl; [reflexivity|].
  destruct k; simpl; [now rewrite H|now rewrite IH].
Qed.

Lemma ids_reconcile p st js : ids (reconcile p st js) = ids js.
Proof.
  unfold reconcile.
  destruct (Sys.WIFEXITED st || Sys.WIFSIGNALED st); [apply ids_mark_done|].
  destruct (Sys.WIFSTOPPED st); [apply ids_mark_stopped|].
  destruct (Sys.WIFCONTINUED st); [|reflexivity].
  destruct (find_job_by_pgid p js); [|reflexivity].
  now apply ids_update_at.
Qed.

Lemma increasing_ids_filter (f : Job -> bool) js :
  increasing (ids js) -> increasing (ids (filter f js)).
Proof.
  unfold ids. induction js as [|j js IH]; simpl; intros H; [constructor|].
  destruct H as [F S].
  destruct (f j); simpl; [|now apply IH].
  split; [|now apply IH].
  rewrite Forall_forall in *. intros x I. apply F.
  rewrite in_map_iff in *. destruct I as [y [E I]].
  apply filter_In in I. exists y. tauto.
Qed.

Lemma below_ids_filter (f : Job -> bool) n js :
  Forall (fun i => i < n) (ids js) -> Forall (fun i => i < n) (ids (filter f js)).
Proof.
  unfold ids. rewrite !Forall_forall. intros H x I. apply H.
  rewrite in_map_iff in *. destruct I as [y [E I]].
  apply filter_In in I. exists y. tauto.
Qed.

Lemma increasing_snoc l i :
  increasing l -> Forall (fun x => x < i) l -> increasing (l ++ [i]).
Proof.
  induction l as [|x l IH]; simpl; intros S F.
  - split; [constructor|exact I].
  - destruct S as [Fx S]. inversion F; subst.
    split; [|now apply IH].
    apply Forall_app. split; [assumption|]. now constructor.
Qed.

Lemma increasing_NoDup l : increasing l -> NoDup l.
Proof.
  induction l as [|x l IH]; simpl; intros H; constructor.
  - destruct H as [F _]. intros I. rewrite Forall_forall in F. apply F in I. lia.
  - apply IH. tauto.
Qed.

Lemma find_index_app (f : Job -> bool) js1 js2 :
  find_index f (js1 ++ js2)
  = match find_index f js1 with
    | Some k => Some k
    | None => match find_index f js2 with
              | Some k => Some (List.length js1 + k)%nat
              | None => None
              end
    end.
Proof.
  induction js1 as [|j js1 IH]; simpl.
  - now destruct (find_index f js2).
  - destruct (f j); [reflexivity|]. rewrite IH.
    destruct (find_index f js1); [reflexivity|].
    now destruct (find_index f js2).
Qed.

Lemma int_of_in_range z : INT_MIN <= z <= INT_MAX -> int_of z = z.
Proof.
  unfold int_of, INT_MIN, INT_MAX. intros H. rewrite Z.mod_small; lia.
Qed.

Lemma int_of_wraps : int_of (INT_MAX + 1) = INT_MIN.
Proof. reflexivity. Qed.

(** X13.  [add_job] returns the id it gave to the job, which is the value
    of the counter, and when the ids of the table are below the counter,
    looking that id up finds the new job, which is also the last one (the
    job [fg] and [bg] take without an argument); it is Running, and the
    lookups of the other ids are as before.  The [int] counter then is one
    more, except at INT_MAX, where it becomes INT_MIN. *)
Theorem add_job_then_lookup (m : Machine) (p : Z) (c : string) (b : bool) :
  Forall (fun i => i < next_job_id m) (ids (jobs m)) ->
  exists m',
    add_job p c b m = (Ret (next_job_id m), m')
    /\ jobs m' = jobs m ++ [new_job m p c b]
    /\ (INT_MIN <= next_job_id m < INT_MAX -> next_job_id m' = next_job_id m + 1)
    /\ (next_job_id m = INT_MAX -> next_job_id m' = INT_MIN)
    /\ find_job_by_id (next_job_id m) (jobs m') = Some (List.length (jobs m))
    /\ find_last_job (jobs m') = Some (List.length (jobs m))
    /\ nth (List.length (jobs m)) (jobs m') job0 = new_job m p c b
    /\ (forall i, i <> next_job_id m ->
                  find_job_by_id i (jobs m') = find_job_by_id i (jobs m)).
Proof.
  intros F.
  exists (with_jobs (fun js => js ++ [new_job m p c b])
            (with_next_job_id (int_of (next_job_id m + 1)) m)).
  split; [reflexivity|]. split; [reflexivity|].
  split; [intros R; cbn [next_job_id with_jobs with_next_job_id];
          apply int_of_in_range; lia|].
  split; [intros E; cbn [next_job_id with_jobs with_next_job_id];
          rewrite E; exact int_of_wraps|].
  simpl. unfold find_job_by_id. split; [|split; [|split]].
  - rewrite find_index_app.
    assert (find_index (fun j => id j =? next_job_id m) (jobs m) = None) as ->.
    { apply find_index_none. intros j I. apply Z.eqb_neq.
      unfold ids in F. rewrite Forall_forall in F.
      specialize (F (id j) (in_map id _ _ I)). lia. }
    simpl. rewrite Z.eqb_refl. f_equal. lia.
  - unfold find_last_job. destruct (jobs m) as [|j js] eqn:E; simpl; [reflexivity|].
    rewrite length_app. simpl. f_equal. lia.
  - rewrite app_nth2, Nat.sub_diag; [reflexivity|lia].
  - intros i N. rewrite find_index_app. simpl.
    apply Z.eqb_neq in N. rewrite Z.eqb_sym, N.
    now destruct (find_index (fun j => id j =? i) (jobs m)).
Qed.

Lemma add_job_then_lookup_witness :
  exists m',
    add_job 700 "vi" false (machine_of two_jobs []) = (Ret 3, m')
    /\ next_job_id m' = 4
    /\ find_job_by_id 3 (jobs m') = Some 2%nat
    /\ find_last_job (jobs m') = Some 2%nat.
Proof.
  destruct (add_job_then_lookup (machine_of two_jobs []) 700 "vi" false)
    as [m' [E [_ [N [_ [F [L _]]]]]]].
  - repeat constructor.
  - exists m'. split; [exact E|]. split; [|split; assumption].
    apply N. unfold INT_MIN, INT_MAX. simpl. lia.
Defined.

(** ** What every run keeps of the globals *)

Lemma counter_in_range_le k k' m :
  (k <= k')%nat -> counter_in_range k' m -> counter_in_range k m.
Proof. unfold counter_in_range. lia. Qed.

Lemma globals_kept_refl k m : globals_kept k m m.
Proof. unfold globals_kept. split; [reflexivity|]. intros _. split; [lia|auto]. Qed.

Lemma globals_kept_weaken k k' m m' :
  (k <= k')%nat -> globals_kept k m m' -> globals_kept k' m m'.
Proof.
  unfold globals_kept. intros L [P H]. split; [exact P|]. intros R.
  destruct (H (counter_in_range_le _ _ _ L R)) as [N I]. split; [lia|exact I].
Qed.

Lemma globals_kept_trans k1 k2 m1 m2 m3 :
  globals_kept k1 m1 m2 -> globals_kept k2 m2 m3 -> globals_kept (k1 + k2) m1 m3.
Proof.
  unfold globals_kept. intros [P1 H1] [P2 H2]. split; [congruence|]. intros R.
  destruct H1 as [N1 I1]; [unfold counter_in_range in *; lia|].
  destruct H2 as [N2 I2]; [unfold counter_in_range in *; lia|].
  split; [lia|auto].
Qed.

Lemma kg_weaken k k' {A : Type} (p : Proc A) :
  (k <= k')%nat -> keeps_globals k p -> keeps_globals k' p.
Proof. intros L H m. apply globals_kept_weaken with k; [exact L|apply H]. Qed.

(** The jobs registered by a procedure and by what follows it add up. *)
Lemma kg_bind_add k1 k2 {A B : Type} (p : Proc A) (k : A -> Proc B) :
  keeps_globals k1 p -> (forall a, keeps_globals k2 (k a)) ->
  keeps_globals (k1 + k2) (bind p k).
Proof.
  intros Hp Hk m. unfold bind. specialize (Hp m).
  destruct (p m) as [[a| | | |] m1]; cbn [snd] in *;
    try (apply globals_kept_weaken with k1; [lia|exact Hp]).
  apply globals_kept_trans with m1; [exact Hp|apply Hk].
Qed.

Lemma kg_bind {A B : Type} (p : Proc A) (k : A -> Proc B) :
  keeps_globals 0 p -> (forall a, keeps_globals 0 (k a)) -> keeps_globals 0 (bind p k).
Proof. apply (kg_bind_add 0 0). Qed.

Lemma kg_bind_l n {A B : Type} (p : Proc A) (k : A -> Proc B) :
  keeps_globals n p -> (forall a, keeps_globals 0 (k a)) -> keeps_globals n (bind p k).
Proof.
  intros Hp Hk. apply (kg_weaken (n + 0)); [lia|]. now apply kg_bind_add.
Qed.

Lemma kg_bind_r n {A B : Type} (p : Proc A) (k : A -> Proc B) :
  keeps_globals 0 p -> (forall a, keeps_globals n (k a)) -> keeps_globals n (bind p k).
Proof. apply (kg_bind_add 0 n). Qed.

Lemma kg_when k b (p : Proc unit) : keeps_globals k p -> keeps_globals k (when b p).
Proof. apply always_when. apply globals_kept_refl. Qed.

(** A run that leaves the three globals alone. *)
Lemma kg_same k {A : Type} (p : Proc A) :
  (forall m, jobs (snd (p m)) = jobs m
             /\ next_job_id (snd (p m)) = next_job_id m
             /\ shell_pgid (snd (p m)) = shell_pgid m) ->
  keeps_globals k p.
Proof.
  intros H m. destruct (H m) as [J [N P]]. unfold globals_kept, ids_ok.
  rewrite J, N, P. split; [reflexivity|]. intros _. split; [lia|auto].
Qed.

Lemma kg_modify k f :
  (forall js, ids (f js) = ids js) -> keeps_globals k (modify_jobs f).
Proof.
  intros H m. unfold globals_kept, ids_ok. simpl. rewrite H.
  split; [reflexivity|]. intros _. split; [lia|auto].
Qed.

Lemma kg_remove_completed k : keeps_globals k remove_completed_jobs.
Proof.
  intros m. unfold globals_kept, ids_ok. simpl.
  split; [reflexivity|]. intros _. split; [lia|]. intros [S F]. split.
  - now apply increasing_ids_filter.
  - now apply below_ids_filter.
Qed.

(** [add_job] registers one job; its id is the counter, which then
    advances by one unless it overflows. *)
Lemma kg_add_job p c b : keeps_globals 1 (add_job p c b).
Proof.
  intros m. unfold globals_kept, ids_ok, counter_in_range. simpl.
  split; [reflexivity|]. intros R.
  rewrite int_of_in_range by lia.
  split; [lia|]. intros [S F].
  unfold ids. rewrite map_app. simpl. split.
  - now apply increasing_snoc.
  - apply Forall_app. split.
    + eapply Forall_impl; [|exact F]. simpl. intros; lia.
    + constructor; [lia|constructor].
Qed.

Ltac kg_quiet := apply kg_same; intros ?; repeat split; reflexivity.

Ltac kg_step :=
  first
    [ apply kg_bind; [|intros ?]
    | apply kg_when
    | apply kg_remove_completed
    | apply kg_modify; intros ?;
        first [ apply ids_update_at; reflexivity | apply ids_mark_done
              | apply ids_mark_stopped | apply ids_reconcile ]
    | kg_quiet ].

Lemma print_jobs_kg js : keeps_globals 0 (print_jobs js).
Proof.
  induction js as [|j js IH]; simpl; [kg_quiet|].
  apply kg_bind; [kg_quiet|intros _; exact IH].
Qed.

Lemma job_arg_kg args : keeps_globals 0 (job_arg args).
Proof. unfold job_arg. destruct (job_id_of_args args); kg_quiet. Qed.

Lemma run_builtin_kg av : keeps_globals 0 (run_builtin av).
Proof.
  destruct av as [|cmd args]; simpl; [kg_quiet|].
  destruct (String.eqb cmd "cd").
  { unfold builtin_cd. apply kg_bind.
    - destruct args; repeat kg_step.
    - intros path. repeat kg_step. }
  destruct (String.eqb cmd "exit"); [kg_quiet|].
  destruct (String.eqb cmd "jobs").
  { unfold builtin_jobs.
    apply kg_bind; [kg_quiet|intros js].
    apply kg_bind; [apply print_jobs_kg|intros _].
    repeat kg_step. }
  destruct (String.eqb cmd "fg").
  { unfold builtin_fg, job_at.
    apply kg_bind; [apply job_arg_kg|intros i].
    apply kg_bind; [kg_quiet|intros js].
    destruct (resolve_job i js); repeat kg_step. }
  destruct (String.eqb cmd "bg").
  { unfold builtin_bg, job_at.
    apply kg_bind; [apply job_arg_kg|intros i].
    apply kg_bind; [kg_quiet|intros js].
    destruct (resolve_job i js); repeat kg_step. }
  kg_quiet.
Qed.

Lemma make_pipes_kg k : forall fds, keeps_globals 0 (make_pipes k fds).
Proof.
  induction k as [|k IH]; intros fds; simpl; [kg_quiet|].
  apply kg_bind; [kg_quiet|intros a].
  destruct (a_ret a <? 0); [repeat kg_step|apply IH].
Qed.

Lemma close_all_kg fds : keeps_globals 0 (close_all fds).
Proof.
  induction fds as [|fd fds IH]; simpl; [kg_quiet|].
  apply kg_bind; [|intros _; exact IH]. repeat kg_step.
Qed.

Lemma wait_loop_kg fuel : forall pg st, keeps_globals 0 (wait_loop fuel pg st).
Proof.
  induction fuel as [|fuel IH]; intros pg st; simpl; [kg_quiet|].
  apply kg_bind; [kg_quiet|intros a].
  match goal with |- keeps_globals _ (if ?c then _ else _) => destruct c end;
    [apply IH|kg_quiet].
Qed.

Lemma launch_child_kg {A : Type} c i n fds bg pg in_fd out_fd :
  keeps_globals 0 (@launch_child A c i n fds bg pg in_fd out_fd).
Proof.
  unfold launch_child.
  apply kg_bind.
  { unfold child_setup. apply kg_bind.
    - destruct (pg =? 0); repeat kg_step.
    - intros pg1. repeat kg_step. }
  intros _. apply kg_bind.
  { unfold redirect_input. destruct ((i =? 0)%nat && str_nonempty (infile c)); [|kg_quiet].
    apply kg_bind; [kg_quiet|intros fd]. destruct (a_ret fd <? 0); repeat kg_step. }
  intros _. apply kg_bind.
  { unfold redirect_output.
    destruct ((i =? n - 1)%nat && str_nonempty (outfile c)); [|kg_quiet].
    apply kg_bind; [kg_quiet|intros fd]. destruct (a_ret fd <? 0); repeat kg_step. }
  intros _. apply kg_bind; [apply close_all_kg|intros _].
  unfold child_exec. destruct (argv c) as [|file rest]; [kg_quiet|].
  destruct (is_builtin (file :: rest)).
  - apply kg_bind; [apply run_builtin_kg|intros _; kg_quiet].
  - apply kg_bind; [kg_quiet|intros r].
    destruct (a_ret r =? -1); [repeat kg_step|kg_quiet].
Qed.

Lemma spawn_kg rest : forall i n fds bg pg pids,
  keeps_globals 0 (spawn rest i n fds bg pg pids).
Proof.
  induction rest as [|c rest IH]; intros i n fds bg pg pids; simpl; [kg_quiet|].
  apply kg_bind; [kg_quiet|intros f].
  destruct (a_ret f <? 0); [repeat kg_step|].
  destruct (a_ret f =? 0); [apply launch_child_kg|].
  apply kg_bind; [kg_quiet|intros _; apply IH].
Qed.

Lemma launch_pipeline_kg pipeline background cmdline :
  keeps_globals 1 (launch_pipeline pipeline background cmdline).
Proof.
  unfold launch_pipeline.
  apply kg_bind_r; [apply make_pipes_kg|intros [fds|]]; [|kg_quiet].
  apply kg_bind_r; [apply spawn_kg|intros [pg|]]; [|kg_quiet].
  apply kg_bind_r; [apply close_all_kg|intros _].
  apply kg_bind_l; [apply kg_add_job|intros jid].
  destruct background; simpl; [kg_quiet|].
  apply kg_bind; [kg_quiet|intros _].
  apply kg_bind; [kg_quiet|intros u].
  apply kg_bind; [kg_quiet|intros fuel].
  apply kg_bind; [apply wait_loop_kg|intros st].
  apply kg_bind; [kg_quiet|intros sp].
  apply kg_bind; [kg_quiet|intros _].
  destruct (Sys.WIFSTOPPED st); unfold mark_job_as_stopped, mark_job_as_done;
    repeat kg_step.
Qed.

Lemma reap_loop_kg fuel : keeps_globals 0 (reap_loop fuel).
Proof.
  induction fuel as [|fuel IH]; simpl; [kg_quiet|].
  apply kg_bind; [kg_quiet|intros a].
  destruct (a_ret a <=? 0); [kg_quiet|].
  apply kg_bind; [kg_quiet|intros g].
  apply kg_bind; [|intros _; exact IH].
  repeat kg_step.
Qed.

Lemma sigchld_handler_kg sig : keeps_globals 0 (sigchld_handler sig).
Proof.
  unfold sigchld_handler, loop_fuel.
  apply kg_bind; [kg_quiet|intros e].
  apply kg_bind; [kg_quiet|intros fuel].
  apply kg_bind; [apply reap_loop_kg|intros _].
  kg_quiet.
Qed.

(** A command line registers at most one job. *)
Lemma shell_step_kg line : keeps_globals 1 (shell_step line).
Proof.
  unfold shell_step.
  destruct (String.eqb (trim line) EmptyString); [kg_quiet|].
  destruct (parse_pipeline (split_tokens (trim line))) as [pl bg].
  destruct pl as [|c others]; [kg_quiet|].
  match goal with |- keeps_globals _ (if ?c then _ else _) => destruct c end.
  - apply kg_bind_r; [apply run_builtin_kg|intros _; apply kg_remove_completed].
  - apply kg_bind_l; [apply launch_pipeline_kg|intros _; apply kg_remove_completed].
Qed.

Lemma shell_loop_kg input : keeps_globals (List.length input) (shell_loop input).
Proof.
  induction input as [|line rest IH]; simpl.
  - unfold prompt. repeat kg_step.
  - apply kg_bind_r; [unfold prompt; repeat kg_step|intros _].
    apply (kg_bind_add 1 (List.length rest)); [apply shell_step_kg|intros _; exact IH].
Qed.

(** X14.  Job ids are given out in increasing order and never again, as
    long as the [int] counter does not overflow.  When the ids of the table
    increase along it and are below the counter, they are pairwise
    distinct, and
    - after a command line, however it ends, they still are in order and
      the counter has advanced by at most one, provided it was below
      INT_MAX;
    - the SIGCHLD handler keeps the order and the counter;
    - at the end of [main] they still are in order and the counter has
      advanced by at most the number of lines read, provided that many ids
      were left below INT_MAX. *)
Theorem job_ids_stay_ordered (m : Machine) :
  ids_ok m ->
  INT_MIN <= next_job_id m <= INT_MAX ->
  NoDup (ids (jobs m))
  /\ (forall line,
         next_job_id m < INT_MAX ->
         ids_ok (snd (shell_step line m))
         /\ next_job_id m <= next_job_id (snd (shell_step line m))
            <= next_job_id m + 1)
  /\ (forall sig,
         ids_ok (snd (sigchld_handler sig m))
         /\ next_job_id (snd (sigchld_handler sig m)) = next_job_id m)
  /\ (forall input,
         next_job_id m + Z.of_nat (List.length input) <= INT_MAX ->
         ids_ok (snd (main input m))
         /\ next_job_id m <= next_job_id (snd (main input m))
            <= next_job_id m + Z.of_nat (List.length input)).
Proof.
  intros H R. split; [apply increasing_NoDup, H|]. split; [|split].
  - intros line L. destruct (shell_step_kg line m) as [_ K].
    destruct K as [N I]; [unfold counter_in_range; lia|]. split; [auto|lia].
  - intros sig. destruct (sigchld_handler_kg sig m) as [_ K].
    destruct K as [N I]; [unfold counter_in_range; lia|]. split; [auto|lia].
  - intros input L. destruct (main_starts input m) as [m0 [E [J [N P]]]].
    rewrite E. destruct (shell_loop_kg input m0) as [_ K].
    destruct K as [N0 I]; [unfold counter_in_range; rewrite N; lia|].
    rewrite <- N. split; [|exact N0]. apply I.
    unfold ids_ok. now rewrite J, N.
Qed.

Lemma job_ids_stay_ordered_witness :
  ids_ok (snd (shell_step "sleep 5 &" (machine_of two_jobs [ok 700; ok 0])))
  /\ 3 <= next_job_id (snd (shell_step "sleep 5 &" (machine_of two_jobs [ok 700; ok 0])))
       <= 3 + 1.
Proof.
  assert (ids_ok (machine_of two_jobs [ok 700; ok 0])) as H
    by (split; simpl; repeat constructor).
  assert (INT_MIN <= next_job_id (machine_of two_jobs [ok 700; ok 0]) <= INT_MAX) as R
    by (unfold INT_MIN, INT_MAX; simpl; lia).
  destruct (job_ids_stay_ordered _ H R) as [_ [S _]].
  apply (S "sleep 5 &"). unfold INT_MAX. simpl. lia.
Defined.

(** X15.  The shell's process group is set once, to the pid [getpid]
    returns when [main] starts: no command line and no run of the SIGCHLD
    handler changes it, so it is still that pid when [main] ends. *)
Theorem shell_pgid_is_fixed (m : Machine) :
  (forall line, shell_pgid (snd (shell_step line m)) = shell_pgid m)
  /\ (forall sig, shell_pgid (snd (sigchld_handler sig m)) = shell_pgid m)
  /\ (forall input, shell_pgid (snd (main input m)) = a_ret (next_answer m)).
Proof.
  split; [|split].
  - intros line. now destruct (shell_step_kg line m) as [P _].
  - intros sig. now destruct (sigchld_handler_kg sig m) as [P _].
  - intros input. destruct (main_starts input m) as [m0 [E [_ [_ P]]]].
    rewrite E. destruct (shell_loop_kg input m0) as [P0 _]. congruence.
Qed.

(** ** The builtins *)

Lemma print_jobs_run js : forall m,
  exists m',
    print_jobs js m = (Ret tt, m')
    /\ trace m' = trace m ++ map (fun j => EvOut (jobs_line j)) js
    /\ jobs m' = jobs m /\ next_job_id m' = next_job_id m
    /\ script m' = script m /\ errno m' = errno m.
Proof.
  induction js as [|j js IH]; intros m; simpl.
  - exists m. rewrite app_nil_r. repeat split.
  - rewrite bind_emit. destruct (IH (emitted (EvOut (jobs_line j)) m))
      as [m' [E [T [J [N [S R]]]]]].
    exists m'. split; [exact E|]. split.
    + rewrite T. simpl. now rewrite <- app_assoc.
    + repeat split; assumption.
Qed.

(** X16.  [jobs] writes one line per job of the table, in the order of the
    table and the Done jobs included, and only then prunes the Done jobs; it
    makes no system call, ignores its arguments and returns 0. *)
Theorem jobs_lists_then_prunes (args : list string) (m : Machine) :
  exists m',
    run_builtin ("jobs" :: args) m = (Ret 0, m')
    /\ trace m' = trace m ++ map (fun j => EvOut (jobs_line j)) (jobs m)
    /\ jobs m' = remove_completed (jobs m)
    /\ script m' = script m /\ errno m' = errno m
    /\ next_job_id m' = next_job_id m.
Proof.
  change (run_builtin ("jobs" :: args)) with builtin_jobs.
  unfold builtin_jobs. rewrite bind_gets.
  destruct (print_jobs_run (jobs m) m) as [m1 [E [T [J [N [S R]]]]]].
  rewrite (bind_run _ _ _ _ _ E).
  unfold remove_completed_jobs. rewrite bind_modify_jobs.
  exists (with_jobs remove_completed m1). split; [reflexivity|].
  simpl. rewrite J. repeat split; assumption.
Qed.

(** X17.  [cd] returns 0 whether [chdir] succeeded or not: a failure is
    only reported by [perror].  With an argument it changes to that
    directory and ignores further arguments; without one it asks for [HOME]
    and passes what [getenv] returned, a null pointer included.  It never
    touches the job table. *)
Theorem cd_returns_0 (m : Machine) :
  (forall a rest, exists m',
      run_builtin ("cd" :: a :: rest) m = (Ret 0, m')
      /\ jobs m' = jobs m
      /\ trace m' = trace m ++ EvChdir (Some a)
                      :: (if a_ret (next_answer m) =? 0 then [] else [EvPerror "cd"]))
  /\ (exists m',
      run_builtin ["cd"] m = (Ret 0, m')
      /\ jobs m' = jobs m
      /\ let home := next_answer m in
         let r := next_answer (called (EvGetenv "HOME") m) in
         trace m' = trace m
                    ++ [EvGetenv "HOME";
                        EvChdir (if a_ret home =? 0 then None else Some (a_str home))]
                    ++ (if a_ret r =? 0 then [] else [EvPerror "cd"])).
Proof.
  split.
  - intros a rest. change (run_builtin ("cd" :: a :: rest)) with (builtin_cd (a :: rest)).
    unfold builtin_cd. rewrite bind_ret, bind_syscall, bind_when_emit.
    eexists. split; [reflexivity|].
    destruct (a_ret (next_answer m) =? 0); (split; [reflexivity|]);
      simpl; rewrite <- ?app_assoc; reflexivity.
  - change (run_builtin ["cd"]) with (builtin_cd []).
    unfold builtin_cd. rewrite bind_assoc, bind_syscall, bind_ret, bind_syscall, bind_when_emit.
    eexists. split; [reflexivity|]. cbv zeta.
    destruct (a_ret (next_answer (called (EvGetenv "HOME") m)) =? 0);
      (split; [reflexivity|]); simpl; rewrite <- ?app_assoc; reflexivity.
Qed.

Lemma before_handoff_intro e :
  is_wait e = false -> is_tcsetpgrp e = false -> before_handoff e.
Proof. now split. Qed.

Ltac calm_events :=
  repeat emits_step; apply before_handoff_intro; reflexivity.

Lemma print_jobs_calm js : emits_only before_handoff (print_jobs js).
Proof.
  induction js as [|j js IH]; simpl; [apply emits_ret|].
  apply emits_bind; [|intros _; exact IH]. calm_events.
Qed.

Lemma run_builtin_calm cmd args :
  cmd <> "fg" -> emits_only before_handoff (run_builtin (cmd :: args)).
Proof.
  intros N. simpl.
  destruct (String.eqb cmd "cd").
  { unfold builtin_cd. apply emits_bind.
    - destruct args; [|apply emits_ret]. calm_events.
    - intros path. calm_events. }
  destruct (String.eqb cmd "exit"); [apply emits_exit|].
  destruct (String.eqb cmd "jobs").
  { unfold builtin_jobs, remove_completed_jobs.
    repeat emits_step. apply print_jobs_calm. }
  destruct (String.eqb cmd "fg") eqn:F.
  { apply String.eqb_eq in F. contradiction. }
  destruct (String.eqb cmd "bg").
  { unfold builtin_bg, job_at.
    apply emits_bind; [apply job_arg_emits|intros i].
    apply emits_bind; [apply emits_gets|intros js].
    destruct (resolve_job i js); calm_events. }
  apply emits_ret.
Qed.

(** X18.  [fg] is the only builtin that waits for a child or changes the
    foreground process group of the terminal.  No run of [cd], [exit],
    [jobs] or [bg], and no run of [run_builtin] on anything else, makes a
    [waitpid] or a [tcsetpgrp] call; [fg], on a job it finds, always makes
    both. *)
Theorem only_fg_waits (cmd : string) (args : list string) :
  (cmd <> "fg" -> emits_only before_handoff (run_builtin (cmd :: args)))
  /\ (cmd = "fg" ->
      forall i k m,
        job_id_of_args args = inr i -> resolve_job i (jobs m) = Some k ->
        exists evs,
          trace (snd (run_builtin (cmd :: args) m)) = trace m ++ evs
          /\ Exists (fun e => is_wait e = true) evs
          /\ Exists (fun e => is_tcsetpgrp e = true) evs).
Proof.
  split; [apply run_builtin_calm|].
  intros -> i k m E R.
  change (run_builtin ("fg" :: args)) with (builtin_fg args).
  rewrite (builtin_fg_resolved _ _ _ _ E R). cbn [snd].
  rewrite trace_fg_machine. eexists. split; [reflexivity|]. split.
  - apply Exists_app. right. apply Exists_cons_tl. now apply Exists_cons_hd.
  - apply Exists_app. right. now apply Exists_cons_hd.
Qed.

Lemma only_fg_waits_witness :
  adds_only before_handoff (machine_of one_job [ok 0])
    (snd (run_builtin ["bg"; "1"] (machine_of one_job [ok 0]))).
Proof.
  destruct (only_fg_waits "bg" ["1"]) as [H _].
  apply H. discriminate.
Defined.

(** X19.  [bg] on a job of the table sends SIGCONT to the whole process
    group of the job, then records the job as Running and in the
    background and announces it, whether or not [kill] succeeded: a failed
    [kill] is only reported.  The other jobs are left as they are and
    nothing is pruned. *)
Theorem bg_resumes_job (args : list string) (i : Z) (k : nat) (m : Machine) :
  job_id_of_args args = inr i -> resolve_job i (jobs m) = Some k ->
  let j := nth k (jobs m) job0 in
  exists m',
    run_builtin ("bg" :: args) m = (Ret 0, m')
    /\ trace m' = trace m
         ++ EvKill (- pgid j) SIGCONT
            :: (if a_ret (next_answer m) <? 0 then [EvPerror "kill(SIGCONT)"] else [])
         ++ [EvOut ("[" ++ show (id j) ++ "] " ++ cmdline j ++ " &" ++ nl)]
    /\ nth k (jobs m') job0 = mkJob (id j) (pgid j) (cmdline j) true 0
    /\ List.length (jobs m') = List.length (jobs m)
    /\ (forall k', k' <> k -> nth k' (jobs m') job0 = nth k' (jobs m) job0).
Proof.
  intros E R j.
  change (run_builtin ("bg" :: args)) with (builtin_bg args).
  rewrite (builtin_bg_resolved _ _ _ _ E R).
  exists (bg_machine k m). split; [reflexivity|].
  pose proof (resolve_job_some _ _ _ R) as Hk.
  rewrite jobs_bg_machine. split; [|split; [|split]].
  - unfold bg_machine. fold j.
    destruct (a_ret (next_answer m) <? 0);
      cbn [trace with_jobs called emitted]; rewrite <- !app_assoc; reflexivity.
  - now rewrite nth_update_at.
  - rewrite <- (length_map pgid), <- (length_map pgid (jobs m)).
    f_equal. now apply pgids_update_at.
  - intros k' N. clear - N. revert k k' N.
    induction (jobs m) as [|j0 js IH]; intros k k' N; simpl.
    + now destruct k'.
    + destruct k as [|k]; destruct k' as [|k']; simpl; try reflexivity; try congruence.
      apply IH. congruence.
Qed.

Lemma bg_resumes_job_witness :
  exists m',
    run_builtin ["bg"; "2"] (machine_of two_jobs [ok (-1)]) = (Ret 0, m')
    /\ nth 1 (jobs m') job0 = mkJob 2 600 "cat" true 0.
Proof.
  destruct (bg_resumes_job ["2"] 2 1%nat (machine_of two_jobs [ok (-1)]))
    as [m' [E [_ [J _]]]]; [reflexivity|reflexivity|].
  exists m'. split; assumption.
Defined.

(** ** Job ids as the shell prints and reads them *)

Lemma stoi_digits_cons c k s acc :
  digit_val c = Some k ->
  stoi_digits (c :: s) acc
  = stoi_digits s (Some (10 * match acc with Some a => a | None => 0 end + k)).
Proof. intros H. simpl. now rewrite H. Qed.

Lemma chars_String c s : chars (String c s) = c :: chars s.
Proof. reflexivity. Qed.

Ltac digit_step :=
  cbn [NilEmpty.string_of_uint Pos.of_uint_acc Pos.of_uint];
  rewrite ?chars_String.

Lemma stoi_digits_pos d : forall acc,
  stoi_digits (chars (NilEmpty.string_of_uint d)) (Some (Z.pos acc))
  = Some (Z.pos (Pos.of_uint_acc d acc)).
Proof.
  induction d; intros acc; digit_step; [reflexivity|..];
    (erewrite stoi_digits_cons by (vm_compute; reflexivity));
    rewrite <- IHd; do 2 f_equal; lia.
Qed.

Lemma stoi_digits_zero d :
  stoi_digits (chars (NilEmpty.string_of_uint d)) (Some 0)
  = Some (Z.of_N (Pos.of_uint d)).
Proof.
  induction d; digit_step; [reflexivity|..];
    (erewrite stoi_digits_cons by (vm_compute; reflexivity));
    [exact IHd|..]; apply (stoi_digits_pos d).
Qed.

(** The digits of a numeral that is not empty are read back as its value. *)
Lemma stoi_digits_uint d :
  d <> Decimal.Nil ->
  stoi_digits (chars (NilEmpty.string_of_uint d)) None = Some (Z.of_uint d).
Proof.
  intros N. unfold Z.of_uint. destruct d; [congruence|..]; digit_step;
    (erewrite stoi_digits_cons by (vm_compute; reflexivity));
    [apply (stoi_digits_zero d)|..]; apply (stoi_digits_pos d).
Qed.

Lemma to_uint_nonnil p : Pos.to_uint p <> Decimal.Nil.
Proof.
  intros E. pose proof (DecimalPos.Unsigned.of_to p) as H.
  rewrite E in H. discriminate.
Qed.

(** A numeral that is not empty starts with a digit: not with white space,
    a sign or [%]. *)
Lemma uint_starts_with_digit d :
  d <> Decimal.Nil ->
  exists c s, chars (NilEmpty.string_of_uint d) = c :: s
              /\ isspace c = false /\ Ascii.eqb c "-" = false
              /\ Ascii.eqb c "+" = false /\ Ascii.eqb c "%" = false.
Proof.
  intros N. destruct d; [congruence|..]; digit_step;
    eexists; eexists; (split; [reflexivity|]); repeat split.
Qed.

Lemma stoi_uint d :
  d <> Decimal.Nil -> Z.of_uint d <= INT_MAX ->
  stoi (NilEmpty.string_of_uint d) = inr (Z.of_uint d)
  /\ stoi (String "-" (NilEmpty.string_of_uint d)) = inr (- Z.of_uint d).
Proof.
  intros N L.
  assert (0 <= Z.of_uint d) as P by (unfold Z.of_uint; lia).
  destruct (uint_starts_with_digit d N) as [c [s [E [Sp [Mi [Pl _]]]]]].
  pose proof (stoi_digits_uint d N) as D.
  unfold INT_MAX in L.
  split; unfold stoi.
  - fold (chars (NilEmpty.string_of_uint d)). rewrite E.
    cbn [drop_space]. rewrite Sp, Mi, Pl, <- E, D.
    replace ((INT_MIN <=? Z.of_uint d) && (Z.of_uint d <=? INT_MAX)) with true;
      [reflexivity|].
    symmetry. apply andb_true_iff. unfold INT_MIN, INT_MAX. split; apply Z.leb_le; lia.
  - fold (chars (String "-" (NilEmpty.string_of_uint d))). rewrite chars_String.
    cbn [drop_space]. change (isspace "-") with false. cbn iota.
    change (Ascii.eqb "-" "-") with true. cbn iota. rewrite D.
    replace ((INT_MIN <=? - Z.of_uint d) && (- Z.of_uint d <=? INT_MAX)) with true;
      [reflexivity|].
    symmetry. apply andb_true_iff. unfold INT_MIN, INT_MAX. split; apply Z.leb_le; lia.
Qed.

Lemma stoi_show z : INT_MIN < z <= INT_MAX -> stoi (show z) = inr z.
Proof.
  intros [L U]. unfold show. destruct z as [|p|p]; [reflexivity|..];
    cbn [Z.to_int NilZero.string_of_int];
    pose proof (to_uint_nonnil p) as N;
    pose proof (DecimalPos.Unsigned.of_to p) as V;
    assert (Z.of_uint (Pos.to_uint p) = Z.pos p) as V'
      by (unfold Z.of_uint; now rewrite V);
    (replace (NilZero.string_of_uint (Pos.to_uint p))
       with (NilEmpty.string_of_uint (Pos.to_uint p))
       by (destruct (Pos.to_uint p); [congruence|reflexivity..]));
    destruct (stoi_uint (Pos.to_uint p) N) as [S1 S2];
    try (rewrite V'; unfold INT_MIN, INT_MAX in *; lia).
  - now rewrite S1, V'.
  - now rewrite S2, V'.
Qed.

Lemma show_first_char z :
  exists c r, show z = String c r /\ Ascii.eqb c "%" = false.
Proof.
  unfold show. destruct z as [|p|p]; cbn [Z.to_int NilZero.string_of_int].
  - now exists "0"%char, EmptyString.
  - pose proof (to_uint_nonnil p) as N.
    destruct (Pos.to_uint p); [congruence|..]; eexists; eexists; split; reflexivity.
  - eexists; eexists; split; reflexivity.
Qed.

(** The text printed for a number in the range of [int] is read back as
    that number. *)
Lemma job_id_of_show z rest :
  INT_MIN < z <= INT_MAX -> job_id_of_args (show z :: rest) = inr z.
Proof.
  intros H. destruct (show_first_char z) as [c [r [E P]]].
  unfold job_id_of_args. rewrite E, P, <- E. now apply stoi_show.
Qed.

(** X20.  A job id is read back as it is printed: the decimal text that
    [jobs], [bg] and the launch of a background job print for an id is
    accepted by [fg] and [bg] as that id, with or without a leading [%],
    and whatever arguments follow it. *)
Theorem printed_job_id_is_read_back (z : Z) (rest : list string) :
  INT_MIN < z <= INT_MAX ->
  job_id_of_args (show z :: rest) = inr z
  /\ job_id_of_args (String "%" (show z) :: rest) = inr z.
Proof.
  intros H. split.
  - now apply job_id_of_show.
  - unfold job_id_of_args. change (Ascii.eqb "%" "%") with true. cbn iota.
    now apply stoi_show.
Qed.

Lemma printed_job_id_is_read_back_witness :
  job_id_of_args ["%12"; "x"] = inr 12.
Proof.
  apply (printed_job_id_is_read_back 12 ["x"]). unfold INT_MIN, INT_MAX. lia.
Defined.

Lemma find_job_by_id_nth js : forall k,
  NoDup (ids js) -> (k < List.length js)%nat ->
  find_job_by_id (id (nth k js job0)) js = Some k.
Proof.
  unfold find_job_by_id, ids.
  induction js as [|j js IH]; intros k N L; simpl in *; [lia|].
  inversion N as [|? ? Nj Njs]; subst.
  destruct k as [|k]; [now rewrite Z.eqb_refl|].
  assert ((id j =? id (nth k js job0)) = false) as ->.
  { apply Z.eqb_neq. intros E. apply Nj. rewrite E.
    apply in_map. apply nth_In. lia. }
  rewrite IH; [reflexivity|assumption|lia].
Qed.

(** X21.  When the ids of the table are in order, the id that is printed
    for a job brings [fg] and [bg] to that very job and to no other. *)
Theorem job_is_found_by_its_printed_id (m : Machine) (k : nat) (rest : list string) :
  ids_ok m -> (k < List.length (jobs m))%nat ->
  0 <= id (nth k (jobs m) job0) <= INT_MAX ->
  exists i,
    job_id_of_args (show (id (nth k (jobs m) job0)) :: rest) = inr i
    /\ resolve_job i (jobs m) = Some k.
Proof.
  intros [S _] L [P U]. exists (id (nth k (jobs m) job0)). split.
  - apply job_id_of_show. unfold INT_MIN. lia.
  - unfold resolve_job.
    destruct (id (nth k (jobs m) job0) =? -1) eqn:E; [apply Z.eqb_eq in E; lia|].
    apply find_job_by_id_nth; [now apply increasing_NoDup|exact L].
Qed.

Lemma job_is_found_by_its_printed_id_witness :
  exists i,
    job_id_of_args [show 2] = inr i /\ resolve_job i two_jobs = Some 1%nat.
Proof.
  apply (job_is_found_by_its_printed_id (machine_of two_jobs []) 1 []).
  - split; simpl; repeat constructor.
  - simpl. lia.
  - simpl. unfold INT_MAX. lia.
Defined.

(** ** The calls of [launch_pipeline] in the shell *)

Lemma creates_spawn_calls pg pids : Forall creates (spawn_calls pg pids).
Proof.
  induction pids as [|pid pids IH]; simpl; [constructor|].
  constructor; [right; now left|].
  constructor; [right; right; now exists pid, pg|exact IH].
Qed.

Lemma creates_pipes k : Forall creates (repeat EvPipe k).
Proof. induction k; simpl; constructor; [now left|assumption]. Qed.

(** X22.  When the system answers every [pipe] and every [fork] of a
    launch with success, [launch_pipeline] returns in the shell after it
    made, in this order: the [n - 1] pipes; a [fork] and a [setpgid] for
    every stage, with the pids that [fork] returned, each child put into the
    group of the first; and one [close] for every descriptor that the
    [pipe] calls returned.  Only then the job is announced (background) or
    the terminal handed over (foreground). *)
Theorem launch_makes_one_child_per_stage pipeline background cmdline m :
  let n := List.length pipeline in
  let fds := pipe_fds (n - 1) (script m) in
  let pids := forked n (skipn (n - 1) (script m)) in
  pipes_made (n - 1) (script m) = (n - 1)%nat ->
  List.length pids = n ->
  exists m' rest,
    launch_pipeline pipeline background cmdline m = (Ret tt, m')
    /\ List.length fds = (2 * (n - 1))%nat
    /\ Forall (fun pid => 0 < pid) pids
    /\ trace m' = trace m ++ repeat EvPipe (n - 1)
                    ++ spawn_calls (hd 0 pids) pids ++ close_calls fds ++ rest
    /\ after_setup background (next_job_id m) (hd 0 pids) rest.
Proof.
  intros n fds pids Hp Hf.
  destruct (launch_pipeline_ok pipeline background cmdline m Hp Hf)
    as [m' [E [_ [_ H]]]].
  cbv zeta in H. fold n in H. fold pids in H.
  assert (forall rest, setup_calls n (script m) ++ rest
                       = repeat EvPipe (n - 1) ++ spawn_calls (hd 0 pids) pids
                         ++ close_calls fds ++ rest) as S.
  { intros rest. unfold setup_calls. now rewrite <- !app_assoc. }
  destruct background.
  - destruct H as [_ Ht]. exists m'. eexists.
    split; [exact E|]. split; [apply length_pipe_fds|]. split; [apply forked_positive|].
    split; [rewrite Ht, S; reflexivity|reflexivity].
  - destruct H as [_ Ht]. exists m'. eexists.
    split; [exact E|]. split; [apply length_pipe_fds|]. split; [apply forked_positive|].
    split; [rewrite Ht, S; reflexivity|reflexivity].
Qed.

Lemma launch_makes_one_child_per_stage_witness :
  exists m' rest,
    launch_pipeline ls_wc true "ls | wc &" (machine_of [] launch_answers) = (Ret tt, m')
    /\ trace m' = [EvPipe; EvFork; EvSetpgid 200 200; EvFork; EvSetpgid 201 200;
                   EvClose 3; EvClose 4] ++ rest
    /\ after_setup true 3 200 rest.
Proof.
  destruct (launch_makes_one_child_per_stage ls_wc true "ls | wc &"
              (machine_of [] launch_answers))
    as [m' [rest [E [_ [_ [T A]]]]]]; [reflexivity|reflexivity|].
  exists m', rest. split; [exact E|]. split; [exact T|exact A].
Defined.

(** X23.  When the system answers a [pipe] or a [fork] of a launch with
    failure, [launch_pipeline] reports it and returns at once: no job is
    registered and the counter of ids stays.  The calls made up to the
    failure are the [pipe] calls up to the failing one, or all the pipes,
    the [fork] and [setpgid] of the children made so far and the failing
    [fork]: so the pipes made so far are not closed and the children forked
    so far are neither waited for nor signalled. *)
Theorem failed_launch_registers_nothing pipeline background cmdline m :
  let n := List.length pipeline in
  let made := pipes_made (n - 1) (script m) in
  let pids := forked n (skipn (n - 1) (script m)) in
  (made < n - 1)%nat
  \/ (made = (n - 1)%nat /\ (List.length pids < n)%nat
      /\ a_ret (nth (2 * List.length pids) (skipn (n - 1) (script m)) no_answer) < 0) ->
  exists m' evs what,
    launch_pipeline pipeline background cmdline m = (Ret tt, m')
    /\ jobs m' = jobs m
    /\ next_job_id m' = next_job_id m
    /\ trace m' = trace m ++ evs ++ [EvPerror what]
    /\ Forall creates evs
    /\ ((made < n - 1)%nat -> what = "pipe" /\ evs = repeat EvPipe (S made))
    /\ (made = (n - 1)%nat ->
        what = "fork"
        /\ evs = repeat EvPipe (n - 1) ++ spawn_calls (group_of 0 pids) pids ++ [EvFork]).
Proof.
  intros n made pids H.
  destruct (launch_pipeline_fails pipeline background cmdline m) as [Fp Ff].
  cbv zeta in Fp, Ff. fold n in Fp, Ff. fold made in Fp, Ff. fold pids in Ff.
  destruct H as [H|[H1 [H2 H3]]].
  - destruct (Fp H) as [m' [E [Fj Fn _ _ Ft _]]].
    exists m', (repeat EvPipe (S made)), "pipe"%string.
    split; [exact E|]. split; [exact Fj|]. split; [exact Fn|].
    split; [exact Ft|]. split; [apply creates_pipes|].
    split; [now split|lia].
  - destruct (Ff H1 H2 H3) as [m' [E [Fj Fn _ _ Ft _]]].
    exists m', (repeat EvPipe (n - 1) ++ spawn_calls (group_of 0 pids) pids ++ [EvFork]),
      "fork"%string.
    split; [exact E|]. split; [exact Fj|]. split; [exact Fn|].
    split; [rewrite Ft, <- !app_assoc; reflexivity|]. split.
    + rewrite !Forall_app. split; [apply creates_pipes|].
      split; [apply creates_spawn_calls|]. constructor; [|constructor].
      right. now left.
    + split; [lia|now split].
Qed.

Lemma failed_launch_registers_nothing_witness :
  exists m',
    launch_pipeline ls_wc false "ls | wc" (machine_of one_job fork_fails) = (Ret tt, m')
    /\ jobs m' = one_job
    /\ next_job_id m' = 3
    /\ trace m' = [EvPipe; EvFork; EvSetpgid 200 200; EvFork; EvPerror "fork"].
Proof.
  destruct (failed_launch_registers_nothing ls_wc false "ls | wc"
              (machine_of one_job fork_fails))
    as [m' [evs [what [E [J [N [T [_ [_ F]]]]]]]]].
  - right. split; [reflexivity|]. split; [simpl; lia|simpl; lia].
  - exists m'. split; [exact E|]. split; [exact J|]. split; [exact N|].
    destruct F as [-> ->]; [reflexivity|]. exact T.
Defined.

(** ** The child of a stage *)



(** X25.  A stage whose program is not a builtin ends in one [execvp] call
    with the first argument as the file and the whole argument list: the
    child becomes that program, or, when [execvp] fails (the program is not
    found, say), reports it and exits with status 1.  Before that only a
    failed redirection can end the child, with status 1 as well. *)
Theorem external_stage_execs
    (c : Command) (i n : nat) (fds : list Z) (bg : bool)
    (pg in_fd out_fd : Z) (m : Machine) (file : string) (rest : list string) :
  argv c = file :: rest -> is_builtin (argv c) = false ->
  let r := @launch_child unit c i n fds bg pg in_fd out_fd m in
  (exists m', child_prepare c i n fds bg pg in_fd out_fd m = (Exit 1, m')
              /\ r = (Exit 1, m'))
  \/ (exists m4, child_prepare c i n fds bg pg in_fd out_fd m = (Ret tt, m4)
                 /\ r = exec_or_fail c file m4).
Proof.
  intros Ea B. cbv zeta. rewrite launch_child_prepare.
  destruct (child_prepare_cases c i n fds bg pg in_fd out_fd m) as [[m4 E]|[m' E]].
  - right. exists m4. split; [exact E|].
    rewrite (bind_run _ _ _ _ _ E). unfold child_exec, exec_or_fail.
    rewrite Ea in *. rewrite B, bind_syscall.
    destruct (a_ret (next_answer m4) =? -1); reflexivity.
  - left. exists m'. split; [exact E|]. unfold bind. now rewrite E.
Qed.

Lemma external_stage_execs_witness :
  @launch_child unit (simple_stage ["nosuchprogram"]) 0 1 [] true 0 (-1) (-1)
    (machine_of [] [ok 300])
  = (Exit 1,
     mkMachine [] 3 100 0 0 []
       [EvGetpid; EvSetpgid 0 300; EvSignal SIGINT SIG_DFL; EvSignal SIGTSTP SIG_DFL;
        EvSignal SIGCHLD SIG_DFL; EvExecvp "nosuchprogram" ["nosuchprogram"];
        EvPerror "execvp"]).
Proof.
  destruct (external_stage_execs (simple_stage ["nosuchprogram"]) 0 1 [] true 0 (-1) (-1)
              (machine_of [] [ok 300]) "nosuchprogram" [] eq_refl eq_refl)
    as [[m' [E R]]|[m4 [E R]]].
  - vm_compute in E. discriminate E.
  - rewrite R. vm_compute in E. inversion E; subst m4. reflexivity.
Defined.

(** X26.  A child of a background pipeline never makes a [tcsetpgrp] call
    and never waits, unless its stage is the builtin [fg]: the terminal
    stays with the shell. *)
Theorem background_child_leaves_terminal
    (c : Command) (i n : nat) (fds : list Z) (pg in_fd out_fd : Z) :
  (forall args, argv c <> "fg" :: args) ->
  emits_only before_handoff (@launch_child unit c i n fds true pg in_fd out_fd).
Proof.
  intros N. unfold launch_child.
  apply emits_bind.
  { unfold child_setup. apply emits_bind.
    - destruct (pg =? 0); calm_events.
    - intros pg1. calm_events. }
  intros _. apply emits_bind.
  { unfold redirect_input.
    destruct ((i =? 0)%nat && str_nonempty (infile c)); [|apply emits_ret].
    apply emits_bind; [calm_events|intros fd].
    destruct (a_ret fd <? 0); calm_events. }
  intros _. apply emits_bind.
  { unfold redirect_output.
    destruct ((i =? n - 1)%nat && str_nonempty (outfile c)); [|apply emits_ret].
    apply emits_bind; [calm_events|intros fd].
    destruct (a_ret fd <? 0); calm_events. }
  intros _. apply emits_bind.
  { intros m. destruct (close_all_spec fds m) as [evs [m' [E [F P]]]].
    rewrite E. exists evs. split; [apply F|].
    eapply Forall_impl; [|exact P]. intros e [fd ->]. now split. }
  intros _. unfold child_exec. destruct (argv c) as [|file rest] eqn:Ea; [apply emits_exit|].
  destruct (is_builtin (file :: rest)).
  - apply emits_bind; [|intros _; apply emits_exit].
    apply run_builtin_calm. intros ->. now apply (N rest).
  - apply emits_bind; [calm_events|intros r].
    destruct (a_ret r =? -1); [calm_events|].
    intros m. apply adds_only_refl.
Qed.

Lemma background_child_leaves_terminal_witness :
  adds_only before_handoff (machine_of [] [ok 300])
    (snd (@launch_child unit (simple_stage ["sleep"; "5"]) 0 1 [] true 0 (-1) (-1)
            (machine_of [] [ok 300]))).
Proof.
  apply (background_child_leaves_terminal (simple_stage ["sleep"; "5"])).
  intros args. discriminate.
Defined.

(** ** What the SIGCHLD handler may change *)

Lemma state_only_refl sc j : state_only sc j j.
Proof. unfold state_only. tauto. Qed.

Lemma state_only_trans sc sc' j1 j2 j3 :
  incl sc' sc -> state_only sc j1 j2 -> state_only sc' j2 j3 -> state_only sc j1 j3.
Proof.
  unfold state_only, unreported. intros I [A1 [B1 [C1 [D1 E1]]]] [A2 [B2 [C2 [D2 E2]]]].
  repeat split; try congruence.
  intros U. rewrite E2, E1; auto.
  intros a Ia. rewrite B1. auto.
Qed.

Lemma Forall2_state_only_refl sc js : Forall2 (state_only sc) js js.
Proof. induction js; constructor; auto using state_only_refl. Qed.

Lemma Forall2_state_only_trans sc sc' js1 : forall js2 js3,
  incl sc' sc ->
  Forall2 (state_only sc) js1 js2 -> Forall2 (state_only sc') js2 js3 ->
  Forall2 (state_only sc) js1 js3.
Proof.
  induction js1 as [|j js1 IH]; intros js2 js3 I H1 H2.
  - inversion H1; subst. inversion H2; subst. constructor.
  - inversion H1; subst. inversion H2; subst. constructor.
    + eapply state_only_trans; eauto.
    + eapply IH; eauto.
Qed.

(** A new state for a job of a reported group. *)
Lemma state_only_set_status sc g v j :
  In g sc -> pgid j = a_ret g -> state_only sc j (set_status v j).
Proof.
  intros I E. unfold state_only, unreported. repeat split.
  intros U. exfalso. apply (U g I). now symmetry.
Qed.

Lemma state_only_mark sc g v js :
  In g sc ->
  Forall2 (state_only sc) js
    (map (fun j => if pgid j =? a_ret g then set_status v j else j) js).
Proof.
  intros I. induction js as [|j js IH]; simpl; constructor; [|exact IH].
  destruct (pgid j =? a_ret g) eqn:E; [|apply state_only_refl].
  apply Z.eqb_eq in E. now apply state_only_set_status with g.
Qed.

Lemma state_only_update_at sc g v js : forall k,
  In g sc -> ((k < List.length js)%nat -> pgid (nth k js job0) = a_ret g) ->
  Forall2 (state_only sc) js (update_at k (set_status v) js).
Proof.
  induction js as [|j js IH]; intros k I H; simpl; [constructor|].
  destruct k as [|k].
  - constructor; [|apply Forall2_state_only_refl].
    apply state_only_set_status with g; [exact I|]. apply H. simpl. lia.
  - constructor; [apply state_only_refl|]. apply IH; [exact I|].
    intros L. apply H. simpl. lia.
Qed.

Lemma reconcile_state_only sc g st js :
  In g sc -> Forall2 (state_only sc) js (reconcile (a_ret g) st js).
Proof.
  intros I. unfold reconcile.
  destruct (Sys.WIFEXITED st || Sys.WIFSIGNALED st); [now apply state_only_mark|].
  destruct (Sys.WIFSTOPPED st); [now apply state_only_mark|].
  destruct (Sys.WIFCONTINUED st); [|apply Forall2_state_only_refl].
  destruct (find_job_by_pgid (a_ret g) js) as [k|] eqn:F;
    [|apply Forall2_state_only_refl].
  apply state_only_update_at with g; [exact I|]. intros _.
  apply find_index_some in F. destruct F as [_ F]. now apply Z.eqb_eq in F.
Qed.

Lemma reap_loop_state_only fuel : forall m,
  Forall2 (state_only (script m)) (jobs m) (jobs (snd (reap_loop fuel m))).
Proof.
  induction fuel as [|fuel IH]; intros m; simpl; [apply Forall2_state_only_refl|].
  rewrite bind_syscall.
  destruct (a_ret (next_answer m) <=? 0); [apply Forall2_state_only_refl|].
  rewrite bind_syscall.
  set (m1 := called _ (called _ m)).
  set (g := next_answer (called _ m)).
  set (st := out0 (next_answer m)).
  assert (incl (script m1) (script m)) as Inc.
  { unfold m1. simpl. intros a Ia.
    destruct (script m) as [|a0 [|a1 s]]; simpl in *; auto. }
  destruct (0 <? a_ret g) eqn:Pos.
  - simpl. rewrite bind_modify_jobs.
    assert (In g (script m)) as Ig.
    { unfold g, next_answer in *. simpl in *.
      destruct (script m) as [|a0 [|a1 s]]; simpl in *; try discriminate.
      right; now left. }
    eapply Forall2_state_only_trans; [exact Inc| |apply (IH (with_jobs _ m1))].
    apply (reconcile_state_only (script m) g st (jobs m) Ig).
  - simpl. rewrite bind_ret.
    eapply Forall2_state_only_trans; [exact Inc| |apply (IH m1)].
    apply Forall2_state_only_refl.
Qed.

(** X27.  The SIGCHLD handler changes nothing of a job but its state: id,
    process group, command text and background flag stay, and the table
    keeps its order.  A job keeps its state too unless its process group is
    one the system reports to the handler. *)
Theorem sigchld_handler_changes_states_only (sig : Signal) (m : Machine) :
  Forall2 (state_only (script m)) (jobs m) (jobs (snd (sigchld_handler sig m))).
Proof.
  unfold sigchld_handler, loop_fuel. rewrite !bind_gets.
  pose proof (reap_loop_state_only (S (List.length (script m))) m) as H.
  unfold bind.
  destruct (reap_loop (S (List.length (script m))) m) as [[[]| | | |] m1]; exact H.
Qed.

(** ** The prompt loop *)

Lemma no_done_after_pruning js : Forall (fun j => status j <> 2) (remove_completed js).
Proof.
  apply Forall_forall. intros j I. unfold remove_completed in I.
  apply filter_In in I. destruct I as [_ I].
  apply negb_true_iff in I. now apply Z.eqb_neq.
Qed.

(** X28.  A command line either is skipped, leaving the shell as it was (a
    line of blanks, or one without a command, like [&] alone), or ends with
    a pruning of the job table: when the shell is back from a command, the
    table holds no Done job. *)
Theorem no_done_job_after_a_command (line : string) (m m' : Machine) :
  shell_step line m = (Ret tt, m') ->
  m' = m \/ Forall (fun j => status j <> 2) (jobs m').
Proof.
  unfold shell_step. intros H.
  destruct (String.eqb (trim line) EmptyString); [left; now inversion H|].
  destruct (parse_pipeline (split_tokens (trim line))) as [pl bg].
  destruct pl as [|c others]; [left; now inversion H|].
  right.
  match type of H with (if ?c then _ else _) _ = _ => destruct c end;
    apply bind_returns in H; destruct H as [a [m1 [_ H]]];
    inversion H; subst; apply no_done_after_pruning.
Qed.

Lemma no_done_job_after_a_command_witness :
  Forall (fun j => status j <> 2)
    (jobs (snd (shell_step "cd /tmp" (machine_of two_jobs [ok 0])))).
Proof.
  destruct (no_done_job_after_a_command "cd /tmp" (machine_of two_jobs [ok 0])
              (snd (shell_step "cd /tmp" (machine_of two_jobs [ok 0]))))
    as [E|H]; [vm_compute; reflexivity| |exact H].
  vm_compute in E. discriminate E.
Defined.

(** X29.  The builtin [exit], given alone on a line, ends the shell with
    status 0 whatever its arguments are ([exit 3] too): the lines after it
    are not read, nothing is written after the prompt, and the job table is
    left as it is. *)
Theorem exit_ends_the_shell
    (line : string) (args : list string) (bg : bool) (rest : list string)
    (m : Machine) :
  trim line <> EmptyString ->
  parse_pipeline (split_tokens (trim line)) = ([simple_stage ("exit" :: args)], bg) ->
  exists m',
    shell_loop (line :: rest) m = (Exit 0, m')
    /\ trace m' = trace m
         ++ [EvGetcwd; EvOut ("simple-shell:" ++ a_str (next_answer m) ++ "$ ")]
    /\ jobs m' = jobs m.
Proof.
  intros N P. cbn [shell_loop]. unfold prompt.
  rewrite bind_assoc, bind_syscall, bind_emit.
  unfold shell_step. apply String.eqb_neq in N. rewrite N, P.
  eexists. split; [reflexivity|]. split; [|reflexivity].
  simpl. now rewrite <- app_assoc.
Qed.

Lemma exit_ends_the_shell_witness :
  exists m',
    shell_loop ["exit 3"; "ls"] (machine_of one_job []) = (Exit 0, m')
    /\ jobs m' = one_job.
Proof.
  destruct (exit_ends_the_shell "exit 3" ["3"] false ["ls"] (machine_of one_job []))
    as [m' [E [_ J]]]; [discriminate|reflexivity|].
  exists m'. split; assumption.
Defined.

Lemma app_cons_not_self {A : Type} (l : list A) x l' : l ++ x :: l' <> l.
Proof.
  intros E. apply (f_equal (@List.length A)) in E.
  rewrite length_app in E. simpl in E. lia.
Qed.

(** X30.  [is_builtin] recognises exactly the argument lists on which
    [run_builtin] does something: it is false if and only if [run_builtin]
    returns 0 at once, making no call and leaving the shell as it was. *)
Theorem is_builtin_iff_run_builtin_acts (av : list string) :
  is_builtin av = false <-> (forall m, run_builtin av m = (Ret 0, m)).
Proof.
  split.
  - intros H m. destruct av as [|cmd args]; [reflexivity|]. simpl in *.
    rewrite !orb_false_iff in H. destruct H as [[[[H1 H2] H3] H4] H5].
    now rewrite H1, H2, H3, H4, H5.
  - intros H. destruct (is_builtin av) eqn:B; [exfalso|reflexivity].
    destruct av as [|cmd args]; [discriminate|]. simpl in B.
    specialize (H (machine_of one_job [])).
    unfold run_builtin in H.
    destruct (String.eqb cmd "cd").
    { destruct args; vm_compute in H; discriminate H. }
    destruct (String.eqb cmd "exit"); [discriminate H|].
    destruct (String.eqb cmd "jobs"); [vm_compute in H; discriminate H|].
    destruct (String.eqb cmd "fg").
    { pose proof (builtin_fg_cases args (machine_of one_job [])) as C.
      destruct (job_id_of_args args) as [x|i]; [rewrite C in H; discriminate H|].
      destruct (resolve_job i (jobs (machine_of one_job []))) as [k|];
        rewrite C in H; [|discriminate H].
      apply (f_equal snd) in H. apply (f_equal trace) in H. cbn [snd] in H.
      rewrite trace_fg_machine in H. simpl in H. discriminate H. }
    destruct (String.eqb cmd "bg"); [|discriminate B].
    pose proof (builtin_bg_cases args (machine_of one_job [])) as C.
    destruct (job_id_of_args args) as [x|i]; [rewrite C in H; discriminate H|].
    destruct (resolve_job i (jobs (machine_of one_job []))) as [k|];
      rewrite C in H; [|discriminate H].
    apply (f_equal snd) in H. apply (f_equal trace) in H. cbn [snd] in H.
    unfold bg_machine in H. simpl in H. discriminate H.
Qed.
